(** * Ticket-lock store of rasa.core (src/rasa/core/lock_store.py)

    A shallow embedding of [LockStore], [InMemoryLockStore] and
    [RedisLockStore], and the properties of the acquisition and release
    protocol that the specification states about them.

    Conventions.
    - Python's [Text] is [string]; [int] is [Z].
    - Wall-clock time ([time.time()]) and durations are whole clock ticks
      ([Z]); one tick is one second where a constant of the source is meant.
    - A method of the store is a computation [M A]: it takes the world (the
      store object, the Redis server behind it, the clock, what has been
      observed so far) and returns a result or a raised exception together
      with the world it leaves.  An exception keeps the effects made before
      it was raised, as in Python. *)

From Stdlib Require Import ZArith String List Bool Lia.
From stdpp Require Import base option gmap strings.
Import ListNotations.

Local Open Scope string_scope.
Local Open Scope list_scope.
Local Open Scope Z_scope.

Abbreviation Text := string.
Abbreviation Time := Z.

(** ** rasa/core/constants.py *)

Definition DEFAULT_LOCK_LIFETIME : Z := 60.

(** ** rasa/core/lock.py: the interface of [TicketLock] *)

Module TicketLock.

(** [TicketLock] is imported from rasa/core/lock.py, which is not among the
    sources.  The store only calls its methods, so they are taken as an
    interface: [Q] is the state of a lock besides its conversation id (the
    queue of tickets), [Wire] is what [dumps] produces and Redis stores.
    Every method gets the current time, which the original reads from the
    system clock, and returns the state it leaves the object in, because a
    method may prune the queue in place.  The values that Redis holds are
    those that [dumps] wrote, so [loads] decodes every one of them. *)
Class Ops (Q Wire : Type) := {
  (** the queue of [TicketLock(conversation_id)] *)
  fresh : Q;
  (** [lock.is_locked(ticket_number)] *)
  is_locked : Time -> Z -> Q -> bool * Q;
  (** [lock.issue_ticket(lifetime)] *)
  issue_ticket : Time -> Z -> Q -> Z * Q;
  (** [lock.remove_expired_tickets()] *)
  remove_expired_tickets : Time -> Q -> Q;
  (** [lock.is_someone_waiting()] *)
  is_someone_waiting : Time -> Q -> bool * Q;
  (** [lock.remove_ticket_for(ticket_number)] *)
  remove_ticket_for : Time -> Z -> Q -> Q;
  (** [lock.dumps()] *)
  dumps : Text -> Q -> Wire;
  (** [TicketLock.from_dict(json.loads(serialised_lock))], as
      (conversation id, queue) *)
  loads : Wire -> Text * Q;
  (** truth value of a stored value ([if serialised_lock:]) *)
  truthy : Wire -> bool
}.

(** A lock object: the conversation id it was created for and its queue. *)
Record t (Q : Type) := Build {
  conversation_id : Text;
  queue : Q
}.
Arguments Build {Q} _ _.
Arguments conversation_id {Q} _.
Arguments queue {Q} _.

End TicketLock.

(** ** Exceptions, results, observations *)

Inductive exn :=
| LockError (message : Text)
| ValueError (message : Text)
| ConnectionError.

Inductive result (A : Type) :=
| Ok (a : A)
| Raise (e : exn).
Arguments Ok {A} _.
Arguments Raise {A} _.

(** What an observer of a run sees: the calls that reach the backend (with
    [reached = false] when the backend could not be reached and the call
    raised), the turn checks, the sleeps and the debug log. *)
Inductive event :=
| ev_get_lock (conversation_id : Text) (reached : bool)
| ev_save_lock (conversation_id : Text) (reached : bool)
| ev_delete_lock (conversation_id : Text) (reached : bool)
| ev_is_locked (ticket : Z) (locked : bool)
| ev_sleep (wait : Z)
| ev_debug (message : Text).

(** ** rasa/utils/endpoints.py, redis *)

(** Modelled from the spec: [EndpointConfig] is declared in
    rasa/utils/endpoints.py, which is not among the sources.  Only what
    [find_lock_store] reads is kept: the backend kind [type], the [url] and
    the keyword arguments, which are the connection parameters of section 6
    (port, database index, credential) and the default lifetime, each
    optional and well typed. *)
Record RedisKwargs := {
  kw_port : option Z;
  kw_db : option Z;
  kw_password : option Text;
  kw_lifetime : option Z
}.

Record EndpointConfig := {
  type : option Text;
  url : option Text;
  kwargs : RedisKwargs
}.

(** The client [redis.StrictRedis(host, port, db, password)]: creating it
    does not connect. *)
Record StrictRedis := {
  host : option Text;
  port : Z;
  db : Z;
  password : option Text
}.

(** The Redis server a [RedisLockStore] talks to: the stored values by key,
    and whether the server can be reached; a command sent to an unreachable
    server raises [redis.exceptions.ConnectionError]. *)
Record RedisServer (Wire : Type) := {
  keys : gmap Text Wire;
  reachable : bool
}.
Arguments keys {Wire} _.
Arguments reachable {Wire} _.

(** ** The lock store *)

Section LockStore.

Context {Q Wire : Type} `{!TicketLock.Ops Q Wire}.

(** The two classes of store, each with [self.lifetime].  The dictionary
    [conversation_locks] of the in-memory store is only ever written by
    [save_lock], which files a lock object under its own conversation id; it
    is kept as the map from a conversation id to the queue of the lock
    object stored under it.  The base class, whose storage methods raise
    [NotImplementedError], is never instantiated. *)
Inductive LockStore :=
| InMemoryLockStore (lifetime : Z) (conversation_locks : gmap Text Q)
| RedisLockStore (lifetime : Z) (red : StrictRedis).

Definition lifetime (self : LockStore) : Z :=
  match self with
  | InMemoryLockStore lifetime _ => lifetime
  | RedisLockStore lifetime _ => lifetime
  end.

Definition class_name (self : LockStore) : Text :=
  match self with
  | InMemoryLockStore _ _ => "InMemoryLockStore"
  | RedisLockStore _ _ => "RedisLockStore"
  end.

Record World := {
  self : LockStore;
  server : RedisServer Wire;
  clock : Time;
  trace : list event
}.

Definition M (A : Type) : Type := World -> result A * World.

Definition ret {A} (a : A) : M A := fun w => (Ok a, w).

Definition raise {A} (e : exn) : M A := fun w => (Raise e, w).

Definition bind {A B} (c : M A) (k : A -> M B) : M B :=
  fun w =>
    match c w with
    | (Ok a, w1) => k a w1
    | (Raise e, w1) => (Raise e, w1)
    end.

(** [try: body finally: final]: [final] runs on every exit of [body]; an
    exception of [final] replaces the outcome of [body]. *)
Definition try_finally {A} (body : M A) (final : M unit) : M A :=
  fun w =>
    let (r, w1) := body w in
    match final w1 with
    | (Ok _, w2) => (r, w2)
    | (Raise e, w2) => (Raise e, w2)
    end.

Definition observe (e : event) : M unit :=
  fun w =>
    (Ok tt, {| self := self w; server := server w; clock := clock w;
               trace := trace w ++ [e] |}).

Definition set_self (s : LockStore) (w : World) : World :=
  {| self := s; server := server w; clock := clock w; trace := trace w |}.

Definition set_server (r : RedisServer Wire) (w : World) : World :=
  {| self := self w; server := r; clock := clock w; trace := trace w |}.

Notation "'let*' x ':=' c 'in' k" := (bind c (fun x => k))
  (at level 10, x pattern, c at level 100, k at level 200).

(** *** Calling a method of a lock object

    The in-memory store hands out the very object it holds, so what a
    method does to the object shows in the dictionary at once, saved or
    not; the Redis store hands out a copy built by [loads].  [call m lock]
    runs method [m] of [lock] at the current time and returns its value and
    the object as the method leaves it. *)
Definition call {A} (method : Time -> Q -> A * Q) (lock : TicketLock.t Q)
  : M (A * TicketLock.t Q) :=
  fun w =>
    let (a, q) := method (clock w) (TicketLock.queue lock) in
    let cid := TicketLock.conversation_id lock in
    (Ok (a, TicketLock.Build cid q),
     match self w with
     | InMemoryLockStore l locks =>
         set_self (InMemoryLockStore l (alter (fun _ => q) cid locks)) w
     | RedisLockStore _ _ => w
     end).

(** *** The storage methods of the two classes *)

(** [_log_deletion] *)
Definition _log_deletion (conversation_id : Text) (deletion_successful : bool)
  : M unit :=
  if deletion_successful then
    observe (ev_debug ("Deleted lock for conversation '" +:+ conversation_id
                       +:+ "'."))
  else
    observe (ev_debug ("Could not delete lock for conversation '"
                       +:+ conversation_id +:+ "'.")).

(** [self.red.get(key)] *)
Definition red_get (key : Text) : M (option Wire) :=
  fun w =>
    if reachable (server w) then (Ok (keys (server w) !! key), w)
    else (Raise ConnectionError, w).

(** [self.red.set(key, value)] *)
Definition red_set (key : Text) (value : Wire) : M unit :=
  fun w =>
    if reachable (server w) then
      (Ok tt, set_server {| keys := <[key := value]> (keys (server w));
                            reachable := true |} w)
    else (Raise ConnectionError, w).

(** [self.red.delete(key)]: the number of keys removed *)
Definition red_delete (key : Text) : M Z :=
  fun w =>
    if reachable (server w) then
      (Ok (match keys (server w) !! key with Some _ => 1 | None => 0 end),
       set_server {| keys := delete key (keys (server w));
                     reachable := true |} w)
    else (Raise ConnectionError, w).

(** [get_lock]: [InMemoryLockStore.get_lock] and [RedisLockStore.get_lock].
    The value that the server holds under a key is taken to be one that
    [dumps] wrote.  For any other value [json.loads] or
    [TicketLock.from_dict] raises in the source, and the exception leaves
    [get_lock]; such values are not in the model, so no property below
    speaks of a store into which something else has written. *)
Definition get_lock (conversation_id : Text) : M (option (TicketLock.t Q)) :=
  fun w =>
    match self w with
    | InMemoryLockStore _ conversation_locks =>
        (let* _ := observe (ev_get_lock conversation_id true) in
         ret (TicketLock.Build conversation_id <$>
                conversation_locks !! conversation_id)) w
    | RedisLockStore _ _ =>
        (let* _ := observe (ev_get_lock conversation_id
                                        (reachable (server w))) in
         let* serialised_lock := red_get conversation_id in
         match serialised_lock with
         | Some s =>
             if TicketLock.truthy s then
               let (cid, q) := TicketLock.loads s in
               ret (Some (TicketLock.Build cid q))
             else ret None
         | None => ret None
         end) w
    end.

(** [delete_lock] of the two classes; it returns nothing ([None]). *)
Definition delete_lock (conversation_id : Text) : M unit :=
  fun w =>
    match self w with
    | InMemoryLockStore l conversation_locks =>
        (let* _ := observe (ev_delete_lock conversation_id true) in
         let deleted_lock := conversation_locks !! conversation_id in
         let* _ := (fun w1 =>
           (Ok tt, set_self (InMemoryLockStore l
                      (delete conversation_id conversation_locks)) w1)) in
         _log_deletion conversation_id
           (match deleted_lock with Some _ => true | None => false end)) w
    | RedisLockStore _ _ =>
        (let* _ := observe (ev_delete_lock conversation_id
                                           (reachable (server w))) in
         let* deletion_successful := red_delete conversation_id in
         _log_deletion conversation_id
           (negb (deletion_successful =? 0))) w
    end.

(** [save_lock] of the two classes *)
Definition save_lock (lock : TicketLock.t Q) : M unit :=
  fun w =>
    let cid := TicketLock.conversation_id lock in
    match self w with
    | InMemoryLockStore l conversation_locks =>
        (let* _ := observe (ev_save_lock cid true) in
         fun w1 =>
           (Ok tt, set_self (InMemoryLockStore l
                      (<[cid := TicketLock.queue lock]> conversation_locks))
                     w1)) w
    | RedisLockStore _ _ =>
        (let* _ := observe (ev_save_lock cid (reachable (server w))) in
         red_set cid (TicketLock.dumps cid (TicketLock.queue lock))) w
    end.

(** *** The methods of [LockStore] *)

(** [create_lock] *)
Definition create_lock (conversation_id : Text) : M (TicketLock.t Q) :=
  let lock := TicketLock.Build conversation_id TicketLock.fresh in
  let* _ := save_lock lock in
  ret lock.

(** [get_or_create_lock].  A lock object is true ([if existing_lock:]), as
    every object of a class without [__bool__] and [__len__] is. *)
Definition get_or_create_lock (conversation_id : Text) : M (TicketLock.t Q) :=
  let* existing_lock := get_lock conversation_id in
  match existing_lock with
  | Some existing_lock => ret existing_lock
  | None => create_lock conversation_id
  end.

(** [issue_ticket].  [lifetime] is the argument as the body sees it: the
    caller's value, [None] included; a caller that leaves it out passes the
    default of the signature, [DEFAULT_LOCK_LIFETIME]. *)
Definition issue_ticket (conversation_id : Text) (lifetime_arg : option Z)
  : M Z :=
  let* lock := get_or_create_lock conversation_id in
  let* lifetime := (fun w =>
    (Ok (match lifetime_arg with
         | Some lifetime => lifetime
         | None => lifetime (self w)
         end), w)) in
  let* (ticket, lock) :=
    call (fun now => TicketLock.issue_ticket now lifetime) lock in
  let* _ := save_lock lock in
  ret ticket.

(** [update_lock] *)
Definition update_lock (conversation_id : Text) : M unit :=
  let* lock := get_lock conversation_id in
  match lock with
  | Some lock =>
      let* (_, lock) :=
        call (fun now q => (tt, TicketLock.remove_expired_tickets now q))
             lock in
      save_lock lock
  | None => ret tt
  end.

(** [is_someone_waiting] *)
Definition is_someone_waiting (conversation_id : Text) : M bool :=
  let* lock := get_lock conversation_id in
  match lock with
  | Some lock =>
      let* (waiting, _) := call TicketLock.is_someone_waiting lock in
      ret waiting
  | None => ret false
  end.

(** [finish_serving] *)
Definition finish_serving (conversation_id : Text) (ticket_number : Z)
  : M unit :=
  let* lock := get_lock conversation_id in
  match lock with
  | Some lock =>
      let* (_, lock) :=
        call (fun now q =>
                (tt, TicketLock.remove_ticket_for now ticket_number q))
             lock in
      save_lock lock
  | None => ret tt
  end.

(** [cleanup] *)
Definition cleanup (conversation_id : Text) (ticket_number : Z) : M unit :=
  let* _ := finish_serving conversation_id ticket_number in
  let* waiting := is_someone_waiting conversation_id in
  if negb waiting then delete_lock conversation_id else ret tt.

(** *** Choosing the store *)

Definition ACCEPTED_LOCK_STORES : list Text := ["in_memory"; "redis"].

(** [sep.join(l)] *)
Fixpoint join (sep : Text) (l : list Text) : Text :=
  match l with
  | [] => ""
  | [x] => x
  | x :: l' => x +:+ sep +:+ join sep l'
  end.

(** [InMemoryLockStore()] *)
Definition new_InMemoryLockStore (lifetime : Z) : LockStore :=
  InMemoryLockStore lifetime ∅.

(** [RedisLockStore(host=url, **kwargs)], with the defaults of [__init__]
    for what [kwargs] leaves out. *)
Definition new_RedisLockStore (url : option Text) (kw : RedisKwargs)
  : LockStore :=
  RedisLockStore (default DEFAULT_LOCK_LIFETIME (kw_lifetime kw))
    {| host := url;
       port := default 6379 (kw_port kw);
       db := default 1 (kw_db kw);
       password := kw_password kw |}.

(** [find_lock_store]: the store, or the exception, and the debug line. *)
Definition find_lock_store (store : option EndpointConfig)
  : result LockStore * list event :=
  let connected (lock_store : LockStore) :=
    (Ok lock_store,
     [ev_debug ("Connected to lock store " +:+ class_name lock_store
                +:+ ".")]) in
  match store with
  | None => connected (new_InMemoryLockStore DEFAULT_LOCK_LIFETIME)
  | Some store =>
      match type store with
      | None => connected (new_InMemoryLockStore DEFAULT_LOCK_LIFETIME)
      | Some ty =>
          if String.eqb ty "in_memory" then
            connected (new_InMemoryLockStore DEFAULT_LOCK_LIFETIME)
          else if String.eqb ty "redis" then
            connected (new_RedisLockStore (url store) (kwargs store))
          else
            (Raise (ValueError
               ("Cannot create `LockStore` of type '" +:+ ty
                +:+ "'. One of the following `LockStore` types need to be "
                +:+ "specified: " +:+ join ", " ACCEPTED_LOCK_STORES
                +:+ ".")), [])
      end
  end.

(** *** Waiting for the turn *)

(** What the rest of the system does while a caller sleeps: the other
    callers of the same process share the dictionary of an in-memory store,
    every process shares the Redis server, and the server may come and go.
    [others w] is what the dictionary and the server hold when a caller
    that went to sleep in world [w] wakes up; nothing is assumed of it. *)
Variable others : World -> gmap Text Q * RedisServer Wire.

(** [await asyncio.sleep(wait)]; a negative delay does not wait. *)
Definition asyncio_sleep (wait : Z) : M unit :=
  fun w =>
    let w1 := {| self := self w; server := server w;
                 clock := clock w + Z.max 0 wait;
                 trace := trace w ++ [ev_sleep wait] |} in
    let (locks, srv) := others w1 in
    (Ok tt,
     {| self := match self w1 with
                | InMemoryLockStore l _ => InMemoryLockStore l locks
                | RedisLockStore l red => RedisLockStore l red
                end;
        server := srv; clock := clock w1; trace := trace w1 |}).

Definition could_not_acquire (conversation_id : Text) : exn :=
  LockError ("Could not acquire lock for conversation_id '"
             +:+ conversation_id +:+ "'.").

(** The loop of [_acquire_lock] with [n] attempts left. *)
Fixpoint acquire_loop (n : nat) (conversation_id : Text) (ticket : Z)
  (wait : Z) : M (TicketLock.t Q) :=
  match n with
  | O => raise (could_not_acquire conversation_id)
  | S n' =>
      let* lock := get_lock conversation_id in
      match lock with
      | None => raise (could_not_acquire conversation_id)
      | Some lock =>
          let* (locked, lock) :=
            call (fun now => TicketLock.is_locked now ticket) lock in
          let* _ := observe (ev_is_locked ticket locked) in
          if negb locked then ret lock
          else
            let* _ := asyncio_sleep wait in
            let* _ := update_lock conversation_id in
            acquire_loop n' conversation_id ticket wait
      end
  end.

(** [_acquire_lock]: [while attempts > 0] with [attempts -= 1] at the end of
    the body runs the body at most [attempts] times, and not at all for
    [attempts <= 0]. *)
Definition _acquire_lock (conversation_id : Text) (ticket : Z) (attempts : Z)
  (wait : Z) : M (TicketLock.t Q) :=
  acquire_loop (Z.to_nat attempts) conversation_id ticket wait.

(** [lock], the context manager: [body] is the block under [async with],
    which gets the lock that [_acquire_lock] returned. *)
Definition lock {A} (conversation_id : Text) (attempts : Z)
  (wait_time_in_seconds : Z) (body : TicketLock.t Q -> M A) : M A :=
  let* ticket := issue_ticket conversation_id (Some DEFAULT_LOCK_LIFETIME) in
  try_finally
    (let* l := _acquire_lock conversation_id ticket attempts
                             wait_time_in_seconds in
     body l)
    (cleanup conversation_id ticket).

End LockStore.

Arguments LockStore : clear implicits.
Arguments World : clear implicits.
Arguments M : clear implicits.

Notation "'let*' x ':=' c 'in' k" := (bind c (fun x => k))
  (at level 10, x pattern, c at level 100, k at level 200).

(** ** The ticket queue of the specification *)

Module TicketQueue.

(** Modelled from the spec: the methods of [TicketLock] are defined in
    rasa/core/lock.py, which is not among the sources.  This is the
    TicketQueue of sections 3 and 4.1 of the specification, word for word:
    tickets in order of issue, each with a number and the time [expires]
    at which it runs out, and the counter of the next number. *)
Record Ticket := {
  number : Z;
  expires : Time
}.

(** Modelled from the spec: the queue, besides its conversation id. *)
Record t := {
  tickets : list Ticket;
  next_ticket_number : Z
}.

(** Modelled from the spec: a ticket is past its time when
    [expiresAt <= now]. *)
Definition has_expired (now : Time) (ticket : Ticket) : bool :=
  expires ticket <=? now.

(** Modelled from the spec: [pruneExpired] removes every ticket whose
    [expiresAt <= now]. *)
Definition remove_expired_tickets (now : Time) (q : t) : t :=
  {| tickets := List.filter (fun ticket => negb (has_expired now ticket))
                            (tickets q);
     next_ticket_number := next_ticket_number q |}.

(** Modelled from the spec: [issue(lifetime)] appends
    [Ticket{nextTicketNumber, now+lifetime}], increments the counter and
    returns the new number. *)
Definition issue_ticket (now : Time) (lifetime : Z) (q : t) : Z * t :=
  (next_ticket_number q,
   {| tickets := tickets q ++ [{| number := next_ticket_number q;
                                  expires := now + lifetime |}];
      next_ticket_number := next_ticket_number q + 1 |}).

(** Modelled from the spec: [isInTurn(ticketNumber)] prunes expired
    tickets, then is true iff [ticketNumber] equals the minimum remaining
    ticket number, or the queue contains no tickets at all. *)
Definition is_in_turn (now : Time) (ticket_number : Z) (q : t) : bool * t :=
  let q' := remove_expired_tickets now q in
  (match tickets q' with
   | [] => true
   | _ :: _ =>
       existsb (fun ticket => number ticket =? ticket_number) (tickets q')
       && forallb (fun ticket => ticket_number <=? number ticket)
                  (tickets q')
   end, q').

(** Modelled from the spec: [is_locked(ticket_number)], which the store
    calls, is the negation of [isInTurn]. *)
Definition is_locked (now : Time) (ticket_number : Z) (q : t) : bool * t :=
  let (in_turn, q') := is_in_turn now ticket_number q in
  (negb in_turn, q').

(** Modelled from the spec: [hasWaiters] is true iff, after pruning, at
    least one ticket remains. *)
Definition is_someone_waiting (now : Time) (q : t) : bool * t :=
  let q' := remove_expired_tickets now q in
  (match tickets q' with [] => false | _ :: _ => true end, q').

(** Modelled from the spec: [remove(ticketNumber)] deletes the ticket if
    present. *)
Definition remove_ticket_for (now : Time) (ticket_number : Z) (q : t) : t :=
  {| tickets := List.filter
                  (fun ticket => negb (number ticket =? ticket_number))
                  (tickets q);
     next_ticket_number := next_ticket_number q |}.

(** Modelled from the spec: the stored record is the structural snapshot
    (conversation id, ticket list, counter), never empty.  The spec leaves
    the first ticket number open; it is the parameter [first]. *)
Definition ops (first : Z) : TicketLock.Ops t (Text * t) :=
  {| TicketLock.fresh := {| tickets := []; next_ticket_number := first |};
     TicketLock.is_locked := is_locked;
     TicketLock.issue_ticket := issue_ticket;
     TicketLock.remove_expired_tickets := remove_expired_tickets;
     TicketLock.is_someone_waiting := is_someone_waiting;
     TicketLock.remove_ticket_for := remove_ticket_for;
     TicketLock.dumps := fun conversation_id q => (conversation_id, q);
     TicketLock.loads := fun record => record;
     TicketLock.truthy := fun _ => true |}.

End TicketQueue.

(** A system in which nobody else touches the store while a caller
    sleeps. *)
Definition nobody {Q Wire : Type} (w : World Q Wire)
  : gmap Text Q * RedisServer Wire :=
  (match self w with
   | InMemoryLockStore _ conversation_locks => conversation_locks
   | RedisLockStore _ _ => ∅
   end, server w).

(** * The terms of the properties *)

Section Terms.

Context {Q Wire : Type} `{!TicketLock.Ops Q Wire}.

Abbreviation W := (World Q Wire).

(** Whether the storage medium of the store can be reached. *)
Definition available (w : W) : bool :=
  match self w with
  | InMemoryLockStore _ _ => true
  | RedisLockStore _ _ => reachable (server w)
  end.

(** The record that the storage medium holds under a key, in whatever form
    it holds it. *)
Definition has_record (conversation_id : Text) (w : W) : bool :=
  match self w with
  | InMemoryLockStore _ conversation_locks =>
      bool_decide (is_Some (conversation_locks !! conversation_id))
  | RedisLockStore _ _ =>
      bool_decide (is_Some (keys (server w) !! conversation_id))
  end.

(** A call that did not reach the backend. *)
Definition backend_failed (e : event) : bool :=
  match e with
  | ev_get_lock _ reached
  | ev_save_lock _ reached
  | ev_delete_lock _ reached => negb reached
  | _ => false
  end.

(** A computation is [sound] when it only adds observations, raises
    [ConnectionError] exactly when one of its calls did not reach the
    backend, and never raises [ValueError]. *)
Definition sound {A} (c : M Q Wire A) : Prop :=
  forall w, exists d,
    trace (c w).2 = trace w ++ d /\
    match (c w).1 with
    | Raise ConnectionError => existsb backend_failed d = true
    | Raise (ValueError _) => False
    | _ => existsb backend_failed d = false
    end.

(** A computation that never raises the configuration error. *)
Definition never_ValueError {A} (c : M Q Wire A) : Prop :=
  forall w message, (c w).1 <> Raise (ValueError message).

(** [emits P c]: every observation that [c] adds satisfies [P]. *)
Definition emits (P : event -> bool) {A} (c : M Q Wire A) : Prop :=
  forall w, exists d, trace (c w).2 = trace w ++ d /\ forallb P d = true.

Definition is_save (e : event) : bool :=
  match e with ev_save_lock _ _ => true | _ => false end.

Definition is_delete (e : event) : bool :=
  match e with ev_delete_lock _ _ => true | _ => false end.

(** What one attempt that does not get the turn lets an observer see: the
    fetch, the turn check, the sleep, and the update (a fetch and the save
    of the pruned lock, filed under the lock's own conversation id). *)
Definition attempt_events (conversation_id : Text) (ticket : Z) (wait : Z)
  (saved_as : Text) : list event :=
  [ev_get_lock conversation_id true; ev_is_locked ticket true; ev_sleep wait;
   ev_get_lock conversation_id true; ev_save_lock saved_as true].

Variable others : World Q Wire -> gmap Text Q * RedisServer Wire.

(** [held_throughout n w]: starting in world [w], in each of the next [n]
    attempts the fetch finds the record, the record is locked against
    [ticket], and after the sleep the record is still there for the update,
    which goes through. *)
Fixpoint held_throughout (n : nat) (conversation_id : Text) (ticket : Z)
  (wait : Z) (w : W) : bool :=
  match n with
  | O => true
  | S n' =>
      match get_lock conversation_id w with
      | (Ok (Some lock), w1) =>
          match call (fun now => TicketLock.is_locked now ticket) lock w1 with
          | (Ok (true, _), w2) =>
              match (let* _ := observe (ev_is_locked ticket true) in
                     asyncio_sleep others wait) w2 with
              | (Ok _, w3) =>
                  match get_lock conversation_id w3,
                        update_lock conversation_id w3 with
                  | (Ok (Some _), _), (Ok _, w5) =>
                      held_throughout n' conversation_id ticket wait w5
                  | _, _ => false
                  end
              | (Raise _, _) => false
              end
          | _ => false
          end
      | _ => false
      end
  end.

End Terms.

(** ** Scenarios over the ticket queue of the specification *)

Abbreviation SpecWorld := (World TicketQueue.t (Text * TicketQueue.t)).

(** The scenarios number tickets from 1, as the specification's do. *)
Definition scenario_ops : TicketLock.Ops TicketQueue.t (Text * TicketQueue.t) :=
  TicketQueue.ops 1.

(** A ticket number is outstanding in a queue at some time when the queue
    holds a ticket of that number that has not expired. *)
Definition outstanding (now : Time) (q : TicketQueue.t) (n : Z) : Prop :=
  exists ticket,
    In ticket (TicketQueue.tickets q)
    /\ TicketQueue.number ticket = n
    /\ TicketQueue.has_expired now ticket = false.

Definition in_memory (lifetime : Z)
  (conversation_locks : gmap Text TicketQueue.t) (now : Time) : SpecWorld :=
  {| self := InMemoryLockStore lifetime conversation_locks;
     server := {| keys := ∅; reachable := true |};
     clock := now; trace := [] |}.

Definition in_redis (lifetime : Z)
  (stored : gmap Text (Text * TicketQueue.t)) (now : Time) : SpecWorld :=
  {| self := RedisLockStore lifetime
               {| host := Some "localhost"; port := 6379; db := 1;
                  password := None |};
     server := {| keys := stored; reachable := true |};
     clock := now; trace := [] |}.

(** Two tickets issued at time 100 with a lifetime of 60. *)
Definition two_tickets : TicketQueue.t :=
  {| TicketQueue.tickets :=
       [ {| TicketQueue.number := 1; TicketQueue.expires := 160 |};
         {| TicketQueue.number := 2; TicketQueue.expires := 160 |} ];
     TicketQueue.next_ticket_number := 3 |}.

(** Scenario D of the specification: the ticket ahead is never released. *)
Definition scenario_D : SpecWorld := in_memory 60 {[ "c" := two_tickets ]} 100.

(** A conversation without a record, at time 0. *)
Definition no_record : SpecWorld := in_memory 60 ∅ 0.

(** A store that holds the record of one caller, ticket 1. *)
Definition one_ticket : TicketQueue.t :=
  {| TicketQueue.tickets :=
       [ {| TicketQueue.number := 1; TicketQueue.expires := 160 |} ];
     TicketQueue.next_ticket_number := 2 |}.

Definition last_caller : SpecWorld := in_memory 60 {[ "c" := one_ticket ]} 100.

(** The claim C6 as the specification states it: the value that
    [delete_lock] returns tells whether a record existed. *)
Definition return_tells_existence (reads : result unit -> bool) : Prop :=
  forall conversation_id (w : SpecWorld),
    reads (delete_lock conversation_id w).1
    = has_record conversation_id w.

(** A Redis store in which the caller with ticket 3 waits behind ticket 2,
    while the record still holds ticket 1, which expired at time 90. *)
Definition three_tickets : TicketQueue.t :=
  {| TicketQueue.tickets :=
       [ {| TicketQueue.number := 1; TicketQueue.expires := 90 |};
         {| TicketQueue.number := 2; TicketQueue.expires := 160 |};
         {| TicketQueue.number := 3; TicketQueue.expires := 160 |} ];
     TicketQueue.next_ticket_number := 4 |}.

Definition waiting_in_redis : SpecWorld :=
  in_redis 60 {[ "c" := ("c", three_tickets) ]} 100.

(** ** Terms of the properties of the storage methods *)

Section StorageTerms.

Context {Q Wire : Type} `{!TicketLock.Ops Q Wire}.

Abbreviation W := (World Q Wire).

(** What the storage medium holds under a key: the queue of the lock object
    in the dictionary of an in-memory store, the value on the server of a
    Redis store. *)
Definition record (key : Text) (w : W) : option (Q + Wire) :=
  match self w with
  | InMemoryLockStore _ conversation_locks =>
      inl <$> conversation_locks !! key
  | RedisLockStore _ _ => inr <$> keys (server w) !! key
  end.

(** The record under a key names that key: the lock that [get_lock] builds
    from the value stored on the Redis server under [key] has [key] as its
    conversation id, so that [save_lock] files it under [key] again.  The
    dictionary of an in-memory store is only written by [save_lock]. *)
Definition filed (key : Text) (w : W) : bool :=
  match self w with
  | InMemoryLockStore _ _ => true
  | RedisLockStore _ _ =>
      match keys (server w) !! key with
      | Some s =>
          if TicketLock.truthy s then
            String.eqb (TicketLock.loads s).1 key
          else true
      | None => true
      end
  end.

(** [dumps] and [loads] of the lock objects round-trip: what [dumps] writes
    is a true value, which [loads] reads back as the same lock. *)
Definition serialisation_round_trips : Prop :=
  forall conversation_id q,
    TicketLock.truthy (TicketLock.dumps conversation_id q) = true
    /\ TicketLock.loads (TicketLock.dumps conversation_id q)
       = (conversation_id, q).

(** The delays of the sleeps among some observations, in order. *)
Definition sleeps (d : list event) : list Z :=
  flat_map (fun e => match e with ev_sleep wait => [wait] | _ => [] end) d.

(** [untouched_but key w w']: from [w] to [w'] the record under [key] still
    names [key], and what the storage medium holds under every other key
    is the same. *)
Definition untouched_but (key : Text) (w w' : W) : Prop :=
  filed key w' = true /\ forall k, k <> key -> record k w' = record k w.

(** [touches_only key P c]: started where the record under [key] names
    [key], the computation [c] leaves it so, changes what the storage
    medium holds under no other key, and returns only values that satisfy
    [P]. *)
Definition touches_only (key : Text) {A} (P : A -> Prop) (c : M Q Wire A)
  : Prop :=
  forall w,
    filed key w = true ->
    untouched_but key w (c w).2 /\ (forall a, (c w).1 = Ok a -> P a).

(** A computation that returns normally whenever the storage medium can be
    reached, and leaves it reachable. *)
Definition returns_when_available {A} (c : M Q Wire A) : Prop :=
  forall w,
    available w = true ->
    available (c w).2 = true /\ exists a, (c w).1 = Ok a.

(** A computation whose only exception is the one of the backend. *)
Definition only_ConnectionError {A} (c : M Q Wire A) : Prop :=
  forall w e, (c w).1 = Raise e -> e = ConnectionError.

(** [quiet saves c]: the computation [c] takes no time (it does not sleep
    and leaves the clock alone), deletes nothing and saves at most [saves]
    times. *)
Definition quiet (saves : nat) {A} (c : M Q Wire A) : Prop :=
  forall w,
    clock (c w).2 = clock w
    /\ exists d,
         trace (c w).2 = trace w ++ d
         /\ sleeps d = []
         /\ existsb is_delete d = false
         /\ (length (List.filter is_save d) <= saves)%nat.

(** The world after a single call that did not reach the backend: nothing
    but the observation of the failed call is new. *)
Definition after_failed (e : event) (w : W) : W :=
  {| self := self w; server := server w; clock := clock w;
     trace := trace w ++ [e] |}.

End StorageTerms.

(** ** Further scenarios *)

(** A Redis store whose server cannot be reached. *)
Definition redis_down : SpecWorld :=
  {| self := RedisLockStore 60
               {| host := Some "localhost"; port := 6379; db := 1;
                  password := None |};
     server := {| keys := {[ "c" := ("c", one_ticket) ]};
                  reachable := false |};
     clock := 100; trace := [] |}.

(** A Redis store with the records of two conversations. *)
Definition two_conversations : SpecWorld :=
  in_redis 60 {[ "c" := ("c", two_tickets); "d" := ("d", one_ticket) ]} 100.

(** ** What the store holds, and the attempts of an acquisition *)

Section StateTerms.

Context {Q Wire : Type} `{!TicketLock.Ops Q Wire}.

Abbreviation W := (World Q Wire).

(** [holds key q w]: the storage medium holds the queue [q] as the lock of
    [key]: the dictionary of an in-memory store maps [key] to the lock
    object whose queue is [q]; the server of a Redis store maps [key] to
    what [dumps] writes for that lock. *)
Definition holds (key : Text) (q : Q) (w : W) : Prop :=
  record key w
  = Some match self w with
         | InMemoryLockStore _ _ => inl q
         | RedisLockStore _ _ => inr (TicketLock.dumps key q)
         end.

Variable others : World Q Wire -> gmap Text Q * RedisServer Wire.

(** One attempt of the waiting loop that does not get the turn, from the
    world [w] in which the iteration starts to the world [w'] in which the
    next one starts: one fetch, which finds the lock; one turn check, which
    says locked; one sleep of the wait interval; one update, which fetches
    the lock again, removes the expired tickets and saves the lock, so that
    the store then holds the queue fetched with the tickets that had
    expired at that time removed. *)
Definition one_attempt (conversation_id : Text) (ticket : Z) (wait : Z)
  (w w' : W) : Prop :=
  exists found checked w1 w2 w3 fetched w4,
    get_lock conversation_id w = (Ok (Some found), w1)
    /\ call (fun now => TicketLock.is_locked now ticket) found w1
       = (Ok (true, checked), w2)
    /\ (let* _ := observe (ev_is_locked ticket true) in
        asyncio_sleep others wait) w2 = (Ok tt, w3)
    /\ get_lock conversation_id w3 = (Ok (Some fetched), w4)
    /\ update_lock conversation_id w3 = (Ok tt, w')
    /\ holds (TicketLock.conversation_id fetched)
         (TicketLock.remove_expired_tickets (clock w3)
            (TicketLock.queue fetched)) w'
    /\ trace w'
       = trace w ++ attempt_events conversation_id ticket wait
                      (TicketLock.conversation_id fetched)
    /\ clock w' = clock w + Z.max 0 wait.

(** [attempts_made n w w']: [n] such attempts in a row lead from [w] to
    [w']. *)
Inductive attempts_made (conversation_id : Text) (ticket : Z) (wait : Z)
  : nat -> W -> W -> Prop :=
| attempts_made_O w : attempts_made conversation_id ticket wait O w w
| attempts_made_S n w w1 w' :
    one_attempt conversation_id ticket wait w w1 ->
    attempts_made conversation_id ticket wait n w1 w' ->
    attempts_made conversation_id ticket wait (S n) w w'.

End StateTerms.

(** The claim C8 as the specification states it, read on the store: when
    a caller whose ticket is not in turn goes to sleep, the queue with the
    expired tickets removed has been persisted. *)
Definition persisted_before_sleeping : Prop :=
  forall conversation_id ticket found checked (w w1 w2 : SpecWorld),
    get_lock (H := scenario_ops) conversation_id w
    = (Ok (Some found), w1) ->
    call (fun now => TicketLock.is_locked (Ops := scenario_ops) now ticket)
         found w1
    = (Ok (true, checked), w2) ->
    holds (H := scenario_ops) conversation_id
      (TicketQueue.remove_expired_tickets (clock w) (TicketLock.queue found))
      w2.

(** A Redis server that goes down while a caller sleeps. *)
Definition going_down (w : SpecWorld)
  : gmap Text TicketQueue.t * RedisServer (Text * TicketQueue.t) :=
  (∅, {| keys := keys (server w); reachable := false |}).

(** A Redis store that holds the record of one caller, ticket 1. *)
Definition last_caller_in_redis : SpecWorld :=
  in_redis 60 {[ "c" := ("c", one_ticket) ]} 100.

(** ** The callers of one conversation over time *)

Section TurnCheck.

Context {Q Wire : Type} `{!TicketLock.Ops Q Wire}.

(** The fetch and the turn check with which every iteration of the loop of
    [_acquire_lock] starts (lines 119 to 129 of the source): [None] when
    the lock does not exist any more, else whether the lock is locked for
    the ticket, and the lock as the check left it.  [_acquire_lock] raises
    [LockError] on [None], returns the lock when it is not locked, and
    else sleeps, updates and starts over. *)
Definition turn_check (conversation_id : Text) (ticket : Z)
  : M Q Wire (option (bool * TicketLock.t Q)) :=
  let* lock := get_lock conversation_id in
  match lock with
  | None => ret None
  | Some lock =>
      let* (locked, lock) :=
        call (fun now => TicketLock.is_locked now ticket) lock in
      let* _ := observe (ev_is_locked ticket locked) in
      ret (Some (locked, lock))
  end.

End TurnCheck.

(** A caller of [lock] that has been issued a ticket and has not released
    yet: the number of its ticket, the time at which the ticket expires,
    and whether the caller has been given the turn. *)
Record Caller := {
  caller_ticket : Z;
  caller_expires : Time;
  caller_holds : bool
}.

(** A store with the callers of one conversation that are under way. *)
Record System := {
  world : SpecWorld;
  callers : gmap nat Caller
}.

(** What happens on a store that callers share, one uninterrupted step at
    a time (as the callers of one event loop take them, between two
    [await]s): a caller is issued a ticket as [lock] issues it; a caller
    fetches the lock and checks its turn; a caller that slept updates the
    lock; a caller releases (this is also how a caller that gives up
    ends); time passes. *)
Inductive action :=
| act_issue (c : nat)
| act_check (c : nat)
| act_update (c : nat)
| act_release (c : nat)
| act_pass (seconds : Z).

Section Callers.

(** The number of the first ticket of a lock, which the specification
    leaves open. *)
Variable first : Z.

Local Abbreviation spec := (TicketQueue.ops first).

Definition step (conversation_id : Text) (a : action) (s : System)
  : System :=
  match a with
  | act_issue c =>
      match callers s !! c with
      | Some _ => s
      | None =>
          match issue_ticket (H := spec) conversation_id
                  (Some DEFAULT_LOCK_LIFETIME) (world s) with
          | (Ok ticket, w') =>
              {| world := w';
                 callers :=
                   <[c := {| caller_ticket := ticket;
                             caller_expires :=
                               clock (world s) + DEFAULT_LOCK_LIFETIME;
                             caller_holds := false |}]> (callers s) |}
          | (Raise _, w') => {| world := w'; callers := callers s |}
          end
      end
  | act_check c =>
      match callers s !! c with
      | Some caller =>
          if caller_holds caller then s
          else
            match turn_check (H := spec) conversation_id
                    (caller_ticket caller) (world s) with
            | (Ok (Some (false, _)), w') =>
                {| world := w';
                   callers :=
                     <[c := {| caller_ticket := caller_ticket caller;
                               caller_expires := caller_expires caller;
                               caller_holds := true |}]> (callers s) |}
            | (_, w') => {| world := w'; callers := callers s |}
            end
      | None => s
      end
  | act_update c =>
      match callers s !! c with
      | Some _ =>
          {| world := (update_lock (H := spec) conversation_id (world s)).2;
             callers := callers s |}
      | None => s
      end
  | act_release c =>
      match callers s !! c with
      | Some caller =>
          {| world := (cleanup (H := spec) conversation_id
                         (caller_ticket caller) (world s)).2;
             callers := delete c (callers s) |}
      | None => s
      end
  | act_pass seconds =>
      {| world := {| self := self (world s); server := server (world s);
                     clock := clock (world s) + Z.max 0 seconds;
                     trace := trace (world s) |};
         callers := callers s |}
  end.

(** The system after the steps of a schedule, taken in order. *)
Definition run (conversation_id : Text) (schedule : list action)
  (s : System) : System :=
  fold_left (fun s a => step conversation_id a s) schedule s.

(** No ticket of a caller under way has expired. *)
Definition timely_now (s : System) : bool :=
  bool_decide
    (map_Forall (fun _ caller => clock (world s) < caller_expires caller)
                (callers s)).

(** Throughout a schedule, no ticket expires before its caller has
    released. *)
Fixpoint timely (conversation_id : Text) (schedule : list action)
  (s : System) : bool :=
  timely_now s
  && match schedule with
     | [] => true
     | a :: schedule' => timely conversation_id schedule'
                           (step conversation_id a s)
     end.

(** At most one of the callers whose tickets have not expired holds the
    turn. *)
Definition one_holder (s : System) : Prop :=
  forall c1 c2 caller1 caller2,
    callers s !! c1 = Some caller1 ->
    callers s !! c2 = Some caller2 ->
    caller_holds caller1 = true ->
    caller_holds caller2 = true ->
    clock (world s) < caller_expires caller1 ->
    clock (world s) < caller_expires caller2 ->
    c1 = c2.

(** The caller that holds the turn has the least ticket of all callers
    under way: no caller is given the turn while a caller with a smaller
    ticket is under way. *)
Definition least_holds (s : System) : Prop :=
  forall c1 c2 caller1 caller2,
    callers s !! c1 = Some caller1 ->
    callers s !! c2 = Some caller2 ->
    caller_holds caller1 = true ->
    caller_ticket caller1 <= caller_ticket caller2.

(** No two callers under way have the same ticket number. *)
Definition distinct_tickets (s : System) : Prop :=
  forall c1 c2 caller1 caller2,
    callers s !! c1 = Some caller1 ->
    callers s !! c2 = Some caller2 ->
    caller_ticket caller1 = caller_ticket caller2 ->
    c1 = c2.

(** The queue of the lock that the store holds for a key. *)
Definition queue_of (key : Text) (w : SpecWorld) : option TicketQueue.t :=
  match record key w with
  | Some (inl q) => Some q
  | Some (inr stored) => Some stored.2
  | None => None
  end.

(** The tickets in that queue; none when there is no lock. *)
Definition tickets_of (key : Text) (w : SpecWorld)
  : list TicketQueue.Ticket :=
  match queue_of key w with
  | Some q => TicketQueue.tickets q
  | None => []
  end.

(** The ticket of a caller as the queue has it. *)
Definition ticket_of (caller : Caller) : TicketQueue.Ticket :=
  {| TicketQueue.number := caller_ticket caller;
     TicketQueue.expires := caller_expires caller |}.

(** What holds of a system throughout a run in which no ticket expires
    before its caller has released: the store can be reached and files the
    lock under its key; the tickets in the queue are those of the callers
    under way; every ticket in the queue is below the counter of the queue;
    the callers have distinct tickets; and the caller that holds the turn
    has the least of them. *)
Definition consistent (conversation_id : Text) (s : System) : Prop :=
  available (world s) = true
  /\ filed (H := spec) conversation_id (world s) = true
  /\ (forall c caller,
        callers s !! c = Some caller ->
        In (ticket_of caller) (tickets_of conversation_id (world s)))
  /\ (forall t,
        In t (tickets_of conversation_id (world s)) ->
        exists c caller,
          callers s !! c = Some caller /\ ticket_of caller = t)
  /\ (forall q t,
        queue_of conversation_id (world s) = Some q ->
        In t (TicketQueue.tickets q) ->
        TicketQueue.number t < TicketQueue.next_ticket_number q)
  /\ distinct_tickets s
  /\ least_holds s.

End Callers.

(** The claim C1 as the specification states it, on the callers of a store
    that holds no lock at first: whatever they do, at any instant at most
    one of the callers whose tickets have not expired holds the turn. *)
Definition mutual_exclusion : Prop :=
  forall conversation_id schedule (w : SpecWorld),
    record conversation_id w = None ->
    one_holder
      (run 1 conversation_id schedule {| world := w; callers := ∅ |}).

(** A run in which a caller outstays its ticket: A is given the turn and
    works for 61 seconds; B comes, is given the turn, since the ticket of A
    has expired, and releases, which removes the record; C comes and is
    given the turn; A releases at last; D comes and is given the turn. *)
Definition outstayed : list action :=
  [ act_issue 0; act_check 0; act_pass 61;
    act_issue 1; act_check 1; act_release 1;
    act_issue 2; act_check 2;
    act_release 0;
    act_issue 3; act_check 3 ].

(** A run without expiry: A and B are issued tickets, A is given the turn,
    B checks and waits, A releases, B is given the turn. *)
Definition in_order : list action :=
  [ act_issue 0; act_issue 1; act_check 1; act_check 0; act_check 1;
    act_pass 1; act_update 1; act_release 0; act_check 1 ].

(** * Properties *)

Section Properties.

Context {Q Wire : Type} `{!TicketLock.Ops Q Wire}.

Abbreviation W := (World Q Wire).

Local Abbreviation sound := (sound (Q := Q) (Wire := Wire)).
Local Abbreviation emits := (emits (Q := Q) (Wire := Wire)).
Local Abbreviation never_ValueError :=
  (never_ValueError (Q := Q) (Wire := Wire)).

(** ** Running computations *)

Lemma bind_Ok {A B} (c : M Q Wire A) (k : A -> M Q Wire B) w a w1 :
  c w = (Ok a, w1) -> bind c k w = k a w1.
Proof. intros E. unfold bind. now rewrite E. Qed.

Lemma bind_Raise {A B} (c : M Q Wire A) (k : A -> M Q Wire B) w e w1 :
  c w = (Raise e, w1) -> bind c k w = (Raise e, w1).
Proof. intros E. unfold bind. now rewrite E. Qed.

Lemma bind_assoc {A B C} (c : M Q Wire A) (f : A -> M Q Wire B)
  (g : B -> M Q Wire C) w :
  bind (bind c f) g w = bind c (fun a => bind (f a) g) w.
Proof. unfold bind. now destruct (c w) as [[a|e] w1]. Qed.

(** A fetch changes nothing but the observations. *)
Lemma get_lock_frame conversation_id (w : W) :
  self (get_lock conversation_id w).2 = self w /\
  server (get_lock conversation_id w).2 = server w /\
  clock (get_lock conversation_id w).2 = clock w /\
  trace (get_lock conversation_id w).2
  = trace w ++ [ev_get_lock conversation_id (available w)].
Proof.
  unfold get_lock, available, bind, observe, red_get, ret.
  destruct (self w) eqn:Es; cbn; [tauto|].
  destruct (reachable (server w)); cbn; [|tauto].
  destruct (keys (server w) !! conversation_id) as [s|]; cbn; [|tauto].
  destruct (TicketLock.truthy s); cbn; [|tauto].
  destruct (TicketLock.loads s); cbn; tauto.
Qed.

Lemma get_lock_world conversation_id (w : W) :
  (get_lock conversation_id w).2
  = {| self := self w; server := server w; clock := clock w;
       trace := trace w ++ [ev_get_lock conversation_id (available w)] |}.
Proof.
  destruct (get_lock_frame conversation_id w) as (E1 & E2 & E3 & E4).
  destruct (get_lock conversation_id w).2; cbn in *; congruence.
Qed.

(** A fetch that finds nothing finds nothing again. *)
Lemma get_lock_None_again conversation_id (w w1 : W) :
  get_lock conversation_id w = (Ok None, w1) ->
  (get_lock conversation_id w1).1 = Ok None.
Proof.
  intros E. pose proof (get_lock_world conversation_id w) as Ew.
  rewrite E in Ew; cbn in Ew; subst w1.
  revert E. unfold get_lock, bind, observe, red_get, ret; cbn.
  destruct (self w) eqn:Es; cbn.
  - intros [= E _]. now rewrite E.
  - destruct (reachable (server w)); cbn; [|discriminate].
    destruct (keys (server w) !! conversation_id) as [s|]; cbn; [|easy].
    destruct (TicketLock.truthy s); cbn; [|easy].
    destruct (TicketLock.loads s); discriminate.
Qed.

(** ** What a method observes and what it may raise *)

Lemma sound_ret {A} (a : A) : sound (ret a).
Proof. intros w. exists []. cbn. now rewrite app_nil_r. Qed.

Lemma sound_raise_LockError {A} message :
  sound (raise (A := A) (LockError message)).
Proof. intros w. exists []. cbn. now rewrite app_nil_r. Qed.

Lemma sound_bind {A B} (c : M Q Wire A) (k : A -> M Q Wire B) :
  sound c -> (forall a, sound (k a)) -> sound (bind c k).
Proof.
  intros Hc Hk w. destruct (Hc w) as (d1 & E1 & C1). unfold bind.
  destruct (c w) as [[a|e] w1]; cbn in *.
  - destruct (Hk a w1) as (d2 & E2 & C2). exists (d1 ++ d2). split.
    + now rewrite E2, E1, app_assoc.
    + rewrite existsb_app, C1. exact C2.
  - exists d1. now split.
Qed.

Lemma sound_observe e : backend_failed e = false -> sound (observe e).
Proof. intros He w. exists [e]. cbn. now rewrite He. Qed.

Lemma sound_call {A} (method : Time -> Q -> A * Q) lock :
  sound (call method lock).
Proof.
  intros w. exists []. unfold call.
  destruct (method (clock w) (TicketLock.queue lock)); cbn.
  destruct (self w); cbn; now rewrite app_nil_r.
Qed.

Lemma sound__log_deletion conversation_id deletion_successful :
  sound (_log_deletion conversation_id deletion_successful).
Proof.
  unfold _log_deletion.
  destruct deletion_successful; now apply sound_observe.
Qed.

Lemma sound_get_lock conversation_id : sound (get_lock conversation_id).
Proof.
  intros w. exists [ev_get_lock conversation_id (available w)].
  destruct (get_lock_frame conversation_id w) as (_ & _ & _ & Et).
  split; [exact Et|]. clear Et.
  unfold get_lock, available, bind, observe, red_get, ret.
  destruct (self w); cbn; [reflexivity|].
  destruct (reachable (server w)); cbn; [|reflexivity].
  destruct (keys (server w) !! conversation_id) as [s|]; cbn; [|easy].
  destruct (TicketLock.truthy s); cbn; [|easy].
  now destruct (TicketLock.loads s).
Qed.

Lemma sound_save_lock lock : sound (save_lock lock).
Proof.
  intros w.
  exists [ev_save_lock (TicketLock.conversation_id lock) (available w)].
  unfold save_lock, available, bind, observe, red_set.
  destruct (self w); cbn; [easy|].
  now destruct (reachable (server w)).
Qed.

Lemma sound_delete_lock conversation_id : sound (delete_lock conversation_id).
Proof.
  intros w. unfold delete_lock, bind, observe, red_delete, _log_deletion.
  destruct (self w); cbn.
  - destruct (_ !! conversation_id); cbn; eexists [_; _]; cbn;
      rewrite <- app_assoc; easy.
  - destruct (reachable (server w)); cbn.
    + destruct (negb _); cbn; eexists [_; _]; cbn; rewrite <- app_assoc; easy.
    + now exists [ev_delete_lock conversation_id false].
Qed.

Create HintDb sound.
#[local] Hint Resolve sound_ret sound_raise_LockError sound_call
  sound__log_deletion sound_get_lock sound_save_lock sound_delete_lock : sound.

Ltac sound_step :=
  match goal with
  | |- sound (bind _ _) => apply sound_bind; [| intros ? ]
  | |- sound (match ?x with _ => _ end) => destruct x
  | |- sound (if ?b then _ else _) => destruct b
  | |- sound (observe _) => apply sound_observe; reflexivity
  | |- sound (raise (could_not_acquire _)) => apply sound_raise_LockError
  | |- _ => solve [auto with sound]
  end.

Lemma sound_create_lock conversation_id : sound (create_lock conversation_id).
Proof. unfold create_lock. repeat sound_step. Qed.

Lemma sound_get_or_create_lock conversation_id :
  sound (get_or_create_lock conversation_id).
Proof.
  unfold get_or_create_lock. repeat sound_step. apply sound_create_lock.
Qed.

Lemma sound_issue_ticket conversation_id lifetime_arg :
  sound (issue_ticket conversation_id lifetime_arg).
Proof.
  unfold issue_ticket. apply sound_bind; [apply sound_get_or_create_lock|].
  intros lock. apply sound_bind.
  { intros w. exists []. cbn. now rewrite app_nil_r. }
  intros l. repeat sound_step.
Qed.

Lemma sound_update_lock conversation_id : sound (update_lock conversation_id).
Proof. unfold update_lock. repeat sound_step. Qed.

Lemma sound_is_someone_waiting conversation_id :
  sound (is_someone_waiting conversation_id).
Proof. unfold is_someone_waiting. repeat sound_step. Qed.

Lemma sound_finish_serving conversation_id ticket_number :
  sound (finish_serving conversation_id ticket_number).
Proof. unfold finish_serving. repeat sound_step. Qed.

Lemma sound_cleanup conversation_id ticket_number :
  sound (cleanup conversation_id ticket_number).
Proof.
  unfold cleanup. apply sound_bind; [apply sound_finish_serving|]. intros _.
  apply sound_bind; [apply sound_is_someone_waiting|]. intros waiting.
  repeat sound_step.
Qed.

Lemma sound_surfaces {A} (c : M Q Wire A) (w : W) :
  sound c ->
  exists d,
    trace (c w).2 = trace w ++ d /\
    (existsb backend_failed d = true <-> (c w).1 = Raise ConnectionError).
Proof.
  intros Hc. destruct (Hc w) as (d & Et & Hr). exists d. split; [exact Et|].
  destruct (c w).1 as [a|[m|m|]]; rewrite ?Hr; try easy.
Qed.

Lemma sound_never_ValueError {A} (c : M Q Wire A) :
  sound c -> never_ValueError c.
Proof.
  intros Hc w message E. destruct (Hc w) as (d & _ & Hr).
  now rewrite E in Hr.
Qed.

(** ** C10: finishing a ticket of a conversation without a record *)

Lemma get_lock_Ok_world conversation_id (w w1 : W) r :
  get_lock conversation_id w = (Ok r, w1) ->
  available w = true /\
  w1 = {| self := self w; server := server w; clock := clock w;
          trace := trace w ++ [ev_get_lock conversation_id true] |}.
Proof.
  intros E. pose proof (get_lock_world conversation_id w) as Ew.
  rewrite E in Ew; cbn in Ew.
  assert (available w = true) as Ea.
  { revert E. unfold get_lock, available, bind, observe, red_get; cbn.
    destruct (self w); cbn; [easy|].
    destruct (reachable (server w)); cbn; [easy | discriminate]. }
  split; [exact Ea|]. now rewrite Ew, Ea.
Qed.


(** ** C6: what deleting a record reports *)

(** C6, as the code has it. When the storage medium can be reached,
    [delete_lock] returns nothing ([None]) whether or not a record
    existed; the record is gone afterwards, and whether one existed is
    written to the debug log. *)
Theorem delete_lock_returns_nothing_and_logs_existence
  conversation_id (w : W) :
  available w = true ->
  exists w',
    delete_lock conversation_id w = (Ok tt, w')
    /\ has_record conversation_id w' = false
    /\ clock w' = clock w
    /\ trace w'
       = trace w ++
         [ev_delete_lock conversation_id true;
          ev_debug
            (if has_record conversation_id w
             then "Deleted lock for conversation '" +:+ conversation_id
                  +:+ "'."
             else "Could not delete lock for conversation '"
                  +:+ conversation_id +:+ "'.")].
Proof.
  unfold available, has_record, delete_lock, bind, observe, red_delete,
    _log_deletion.
  destruct w as [[l locks|l red] srv t tr]; cbn.
  - intros _. destruct (locks !! conversation_id) eqn:El; cbn;
      eexists; (split; [reflexivity|]); cbn;
      rewrite lookup_delete_eq, <- app_assoc; repeat split;
      try (rewrite bool_decide_eq_false; now intros [? [=]]).
  - intros ->. cbn. destruct (keys srv !! conversation_id) eqn:El; cbn;
      eexists; (split; [reflexivity|]); cbn;
      rewrite lookup_delete_eq, <- app_assoc; repeat split;
      try (rewrite bool_decide_eq_false; now intros [? [=]]).
Qed.

(** ** What the methods let an observer see *)

Lemma emits_ret P {A} (a : A) : emits P (ret a).
Proof. intros w. exists []. cbn. now rewrite app_nil_r. Qed.

Lemma emits_bind P {A B} (c : M Q Wire A) (k : A -> M Q Wire B) :
  emits P c -> (forall a, emits P (k a)) -> emits P (bind c k).
Proof.
  intros Hc Hk w. destruct (Hc w) as (d1 & E1 & C1). unfold bind.
  destruct (c w) as [[a|e] w1]; cbn in *.
  - destruct (Hk a w1) as (d2 & E2 & C2). exists (d1 ++ d2). split.
    + now rewrite E2, E1, app_assoc.
    + now rewrite forallb_app, C1, C2.
  - exists d1. now split.
Qed.

Lemma emits_call P {A} (method : Time -> Q -> A * Q) lock :
  emits P (call method lock).
Proof.
  intros w. exists []. unfold call.
  destruct (method (clock w) (TicketLock.queue lock)); cbn.
  destruct (self w); cbn; now rewrite app_nil_r.
Qed.

Lemma emits_get_lock P conversation_id :
  (forall reached, P (ev_get_lock conversation_id reached) = true) ->
  emits P (get_lock conversation_id).
Proof.
  intros HP w. exists [ev_get_lock conversation_id (available w)].
  split; [apply get_lock_frame|]. cbn. now rewrite HP.
Qed.

Lemma emits_save_lock P lock :
  (forall reached,
     P (ev_save_lock (TicketLock.conversation_id lock) reached) = true) ->
  emits P (save_lock lock).
Proof.
  intros HP w.
  exists [ev_save_lock (TicketLock.conversation_id lock) (available w)].
  cbn. rewrite HP. split; [|reflexivity].
  unfold save_lock, available, bind, observe, red_set.
  destruct (self w); cbn; [easy|].
  now destruct (reachable (server w)).
Qed.

Lemma emits_delete_lock P conversation_id :
  (forall reached, P (ev_delete_lock conversation_id reached) = true) ->
  (forall message, P (ev_debug message) = true) ->
  emits P (delete_lock conversation_id).
Proof.
  intros HP HP' w.
  unfold delete_lock, bind, observe, red_delete, _log_deletion.
  destruct (self w); cbn.
  - destruct (_ !! conversation_id); cbn; eexists [_; _]; cbn;
      rewrite <- app_assoc, HP, HP'; easy.
  - destruct (reachable (server w)); cbn.
    + destruct (negb _); cbn; eexists [_; _]; cbn;
        rewrite <- app_assoc, HP, HP'; easy.
    + exists [ev_delete_lock conversation_id false]. cbn. now rewrite HP.
Qed.

Lemma finish_serving_deletes_nothing conversation_id ticket_number :
  emits (fun e => negb (is_delete e))
        (finish_serving conversation_id ticket_number).
Proof.
  unfold finish_serving. apply emits_bind; [now apply emits_get_lock|].
  intros [lock|]; [|apply emits_ret].
  apply emits_bind; [apply emits_call|]. intros [_ lock'].
  now apply emits_save_lock.
Qed.

Lemma is_someone_waiting_saves_nothing conversation_id :
  emits (fun e => negb (is_save e)) (is_someone_waiting conversation_id).
Proof.
  unfold is_someone_waiting. apply emits_bind; [now apply emits_get_lock|].
  intros [lock|]; [|apply emits_ret].
  apply emits_bind; [apply emits_call|]. intros [waiting _]. apply emits_ret.
Qed.

Lemma forallb_negb_existsb {A} (P : A -> bool) (l : list A) :
  forallb (fun x => negb (P x)) l = true -> existsb P l = false.
Proof.
  induction l as [|x l IH]; cbn; [easy|].
  intros [Hx Hl]%andb_prop. apply negb_true_iff in Hx. rewrite Hx. auto.
Qed.

Lemma delete_lock_then_get_lock conversation_id (w w' : W) :
  delete_lock conversation_id w = (Ok tt, w') ->
  (get_lock conversation_id w').1 = Ok None.
Proof.
  unfold delete_lock, get_lock, bind, observe, red_delete, red_get,
    _log_deletion, ret.
  destruct w as [[l locks|l red] srv t tr]; cbn.
  - destruct (locks !! conversation_id); cbn; intros [= <-]; cbn;
      now rewrite lookup_delete_eq.
  - destruct (reachable srv); cbn; [|discriminate].
    destruct (negb _); cbn; intros [= <-]; cbn;
      now rewrite lookup_delete_eq.
Qed.

(** Asking twice in a row whether someone waits gives the same answer,
    when the method of the lock object does. *)
Lemma is_someone_waiting_stable conversation_id (w w1 : W) waiting :
  (forall now q,
     (TicketLock.is_someone_waiting now
        (TicketLock.is_someone_waiting now q).2).1
     = (TicketLock.is_someone_waiting now q).1) ->
  is_someone_waiting conversation_id w = (Ok waiting, w1) ->
  (is_someone_waiting conversation_id w1).1 = Ok waiting.
Proof.
  intros Hlaw.
  unfold is_someone_waiting, get_lock, call, bind, observe, red_get, ret.
  destruct w as [[l locks|l red] srv t tr]; cbn.
  - destruct (locks !! conversation_id) as [q|] eqn:El; cbn.
    + specialize (Hlaw t q).
      destruct (TicketLock.is_someone_waiting t q) as [b q2]; cbn in *.
      intros [= <- <-]; cbn. rewrite lookup_alter_eq, El; cbn.
      destruct (TicketLock.is_someone_waiting t q2); cbn in *. congruence.
    + intros [= <- <-]; cbn. now rewrite El.
  - destruct (reachable srv) eqn:Er; cbn; [|discriminate].
    destruct (keys srv !! conversation_id) as [s|] eqn:Ek; cbn.
    + destruct (TicketLock.truthy s) eqn:Et; cbn.
      * destruct (TicketLock.loads s) as [c q] eqn:El; cbn.
        destruct (TicketLock.is_someone_waiting t q) as [b q2] eqn:Eq; cbn.
        intros [= <- <-]; cbn. rewrite Er; cbn. rewrite Ek; cbn.
        rewrite Et, El; cbn. now rewrite Eq.
      * intros [= <- <-]; cbn. rewrite Er; cbn. rewrite Ek; cbn.
        now rewrite Et.
    + intros [= <- <-]; cbn. rewrite Er; cbn. now rewrite Ek.
Qed.

(** ** What the steps of an iteration leave *)

Lemma call_frame {A} (method : Time -> Q -> A * Q) lock (w : W) :
  exists a q,
    method (clock w) (TicketLock.queue lock) = (a, q) /\
    (call method lock w).1
    = Ok (a, TicketLock.Build (TicketLock.conversation_id lock) q) /\
    trace (call method lock w).2 = trace w /\
    clock (call method lock w).2 = clock w /\
    server (call method lock w).2 = server w.
Proof.
  unfold call. destruct (method _ _) as [a q]. exists a, q.
  destruct (self w); cbn; tauto.
Qed.

Lemma save_lock_Ok lock (w w' : W) :
  save_lock lock w = (Ok tt, w') ->
  trace w' = trace w ++ [ev_save_lock (TicketLock.conversation_id lock) true]
  /\ clock w' = clock w.
Proof.
  unfold save_lock, bind, observe, red_set.
  destruct (self w); cbn.
  - now intros [= <-].
  - destruct (reachable (server w)); cbn; [|discriminate]. now intros [= <-].
Qed.

Lemma update_lock_found conversation_id lock (w w1 w' : W) :
  get_lock conversation_id w = (Ok (Some lock), w1) ->
  update_lock conversation_id w = (Ok tt, w') ->
  trace w'
  = trace w ++ [ev_get_lock conversation_id true;
                ev_save_lock (TicketLock.conversation_id lock) true]
  /\ clock w' = clock w.
Proof.
  intros Eg. unfold update_lock. rewrite (bind_Ok _ _ _ _ _ Eg).
  apply get_lock_Ok_world in Eg as [_ ->].
  set (m := fun (now : Time) q => (tt, TicketLock.remove_expired_tickets now q)).
  set (w1 := {| self := self w |}).
  destruct (call_frame m lock w1) as (a & q & _ & Er & Et & Ec & _).
  unfold bind. destruct (call m lock w1) as [r w2]; cbn in *. subst r.
  intros [Es Ec']%save_lock_Ok. cbn in Es.
  rewrite Es, Ec', Et, Ec, <- app_assoc. now cbn.
Qed.

(** After a fetch and a method call on the object fetched, a second fetch
    finds the record again: the object as the method left it in the
    in-memory store, the object as it was fetched in the Redis store. *)
Lemma get_lock_after_call {A} conversation_id
  (method : Time -> Q -> A * Q) e lock0 lock a (w0 w1 w2 w' : W) :
  get_lock conversation_id w0 = (Ok (Some lock0), w1) ->
  call method lock0 w1 = (Ok (a, lock), w2) ->
  observe e w2 = (Ok tt, w') ->
  method (clock w') (TicketLock.queue lock0) = (a, TicketLock.queue lock)
  /\ exists stored,
       (get_lock conversation_id w').1 = Ok (Some stored)
       /\ (TicketLock.queue stored = TicketLock.queue lock0
           \/ TicketLock.queue stored = TicketLock.queue lock).
Proof.
  intros Eg Ec Eo. injection Eo as <-.
  revert Eg Ec. unfold get_lock, call, bind, observe, red_get, ret.
  destruct w0 as [[l locks|l red] srv t tr]; cbn.
  - destruct (locks !! conversation_id) as [q0|] eqn:El; cbn; [|discriminate].
    intros [= <- <-]; cbn.
    destruct (method t q0) as [a' q'] eqn:Em. intros [= <- <- <-]; cbn.
    rewrite lookup_alter_eq, El; cbn. split; [exact Em|].
    eexists. split; [reflexivity|]. now right.
  - destruct (reachable srv) eqn:Er; cbn; [|discriminate].
    destruct (keys srv !! conversation_id) as [s|] eqn:Ek; cbn;
      [|discriminate].
    destruct (TicketLock.truthy s) eqn:Et; cbn; [|discriminate].
    destruct (TicketLock.loads s) as [c q0] eqn:El; cbn.
    intros [= <- <-]; cbn.
    destruct (method t q0) as [a' q'] eqn:Em. intros [= <- <- <-]; cbn.
    rewrite Er; cbn. rewrite Ek; cbn. rewrite Et, El; cbn.
    split; [exact Em|]. eexists. split; [reflexivity|]. now left.
Qed.

(** ** The waiting loop *)

(** From here on the properties are about callers that sleep; they hold
    whatever the rest of the system does meanwhile. *)
Variable others : World Q Wire -> gmap Text Q * RedisServer Wire.

Lemma _acquire_lock_unfold conversation_id ticket attempts wait :
  0 < attempts ->
  _acquire_lock others conversation_id ticket attempts wait
  = (let* lock := get_lock conversation_id in
     match lock with
     | None => raise (could_not_acquire conversation_id)
     | Some lock =>
         let* (locked, lock) :=
           call (fun now => TicketLock.is_locked now ticket) lock in
         let* _ := observe (ev_is_locked ticket locked) in
         if negb locked then ret lock
         else
           let* _ := asyncio_sleep others wait in
           let* _ := update_lock conversation_id in
           _acquire_lock others conversation_id ticket (attempts - 1) wait
     end).
Proof.
  intros Hpos. unfold _acquire_lock.
  replace (Z.to_nat attempts) with (S (Z.to_nat (attempts - 1))) by lia.
  reflexivity.
Qed.

(** ** C4: a record that has disappeared ends the acquisition *)

(** C4. In any iteration of the waiting loop (any world, any positive
    number of attempts left), if the fetch finds no record for the
    conversation id, [_acquire_lock] raises [LockError] at once: the world
    it leaves is the one the fetch left, so there was no sleep, no further
    attempt and no write, and the record is still absent. *)
Theorem acquire_fails_at_once_when_record_absent
  conversation_id ticket attempts wait (w w1 : W) :
  0 < attempts ->
  get_lock conversation_id w = (Ok None, w1) ->
  _acquire_lock others conversation_id ticket attempts wait w
  = (Raise (could_not_acquire conversation_id), w1)
  /\ self w1 = self w /\ server w1 = server w /\ clock w1 = clock w
  /\ trace w1 = trace w ++ [ev_get_lock conversation_id true]
  /\ (get_lock conversation_id w1).1 = Ok None.
Proof.
  intros Hpos E. rewrite _acquire_lock_unfold by exact Hpos.
  rewrite (bind_Ok _ _ _ _ _ E).
  destruct (get_lock_frame conversation_id w) as (E1 & E2 & E3 & E4).
  rewrite E in E1, E2, E3, E4; cbn in E1, E2, E3, E4.
  assert (available w = true) as Ea.
  { revert E. unfold get_lock, available, bind, observe, red_get; cbn.
    destruct (self w); cbn; [easy|].
    destruct (reachable (server w)); cbn; [easy | discriminate]. }
  rewrite Ea in E4. repeat split; try assumption.
  eapply get_lock_None_again, E.
Qed.

Lemma sound_asyncio_sleep wait : sound (asyncio_sleep others wait).
Proof.
  intros w. exists [ev_sleep wait]. unfold asyncio_sleep.
  now destruct (others _).
Qed.

Lemma sound_acquire_loop n conversation_id ticket wait :
  sound (acquire_loop others n conversation_id ticket wait).
Proof.
  induction n as [|n IH]; cbn [acquire_loop].
  - apply sound_raise_LockError.
  - apply sound_bind; [apply sound_get_lock|]. intros [lock|].
    + apply sound_bind; [apply sound_call|]. intros [locked lock'].
      apply sound_bind; [now apply sound_observe|]. intros _.
      destruct locked; cbn.
      * apply sound_bind; [apply sound_asyncio_sleep|]. intros _.
        apply sound_bind; [apply sound_update_lock|]. intros _. exact IH.
      * apply sound_ret.
    + apply sound_raise_LockError.
Qed.

Lemma sound__acquire_lock conversation_id ticket attempts wait :
  sound (_acquire_lock others conversation_id ticket attempts wait).
Proof. apply sound_acquire_loop. Qed.

(** ** C7: an unknown kind of store is refused when the store is chosen *)

(** C7. For a configuration whose [type] is given and is neither
    [in_memory] nor [redis], [find_lock_store] raises [ValueError] and
    builds no store; and no method of a store raises [ValueError], in any
    world. *)
Theorem unknown_store_type_is_refused_at_construction
  (store : EndpointConfig) (ty : Text) :
  type store = Some ty ->
  ty <> "in_memory" ->
  ty <> "redis" ->
  @find_lock_store Q (Some store)
  = (Raise (ValueError
       ("Cannot create `LockStore` of type '" +:+ ty
        +:+ "'. One of the following `LockStore` types need to be "
        +:+ "specified: in_memory, redis.")), [])
  /\ (forall conversation_id lifetime_arg ticket attempts wait lock,
        never_ValueError (get_lock conversation_id) /\
        never_ValueError (save_lock lock) /\
        never_ValueError (delete_lock conversation_id) /\
        never_ValueError (create_lock conversation_id) /\
        never_ValueError (get_or_create_lock conversation_id) /\
        never_ValueError (issue_ticket conversation_id lifetime_arg) /\
        never_ValueError
          (_acquire_lock others conversation_id ticket attempts wait) /\
        never_ValueError (update_lock conversation_id) /\
        never_ValueError (is_someone_waiting conversation_id) /\
        never_ValueError (finish_serving conversation_id ticket) /\
        never_ValueError (cleanup conversation_id ticket)).
Proof.
  intros Ety Hmem Hredis. split.
  - unfold find_lock_store. rewrite Ety.
    apply String.eqb_neq in Hmem, Hredis. now rewrite Hmem, Hredis.
  - intros. repeat split; apply sound_never_ValueError;
      auto using sound_create_lock, sound_get_or_create_lock,
        sound_issue_ticket, sound__acquire_lock, sound_update_lock,
        sound_is_someone_waiting, sound_finish_serving, sound_cleanup
        with sound.
Qed.

Lemma asyncio_sleep_frame wait (w : W) :
  (asyncio_sleep others wait w).1 = Ok tt /\
  trace (asyncio_sleep others wait w).2 = trace w ++ [ev_sleep wait] /\
  clock (asyncio_sleep others wait w).2 = clock w + Z.max 0 wait.
Proof. unfold asyncio_sleep. now destruct (others _). Qed.

(** ** A lock that stays locked *)

Lemma held_throughout_S n conversation_id ticket wait (w : W) :
  held_throughout others (S n) conversation_id ticket wait w = true ->
  exists lock lock' lock_u w1 w2 w3 w4 w5,
    get_lock conversation_id w = (Ok (Some lock), w1) /\
    call (fun now => TicketLock.is_locked now ticket) lock w1
    = (Ok (true, lock'), w2) /\
    (let* _ := observe (ev_is_locked ticket true) in
     asyncio_sleep others wait) w2 = (Ok tt, w3) /\
    get_lock conversation_id w3 = (Ok (Some lock_u), w4) /\
    update_lock conversation_id w3 = (Ok tt, w5) /\
    held_throughout others n conversation_id ticket wait w5 = true.
Proof.
  cbn [held_throughout].
  destruct (get_lock conversation_id w) as [[[lock|]|e] w1] eqn:E1;
    try discriminate.
  destruct (call _ lock w1) as [[[[] lock']|e] w2] eqn:E2; try discriminate.
  destruct (bind _ _ w2) as [[[]|e] w3] eqn:E3; try discriminate.
  destruct (get_lock conversation_id w3) as [[[lock_u|]|e] w4] eqn:E4;
    try discriminate.
  destruct (update_lock conversation_id w3) as [[[]|e] w5] eqn:E5;
    try discriminate.
  intros Hh. exists lock, lock', lock_u, w1, w2, w3, w4, w5.
  repeat split; assumption.
Qed.

Lemma acquire_loop_held n conversation_id ticket wait (w : W) :
  held_throughout others n conversation_id ticket wait w = true ->
  exists w' ids,
    acquire_loop others n conversation_id ticket wait w
    = (Raise (could_not_acquire conversation_id), w')
    /\ length ids = n
    /\ trace w'
       = trace w ++
         concat (map (attempt_events conversation_id ticket wait) ids)
    /\ clock w' = clock w + Z.of_nat n * Z.max 0 wait.
Proof.
  revert w. induction n as [|n IH]; intros w Hh.
  - exists w, []. cbn. rewrite app_nil_r. repeat split. lia.
  - apply held_throughout_S in Hh.
    destruct Hh as (lock & lock' & lock_u & w1 & w2 & w3 & w4 & w5 &
                    Eg & Ec & Es & Eg' & Eu & Hh).
    destruct (IH _ Hh) as (w' & ids & Er & Hl & Et & Ek).
    exists w', (TicketLock.conversation_id lock_u :: ids).
    cbn [acquire_loop]. rewrite (bind_Ok _ _ _ _ _ Eg).
    rewrite (bind_Ok _ _ _ _ _ Ec). cbn [negb].
    unfold bind at 1. cbn [observe].
    unfold bind in Es. cbn [observe] in Es.
    match type of Es with asyncio_sleep _ _ ?w0 = _ =>
      destruct (asyncio_sleep_frame wait w0) as (_ & Ets & Eks);
      rewrite (bind_Ok _ _ _ _ _ Es); rewrite Es in Ets, Eks
    end.
    rewrite (bind_Ok _ _ _ _ _ Eu). split; [exact Er|].
    split; [cbn; now rewrite Hl|].
    destruct (update_lock_found _ _ _ _ _ Eg' Eu) as [Etu Eku].
    apply get_lock_Ok_world in Eg as [_ ->].
    destruct (call_frame (fun now => TicketLock.is_locked now ticket) lock
                {| self := self w; server := server w; clock := clock w;
                   trace := trace w ++ [ev_get_lock conversation_id true] |})
      as (a & q & _ & _ & Etc & Ekc & _).
    rewrite Ec in Etc, Ekc. cbn in Ets, Eks, Etc, Ekc.
    split.
    + rewrite Et, Etu, Ets, Etc. cbn. rewrite <- !app_assoc. reflexivity.
    + rewrite Ek, Eku, Eks, Ekc. lia.
Qed.

(** The turn is only ever given by a fetch that finds the record followed
    by a turn check that says not locked. *)
Lemma acquire_loop_granted n conversation_id ticket wait (w w' : W) lock :
  acquire_loop others n conversation_id ticket wait w = (Ok lock, w') ->
  exists w0 lock0 w1 w2,
    get_lock conversation_id w0 = (Ok (Some lock0), w1)
    /\ call (fun now => TicketLock.is_locked now ticket) lock0 w1
       = (Ok (false, lock), w2)
    /\ observe (ev_is_locked ticket false) w2 = (Ok tt, w').
Proof.
  revert w. induction n as [|n IH]; intros w; cbn [acquire_loop].
  - discriminate.
  - unfold bind at 1.
    destruct (get_lock conversation_id w) as [[[lock0|]|e] w1] eqn:Eg;
      try discriminate.
    unfold bind at 1.
    destruct (call _ lock0 w1) as [[[locked lock1]|e] w2] eqn:Ec;
      try discriminate.
    unfold bind at 1. cbn [observe]. destruct locked; cbn [negb].
    + unfold bind at 1.
      destruct (asyncio_sleep others wait _) as [[[]|e] w3];
        try discriminate.
      unfold bind at 1.
      destruct (update_lock conversation_id w3) as [[[]|e] w4];
        try discriminate.
      apply IH.
    + intros [= <- <-]. now exists w, lock0, w1, w2.
Qed.

End Properties.

(** * The store over the ticket queue of the specification *)

Section SpecQueue.

Variable first : Z.

Variable others :
  SpecWorld -> gmap Text TicketQueue.t * RedisServer (Text * TicketQueue.t).

Local Abbreviation spec := (TicketQueue.ops first).

Lemma remove_expired_tickets_twice now q :
  TicketQueue.remove_expired_tickets now
    (TicketQueue.remove_expired_tickets now q)
  = TicketQueue.remove_expired_tickets now q.
Proof.
  unfold TicketQueue.remove_expired_tickets; cbn. f_equal.
  induction (TicketQueue.tickets q) as [|ticket l IH]; cbn; [reflexivity|].
  destruct (negb (TicketQueue.has_expired now ticket)) eqn:E; cbn;
    [rewrite E; now f_equal | exact IH].
Qed.

Lemma is_someone_waiting_twice now q :
  (TicketQueue.is_someone_waiting now
     (TicketQueue.is_someone_waiting now q).2).1
  = (TicketQueue.is_someone_waiting now q).1.
Proof.
  unfold TicketQueue.is_someone_waiting; cbn [fst snd].
  now rewrite remove_expired_tickets_twice.
Qed.

Lemma is_in_turn_pruned now n q :
  (TicketQueue.is_in_turn now n (TicketQueue.remove_expired_tickets now q)).1
  = (TicketQueue.is_in_turn now n q).1.
Proof.
  unfold TicketQueue.is_in_turn; cbn [fst].
  now rewrite remove_expired_tickets_twice.
Qed.

Lemma outstanding_pruned now q n :
  outstanding now q n <->
  exists ticket,
    In ticket (TicketQueue.tickets (TicketQueue.remove_expired_tickets now q))
    /\ TicketQueue.number ticket = n.
Proof.
  unfold outstanding, TicketQueue.remove_expired_tickets; cbn.
  split.
  - intros (ticket & Hin & Hn & He). exists ticket. split; [|exact Hn].
    apply filter_In. split; [exact Hin|]. now rewrite He.
  - intros (ticket & [Hin He]%filter_In & Hn). exists ticket.
    repeat split; try assumption. now apply negb_true_iff.
Qed.

(** The ticket in turn is the least outstanding one. *)
Lemma in_turn_least now a b q :
  (TicketQueue.is_in_turn now a q).1 = true ->
  outstanding now q b -> a <= b.
Proof.
  intros Ha (ticket & Hin & Hn)%outstanding_pruned.
  unfold TicketQueue.is_in_turn in Ha; cbn [fst] in Ha.
  destruct (TicketQueue.tickets (TicketQueue.remove_expired_tickets now q))
    as [|t0 l] eqn:El; [now destruct Hin|].
  apply andb_prop in Ha as [_ Hall].
  rewrite forallb_forall in Hall. specialize (Hall ticket Hin). lia.
Qed.

(** Of the outstanding tickets, only one is in turn. *)
Lemma in_turn_unique now a b q :
  outstanding now q a -> outstanding now q b ->
  (TicketQueue.is_in_turn now a q).1 = true ->
  (TicketQueue.is_in_turn now b q).1 = true ->
  a = b.
Proof.
  intros Ha Hb Ta Tb.
  pose proof (in_turn_least _ _ _ _ Ta Hb).
  pose proof (in_turn_least _ _ _ _ Tb Ha). lia.
Qed.

Lemma is_locked_spec now a q :
  TicketQueue.is_locked now a q
  = (negb (TicketQueue.is_in_turn now a q).1,
     TicketQueue.remove_expired_tickets now q).
Proof. reflexivity. Qed.

(** The record that a grant was made from is, up to pruning, the one a
    fetch finds right after the grant. *)
Lemma granted_from_stored conversation_id a (w0 w1 w2 w' : SpecWorld)
  lock0 lock :
  get_lock (H := spec) conversation_id w0 = (Ok (Some lock0), w1) ->
  call (fun now => TicketLock.is_locked (Ops := spec) now a) lock0 w1
  = (Ok (false, lock), w2) ->
  observe (ev_is_locked a false) w2 = (Ok tt, w') ->
  exists stored,
    (get_lock (H := spec) conversation_id w').1 = Ok (Some stored)
    /\ TicketLock.queue lock
       = TicketQueue.remove_expired_tickets (clock w')
           (TicketLock.queue stored)
    /\ (TicketQueue.is_in_turn (clock w') a (TicketLock.queue stored)).1
       = true.
Proof.
  intros Eg Ec Eo.
  destruct (get_lock_after_call _ _ _ _ _ _ _ _ _ _ Eg Ec Eo)
    as (Em & stored & Es & Hq).
  change (TicketQueue.is_locked (clock w') a (TicketLock.queue lock0)
          = (false, TicketLock.queue lock)) in Em.
  rewrite is_locked_spec in Em. injection Em as Hturn Hpruned.
  apply negb_false_iff in Hturn.
  exists stored. split; [exact Es|].
  destruct Hq as [-> | ->]; [now split|].
  rewrite <- Hpruned, remove_expired_tickets_twice, is_in_turn_pruned.
  now split.
Qed.

End SpecQueue.

(** * The storage methods, the waiting loop and the context manager *)

Section Storage.

Context {Q Wire : Type} `{!TicketLock.Ops Q Wire}.

Abbreviation W := (World Q Wire).

Local Abbreviation round_trips :=
  (serialisation_round_trips (Q := Q) (Wire := Wire)).

(** ** Saving and fetching *)

Lemma save_lock_stores lock (w w' : W) :
  round_trips ->
  save_lock lock w = (Ok tt, w') ->
  (get_lock (TicketLock.conversation_id lock) w').1 = Ok (Some lock)
  /\ (forall k, k <> TicketLock.conversation_id lock ->
                record k w' = record k w)
  /\ trace w'
     = trace w ++ [ev_save_lock (TicketLock.conversation_id lock) true]
  /\ clock w' = clock w
  /\ available w' = true
  /\ lifetime (self w') = lifetime (self w).
Proof.
  intros Hrt. destruct lock as [cid q].
  destruct (Hrt cid q) as [Ht El].
  unfold save_lock, get_lock, bind, observe, red_set, red_get, ret, record,
    available.
  destruct w as [[l locks|l red] srv t tr]; cbn.
  - intros [= <-]; cbn. rewrite lookup_insert_eq; cbn.
    repeat split. intros k Hk. now rewrite lookup_insert_ne.
  - destruct (reachable srv) eqn:Er; cbn; [|discriminate].
    intros [= <-]; cbn. rewrite lookup_insert_eq; cbn. rewrite Ht, El.
    repeat split. intros k Hk. now rewrite lookup_insert_ne.
Qed.

Lemma save_lock_when_available lock (w : W) :
  available w = true -> exists w', save_lock lock w = (Ok tt, w').
Proof.
  unfold save_lock, available, bind, observe, red_set.
  destruct (self w); cbn; [eauto|]. intros ->. eauto.
Qed.

Lemma get_lock_Some_has_record conversation_id lock (w w1 : W) :
  get_lock conversation_id w = (Ok (Some lock), w1) ->
  has_record conversation_id w = true.
Proof.
  unfold get_lock, has_record, bind, observe, red_get, ret.
  destruct (self w); cbn.
  - destruct (_ !! conversation_id); [|discriminate]. intros _.
    now apply bool_decide_eq_true.
  - destruct (reachable (server w)); cbn; [|discriminate].
    destruct (_ !! conversation_id); [|discriminate]. intros _.
    now apply bool_decide_eq_true.
Qed.

(** A method call on a lock object followed by [save_lock]: the store then
    holds the object as the method left it. *)
Lemma call_then_save {A} (method : Time -> Q -> A * Q) lock (w : W) :
  round_trips ->
  available w = true ->
  exists w1 w',
    call method lock w
    = (Ok ((method (clock w) (TicketLock.queue lock)).1,
           TicketLock.Build (TicketLock.conversation_id lock)
             (method (clock w) (TicketLock.queue lock)).2), w1)
    /\ save_lock (TicketLock.Build (TicketLock.conversation_id lock)
                    (method (clock w) (TicketLock.queue lock)).2) w1
       = (Ok tt, w')
    /\ (get_lock (TicketLock.conversation_id lock) w').1
       = Ok (Some (TicketLock.Build (TicketLock.conversation_id lock)
                     (method (clock w) (TicketLock.queue lock)).2))
    /\ (forall k, k <> TicketLock.conversation_id lock ->
                  record k w' = record k w)
    /\ trace w'
       = trace w ++ [ev_save_lock (TicketLock.conversation_id lock) true]
    /\ clock w' = clock w
    /\ available w' = true
    /\ lifetime (self w') = lifetime (self w).
Proof.
  intros Hrt Ha. destruct lock as [cid q]. cbn [TicketLock.queue
    TicketLock.conversation_id].
  set (lock' := TicketLock.Build cid (method (clock w) q).2).
  assert (exists w1,
            call method (TicketLock.Build cid q) w
            = (Ok ((method (clock w) q).1, lock'), w1)
            /\ available w1 = true /\ trace w1 = trace w
            /\ clock w1 = clock w /\ lifetime (self w1) = lifetime (self w)
            /\ forall k, k <> cid -> record k w1 = record k w)
    as (w1 & Ec & Ha1 & Et1 & Ek1 & El1 & Hr1).
  { unfold call, lock', record, available in *; cbn.
    destruct (method (clock w) q) as [a q']; cbn.
    destruct w as [[l locks|l red] srv t tr]; cbn in *.
    - eexists. split; [reflexivity|]. cbn. repeat split.
      intros k Hk. now rewrite lookup_alter_ne.
    - eexists. split; [reflexivity|]. cbn. repeat split. exact Ha. }
  destruct (save_lock_when_available lock' w1 Ha1) as [w' Es].
  destruct (save_lock_stores _ _ _ Hrt Es) as (Eg & Hr & Et & Ek & Ha' & El).
  exists w1, w'. split; [exact Ec|]. split; [exact Es|].
  split; [exact Eg|]. split.
  { intros k Hk. rewrite Hr by exact Hk. now apply Hr1. }
  rewrite Et, Ek, El. now rewrite Et1, Ek1, El1.
Qed.

(** What [issue_ticket] does, given what the fetch finds. *)
Lemma issue_ticket_run conversation_id lifetime_arg r (w w1 : W) :
  round_trips ->
  get_lock conversation_id w = (Ok r, w1) ->
  let lock0 :=
    default (TicketLock.Build conversation_id TicketLock.fresh) r in
  let issued :=
    TicketLock.issue_ticket (clock w)
      (default (lifetime (self w)) lifetime_arg) (TicketLock.queue lock0) in
  exists w',
    issue_ticket conversation_id lifetime_arg w = (Ok issued.1, w')
    /\ (get_lock (TicketLock.conversation_id lock0) w').1
       = Ok (Some (TicketLock.Build (TicketLock.conversation_id lock0)
                     issued.2))
    /\ trace w'
       = trace w ++ [ev_get_lock conversation_id true]
         ++ match r with
            | Some _ => []
            | None => [ev_save_lock conversation_id true]
            end
         ++ [ev_save_lock (TicketLock.conversation_id lock0) true]
    /\ clock w' = clock w
    /\ (forall k, k <> conversation_id ->
                  k <> TicketLock.conversation_id lock0 ->
                  record k w' = record k w).
Proof.
  intros Hrt Eg lock0 issued.
  destruct (get_lock_Ok_world _ _ _ _ Eg) as [Ha Ew1].
  assert (exists w2,
            get_or_create_lock conversation_id w = (Ok lock0, w2)
            /\ available w2 = true /\ clock w2 = clock w
            /\ lifetime (self w2) = lifetime (self w)
            /\ trace w2
               = trace w ++ [ev_get_lock conversation_id true]
                 ++ match r with
                    | Some _ => []
                    | None => [ev_save_lock conversation_id true]
                    end
            /\ forall k, k <> conversation_id -> record k w2 = record k w)
    as (w2 & Ec & Ha2 & Ek2 & El2 & Et2 & Hr2).
  { unfold get_or_create_lock. rewrite (bind_Ok _ _ _ _ _ Eg).
    destruct r as [existing|]; cbn in lock0.
    - exists w1. split; [reflexivity|]. subst w1. cbn.
      repeat split. exact Ha.
    - assert (available w1 = true) as Ha1 by (now subst w1).
      destruct (save_lock_when_available lock0 w1 Ha1) as [w2 Es].
      destruct (save_lock_stores _ _ _ Hrt Es)
        as (_ & Hr & Et & Ek & Ha' & El).
      exists w2. unfold create_lock. fold lock0.
      rewrite (bind_Ok _ _ _ _ _ Es). split; [reflexivity|].
      rewrite Et, Ek, El. subst w1; cbn. rewrite <- app_assoc.
      repeat split; assumption. }
  unfold issue_ticket. rewrite (bind_Ok _ _ _ _ _ Ec).
  unfold bind at 1. rewrite El2.
  set (l := default (lifetime (self w)) lifetime_arg) in *.
  destruct (call_then_save (fun now => TicketLock.issue_ticket now l)
              lock0 w2 Hrt Ha2)
    as (w3 & w' & Ecall & Es & Eg' & Hr & Et & Ek & _ & _).
  rewrite Ek2 in *. fold issued in Ecall, Es, Eg'.
  exists w'. rewrite (bind_Ok _ _ _ _ _ Ecall).
  rewrite (bind_Ok _ _ _ _ _ Es). split; [reflexivity|].
  split; [exact Eg'|]. split; [now rewrite Et, Et2, <- !app_assoc|].
  split; [exact Ek|].
  intros k Hk Hk0. rewrite Hr by exact Hk0. now apply Hr2.
Qed.

Lemma delete_lock_Ok conversation_id (w w' : W) :
  delete_lock conversation_id w = (Ok tt, w') ->
  clock w' = clock w
  /\ lifetime (self w') = lifetime (self w)
  /\ available w' = true
  /\ record conversation_id w' = None
  /\ (forall k, k <> conversation_id -> record k w' = record k w).
Proof.
  unfold delete_lock, bind, observe, red_delete, _log_deletion, record,
    available.
  destruct w as [[l locks|l red] srv t tr]; cbn.
  - destruct (locks !! conversation_id); cbn; intros [= <-]; cbn;
      rewrite lookup_delete_eq; repeat split;
      intros k Hk; now rewrite lookup_delete_ne.
  - destruct (reachable srv); cbn; [|discriminate].
    destruct (negb _); cbn; intros [= <-]; cbn;
      rewrite lookup_delete_eq; repeat split;
      intros k Hk; now rewrite lookup_delete_ne.
Qed.

(** X1. Round trip of the storage methods.  When [dumps] and [loads]
    round-trip, a lock that [save_lock] has saved is what [get_lock]
    returns for its conversation id, in both stores; and saving it changes
    what the store holds under no other key. *)
Theorem save_lock_then_get_lock_returns_the_lock lock (w w' : W) :
  round_trips ->
  save_lock lock w = (Ok tt, w') ->
  (get_lock (TicketLock.conversation_id lock) w').1 = Ok (Some lock)
  /\ (forall k, k <> TicketLock.conversation_id lock ->
                record k w' = record k w).
Proof.
  intros Hrt Es.
  destruct (save_lock_stores _ _ _ Hrt Es) as (Eg & Hr & _). now split.
Qed.

(** X2. [get_or_create_lock] creates only when the fetch finds nothing.
    A lock that the fetch finds is returned as it is, and nothing is
    written (the world is the one the fetch left).  When the fetch finds
    nothing, a new lock with a fresh queue is saved under the conversation
    id (one fetch, one save) and returned, and a fetch finds it from then
    on.  Either way the store holds a record for the conversation id
    afterwards. *)
Theorem get_or_create_lock_creates_only_when_missing
  conversation_id r (w w1 : W) :
  round_trips ->
  get_lock conversation_id w = (Ok r, w1) ->
  match r with
  | Some existing_lock =>
      get_or_create_lock conversation_id w = (Ok existing_lock, w1)
  | None =>
      exists w',
        get_or_create_lock conversation_id w
        = (Ok (TicketLock.Build conversation_id TicketLock.fresh), w')
        /\ (get_lock conversation_id w').1
           = Ok (Some (TicketLock.Build conversation_id TicketLock.fresh))
        /\ trace w'
           = trace w ++ [ev_get_lock conversation_id true;
                         ev_save_lock conversation_id true]
  end
  /\ has_record conversation_id (get_or_create_lock conversation_id w).2
     = true.
Proof.
  intros Hrt Eg. unfold get_or_create_lock. rewrite (bind_Ok _ _ _ _ _ Eg).
  destruct r as [existing_lock|].
  - split; [reflexivity|]. cbn.
    pose proof (get_lock_Some_has_record _ _ _ _ Eg) as Hh.
    apply get_lock_Ok_world in Eg as [_ ->]. exact Hh.
  - destruct (get_lock_Ok_world _ _ _ _ Eg) as [Ha Ew1].
    assert (available w1 = true) as Ha1 by (now subst w1).
    set (lock := TicketLock.Build conversation_id TicketLock.fresh).
    destruct (save_lock_when_available lock w1 Ha1) as [w' Es].
    destruct (save_lock_stores _ _ _ Hrt Es) as (Eg' & _ & Et & _).
    unfold lock in Eg', Et. cbn [TicketLock.conversation_id] in Eg', Et.
    fold lock in Eg'.
    unfold create_lock. fold lock. rewrite (bind_Ok _ _ _ _ _ Es).
    cbn [ret snd]. split.
    + exists w'. split; [reflexivity|]. split; [exact Eg'|].
      rewrite Et. subst w1; cbn. now rewrite <- app_assoc.
    + destruct (get_lock conversation_id w') as [r' w2] eqn:Eg2.
      cbn in Eg'. subst r'.
      exact (get_lock_Some_has_record _ _ _ _ Eg2).
Qed.

(** X3. What [issue_ticket] of the store does on a backend that can be
    reached.  The ticket is the one that [issue_ticket] of the lock object
    hands out, at the current time, on the queue of the lock that the fetch
    finds, or on a fresh queue when it finds none; the lifetime is the
    argument, and [self.lifetime] when the argument is [None].  The lock
    with the ticket added is saved, so that a fetch returns it afterwards.
    For a conversation without a record the store is written twice: once by
    [create_lock], once after the ticket was issued. *)
Theorem issue_ticket_issues_on_the_stored_queue
  conversation_id lifetime_arg r (w w1 : W) :
  round_trips ->
  get_lock conversation_id w = (Ok r, w1) ->
  let lock0 :=
    default (TicketLock.Build conversation_id TicketLock.fresh) r in
  let issued :=
    TicketLock.issue_ticket (clock w)
      (default (lifetime (self w)) lifetime_arg) (TicketLock.queue lock0) in
  exists w',
    issue_ticket conversation_id lifetime_arg w = (Ok issued.1, w')
    /\ (get_lock (TicketLock.conversation_id lock0) w').1
       = Ok (Some (TicketLock.Build (TicketLock.conversation_id lock0)
                     issued.2))
    /\ trace w'
       = trace w ++ [ev_get_lock conversation_id true]
         ++ match r with
            | Some _ => []
            | None => [ev_save_lock conversation_id true]
            end
         ++ [ev_save_lock (TicketLock.conversation_id lock0) true]
    /\ clock w' = clock w.
Proof.
  intros Hrt Eg lock0 issued.
  destruct (issue_ticket_run conversation_id lifetime_arg r w w1 Hrt Eg)
    as (w' & Ei & Eg' & Et & Ek & _).
  exists w'. repeat split; assumption.
Qed.

(** X4. Deleting the record of a conversation forgets its queue: the next
    ticket that [issue_ticket] hands out for the conversation id is the one
    a new lock hands out (the first ticket of a fresh queue), whatever had
    been issued before the deletion. *)
Theorem issue_ticket_after_delete_lock_starts_afresh
  conversation_id lifetime_arg (w w' : W) :
  round_trips ->
  delete_lock conversation_id w = (Ok tt, w') ->
  (issue_ticket conversation_id lifetime_arg w').1
  = Ok (TicketLock.issue_ticket (clock w)
          (default (lifetime (self w)) lifetime_arg) TicketLock.fresh).1.
Proof.
  intros Hrt Ed.
  pose proof (delete_lock_then_get_lock _ _ _ Ed) as Eg.
  destruct (delete_lock_Ok _ _ _ Ed) as (Ek & El & _).
  destruct (get_lock conversation_id w') as [r w1] eqn:Eg1. cbn in Eg.
  subst r.
  destruct (issue_ticket_run conversation_id lifetime_arg None w' w1 Hrt Eg1)
    as (w2 & Ei & _).
  rewrite Ei. cbn. now rewrite Ek, El.
Qed.

(** X5. [finish_serving] and [update_lock] persist what they change.  When
    the fetch finds a lock, [finish_serving] returns normally, and the lock
    that a fetch returns afterwards is the one found with
    [remove_ticket_for] applied to its queue; likewise [update_lock] and
    [remove_expired_tickets].  Each of them is one fetch and one save. *)
Theorem finish_serving_and_update_lock_persist_the_change
  conversation_id ticket_number lock (w w1 : W) :
  round_trips ->
  get_lock conversation_id w = (Ok (Some lock), w1) ->
  (exists w',
     finish_serving conversation_id ticket_number w = (Ok tt, w')
     /\ (get_lock (TicketLock.conversation_id lock) w').1
        = Ok (Some (TicketLock.Build (TicketLock.conversation_id lock)
                      (TicketLock.remove_ticket_for (clock w) ticket_number
                         (TicketLock.queue lock))))
     /\ trace w'
        = trace w ++ [ev_get_lock conversation_id true;
                      ev_save_lock (TicketLock.conversation_id lock) true])
  /\ (exists w',
        update_lock conversation_id w = (Ok tt, w')
        /\ (get_lock (TicketLock.conversation_id lock) w').1
           = Ok (Some (TicketLock.Build (TicketLock.conversation_id lock)
                         (TicketLock.remove_expired_tickets (clock w)
                            (TicketLock.queue lock))))
        /\ trace w'
           = trace w ++ [ev_get_lock conversation_id true;
                         ev_save_lock (TicketLock.conversation_id lock)
                           true]).
Proof.
  intros Hrt Eg.
  destruct (get_lock_Ok_world _ _ _ _ Eg) as [Ha Ew1].
  assert (available w1 = true) as Ha1 by (now subst w1).
  assert (clock w1 = clock w) as Ek1 by (now subst w1).
  assert (trace w1 = trace w ++ [ev_get_lock conversation_id true]) as Et1
    by (now subst w1).
  split.
  - destruct (call_then_save
                (fun now q =>
                   (tt, TicketLock.remove_ticket_for now ticket_number q))
                lock w1 Hrt Ha1)
      as (w2 & w' & Ec & Es & Eg' & _ & Et & _).
    cbn [fst snd] in Ec, Es, Eg'. rewrite Ek1 in Ec, Es, Eg'.
    exists w'. unfold finish_serving.
    rewrite (bind_Ok _ _ _ _ _ Eg), (bind_Ok _ _ _ _ _ Ec).
    split; [exact Es|]. split; [exact Eg'|].
    now rewrite Et, Et1, <- app_assoc.
  - destruct (call_then_save
                (fun now q => (tt, TicketLock.remove_expired_tickets now q))
                lock w1 Hrt Ha1)
      as (w2 & w' & Ec & Es & Eg' & _ & Et & _).
    cbn [fst snd] in Ec, Es, Eg'. rewrite Ek1 in Ec, Es, Eg'.
    exists w'. unfold update_lock.
    rewrite (bind_Ok _ _ _ _ _ Eg), (bind_Ok _ _ _ _ _ Ec).
    split; [exact Es|]. split; [exact Eg'|].
    now rewrite Et, Et1, <- app_assoc.
Qed.

(** ** One conversation at a time *)

Local Abbreviation touches_only :=
  (touches_only (Q := Q) (Wire := Wire)).

Lemma touches_only_ret key {A} (P : A -> Prop) a :
  P a -> touches_only key P (ret a).
Proof.
  intros HP w Hf. cbn. repeat split; try assumption. now intros ? [= <-].
Qed.

Lemma touches_only_bind key {A B} (P : A -> Prop) (R : B -> Prop)
  (c : M Q Wire A) (k : A -> M Q Wire B) :
  touches_only key P c ->
  (forall a, P a -> touches_only key R (k a)) ->
  touches_only key R (bind c k).
Proof.
  intros Hc Hk w Hf. destruct (Hc w Hf) as ([Hf1 Hr1] & HP). unfold bind.
  destruct (c w) as [[a|e] w1]; cbn in *.
  - destruct (Hk a (HP a eq_refl) w1 Hf1) as ([Hf2 Hr2] & HR).
    split; [split|]; try assumption.
    intros k' Hk'. now rewrite Hr2, Hr1.
  - split; [now split | discriminate].
Qed.

Lemma touches_only_get_lock key :
  touches_only key
    (fun r => forall lock, r = Some lock ->
                           TicketLock.conversation_id lock = key)
    (get_lock key).
Proof.
  intros w Hf. rewrite get_lock_world. split; [split; [exact Hf | easy]|].
  revert Hf. unfold filed, get_lock, bind, observe, red_get, ret.
  destruct (self w); cbn.
  - intros _ a [= <-] lock.
    destruct (_ !! key); cbn; [|discriminate]. now intros [= <-].
  - destruct (reachable (server w)); cbn; [|discriminate].
    destruct (keys (server w) !! key) as [s|]; cbn;
      [|intros _ a [= <-]; discriminate].
    destruct (TicketLock.truthy s); cbn;
      [|intros _ a [= <-]; discriminate].
    destruct (TicketLock.loads s) as [c q]; cbn.
    intros Hc%String.eqb_eq a [= <-] lock [= <-]. exact Hc.
Qed.

Lemma touches_only_call key {A} (method : Time -> Q -> A * Q) lock :
  TicketLock.conversation_id lock = key ->
  touches_only key (fun r => TicketLock.conversation_id r.2 = key)
    (call method lock).
Proof.
  intros <- w Hf. unfold call, untouched_but, filed, record in *.
  destruct (method (clock w) (TicketLock.queue lock)) as [a q]; cbn.
  destruct (self w) eqn:Es; cbn.
  - repeat split; [|now intros ? [= <-]].
    intros k Hk. now rewrite lookup_alter_ne.
  - rewrite Es. repeat split; [exact Hf | now intros ? [= <-]].
Qed.

Lemma touches_only_save_lock key lock :
  round_trips ->
  TicketLock.conversation_id lock = key ->
  touches_only key (fun _ => True) (save_lock lock).
Proof.
  intros Hrt <- w Hf. destruct lock as [cid q]; cbn in *.
  destruct (Hrt cid q) as [Ht El].
  unfold save_lock, untouched_but, filed, record, bind, observe, red_set
    in *.
  destruct (self w) eqn:Es; cbn.
  - repeat split. intros k Hk. now rewrite lookup_insert_ne.
  - destruct (reachable (server w)); cbn; rewrite ?Es.
    + rewrite lookup_insert_eq, Ht, El; cbn. rewrite String.eqb_refl.
      repeat split. intros k Hk. now rewrite lookup_insert_ne.
    + repeat split. exact Hf.
Qed.

Lemma touches_only_delete_lock key :
  touches_only key (fun _ => True) (delete_lock key).
Proof.
  intros w Hf.
  unfold delete_lock, untouched_but, filed, record, bind, observe,
    red_delete, _log_deletion in *.
  destruct (self w) eqn:Es; cbn.
  - destruct (_ !! key); cbn; repeat split;
      intros k Hk; now rewrite lookup_delete_ne.
  - destruct (reachable (server w)); cbn.
    + destruct (negb _); cbn; rewrite ?Es, lookup_delete_eq; repeat split;
        intros k Hk; now rewrite lookup_delete_ne.
    + rewrite ?Es. repeat split. exact Hf.
Qed.

Lemma touches_only_weaken key {A} (P R : A -> Prop) (c : M Q Wire A) :
  (forall a, P a -> R a) -> touches_only key P c -> touches_only key R c.
Proof.
  intros HPR Hc w Hf. destruct (Hc w Hf) as [Hu HP]. split; [exact Hu|].
  intros a Ea. apply HPR, HP, Ea.
Qed.

(** The methods that fetch a lock, call a method of it and save it. *)
Lemma touches_only_fetch_call_save key {A} (method : Time -> Q -> A * Q) :
  round_trips ->
  touches_only key (fun _ => True)
    (let* lock := get_lock key in
     match lock with
     | Some lock =>
         let* (_, lock) := call method lock in
         save_lock lock
     | None => ret tt
     end).
Proof.
  intros Hrt.
  eapply touches_only_bind; [apply touches_only_get_lock|].
  intros [lock|] Hl; [|now apply touches_only_ret].
  eapply touches_only_bind; [apply touches_only_call; now apply Hl|].
  intros [a lock'] Hl'. now apply touches_only_save_lock.
Qed.

Lemma touches_only_create_lock key :
  round_trips ->
  touches_only key (fun lock => TicketLock.conversation_id lock = key)
    (create_lock key).
Proof.
  intros Hrt. unfold create_lock.
  eapply touches_only_bind; [now apply touches_only_save_lock|].
  intros _ _. now apply touches_only_ret.
Qed.

Lemma touches_only_get_or_create_lock key :
  round_trips ->
  touches_only key (fun lock => TicketLock.conversation_id lock = key)
    (get_or_create_lock key).
Proof.
  intros Hrt. unfold get_or_create_lock.
  eapply touches_only_bind; [apply touches_only_get_lock|].
  intros [lock|] Hl; [apply touches_only_ret; now apply Hl|].
  now apply touches_only_create_lock.
Qed.

Lemma touches_only_issue_ticket key lifetime_arg :
  round_trips ->
  touches_only key (fun _ => True) (issue_ticket key lifetime_arg).
Proof.
  intros Hrt. unfold issue_ticket.
  eapply touches_only_bind; [now apply touches_only_get_or_create_lock|].
  intros lock Hl.
  eapply (touches_only_bind _ (fun _ => True)).
  { intros w Hf. cbn. repeat split. exact Hf. }
  intros l _.
  eapply touches_only_bind; [apply touches_only_call; exact Hl|].
  intros [ticket lock'] Hl'.
  eapply touches_only_bind; [now apply touches_only_save_lock|].
  intros _ _. now apply touches_only_ret.
Qed.

Lemma touches_only_is_someone_waiting key :
  touches_only key (fun _ => True) (is_someone_waiting key).
Proof.
  unfold is_someone_waiting.
  eapply touches_only_bind; [apply touches_only_get_lock|].
  intros [lock|] Hl; [|now apply touches_only_ret].
  eapply touches_only_bind; [apply touches_only_call; now apply Hl|].
  intros [waiting lock'] _. now apply touches_only_ret.
Qed.

Lemma touches_only_cleanup key ticket_number :
  round_trips ->
  touches_only key (fun _ => True) (cleanup key ticket_number).
Proof.
  intros Hrt. unfold cleanup.
  eapply touches_only_bind;
    [unfold finish_serving; now apply touches_only_fetch_call_save|].
  intros _ _.
  eapply touches_only_bind; [apply touches_only_is_someone_waiting|].
  intros [|] _; cbn; [now apply touches_only_ret|].
  apply touches_only_delete_lock.
Qed.

(** X6. The methods of a store work on one conversation at a time.  When
    [dumps] and [loads] round-trip and the record stored under the
    conversation id names that id, none of [create_lock],
    [get_or_create_lock], [issue_ticket], [update_lock],
    [is_someone_waiting], [finish_serving], [cleanup] and [delete_lock]
    changes what the store holds under any other key, whether it returns
    or raises; and the record under the conversation id still names it
    afterwards. *)
Theorem other_conversations_are_untouched
  conversation_id lifetime_arg ticket_number (w : W) :
  round_trips ->
  filed conversation_id w = true ->
  untouched_but conversation_id w (create_lock conversation_id w).2
  /\ untouched_but conversation_id w
       (get_or_create_lock conversation_id w).2
  /\ untouched_but conversation_id w
       (issue_ticket conversation_id lifetime_arg w).2
  /\ untouched_but conversation_id w (update_lock conversation_id w).2
  /\ untouched_but conversation_id w
       (is_someone_waiting conversation_id w).2
  /\ untouched_but conversation_id w
       (finish_serving conversation_id ticket_number w).2
  /\ untouched_but conversation_id w
       (cleanup conversation_id ticket_number w).2
  /\ untouched_but conversation_id w (delete_lock conversation_id w).2.
Proof.
  intros Hrt Hf.
  repeat split;
    first
      [ apply (touches_only_create_lock _ Hrt w Hf)
      | apply (touches_only_get_or_create_lock _ Hrt w Hf)
      | apply (touches_only_issue_ticket _ lifetime_arg Hrt w Hf)
      | apply (touches_only_fetch_call_save conversation_id
                 (fun now q => (tt, TicketLock.remove_expired_tickets now q))
                 Hrt w Hf)
      | apply (touches_only_is_someone_waiting _ w Hf)
      | apply (touches_only_fetch_call_save conversation_id
                 (fun now q =>
                    (tt, TicketLock.remove_ticket_for now ticket_number q))
                 Hrt w Hf)
      | apply (touches_only_cleanup _ ticket_number Hrt w Hf)
      | apply (touches_only_delete_lock _ w Hf) ].
Qed.

(** ** Which exceptions the methods raise, and when *)

Local Abbreviation returns_when_available :=
  (returns_when_available (Q := Q) (Wire := Wire)).
Local Abbreviation only_ConnectionError :=
  (only_ConnectionError (Q := Q) (Wire := Wire)).

(** A computation that behaves: it returns when the backend can be
    reached, and raises nothing but the exception of the backend. *)
Local Abbreviation behaves c :=
  (returns_when_available c /\ only_ConnectionError c).

Lemma behaves_ret {A} (a : A) : behaves (ret a).
Proof. split; [intros w Ha; cbn; eauto | intros w e; discriminate]. Qed.

Lemma behaves_bind {A B} (c : M Q Wire A) (k : A -> M Q Wire B) :
  behaves c -> (forall a, behaves (k a)) -> behaves (bind c k).
Proof.
  intros [Hc Hc'] Hk. split.
  - intros w Ha. destruct (Hc w Ha) as [Ha1 [a Ea]]. unfold bind.
    destruct (c w) as [r w1]; cbn in *. subst r. now apply Hk.
  - intros w e. specialize (Hc' w). unfold bind.
    destruct (c w) as [[a|e'] w1]; cbn in *.
    + apply Hk.
    + intros [= <-]. now apply Hc'.
Qed.

Lemma behaves_observe e : behaves (observe e).
Proof. split; [intros w Ha; cbn; eauto | intros w e'; discriminate]. Qed.

Lemma behaves_get_lock conversation_id : behaves (get_lock conversation_id).
Proof.
  split.
  - intros w Ha. rewrite get_lock_world. split; [exact Ha|].
    revert Ha. unfold available, get_lock, bind, observe, red_get, ret.
    destruct (self w); cbn; [eauto|]. intros ->; cbn.
    destruct (keys (server w) !! conversation_id) as [s|]; cbn; [|eauto].
    destruct (TicketLock.truthy s); cbn; [|eauto].
    destruct (TicketLock.loads s); cbn; eauto.
  - intros w e. unfold get_lock, bind, observe, red_get, ret.
    destruct (self w); cbn; [discriminate|].
    destruct (reachable (server w)); cbn; [|now intros [= <-]].
    destruct (keys (server w) !! conversation_id) as [s|]; cbn;
      [|discriminate].
    destruct (TicketLock.truthy s); cbn; [|discriminate].
    destruct (TicketLock.loads s); discriminate.
Qed.

Lemma behaves_call {A} (method : Time -> Q -> A * Q) lock :
  behaves (call method lock).
Proof.
  split.
  - intros w Ha. unfold call, available in *.
    destruct (method (clock w) (TicketLock.queue lock)); cbn.
    destruct (self w) eqn:Es; cbn; rewrite ?Es; eauto.
  - intros w e. unfold call.
    destruct (method (clock w) (TicketLock.queue lock)); discriminate.
Qed.

Lemma behaves_save_lock lock : behaves (save_lock lock).
Proof.
  split.
  - intros w Ha. revert Ha. unfold save_lock, available, bind, observe,
      red_set.
    destruct (self w); cbn; [eauto|]. intros ->; cbn. eauto.
  - intros w e. unfold save_lock, bind, observe, red_set.
    destruct (self w); cbn; [discriminate|].
    destruct (reachable (server w)); cbn; [discriminate | now intros [= <-]].
Qed.

Lemma behaves_delete_lock conversation_id :
  behaves (delete_lock conversation_id).
Proof.
  split.
  - intros w Ha. revert Ha.
    unfold delete_lock, available, bind, observe, red_delete, _log_deletion.
    destruct (self w); cbn.
    + destruct (_ !! conversation_id); cbn; eauto.
    + intros ->; cbn. destruct (negb _); cbn; eauto.
  - intros w e.
    unfold delete_lock, bind, observe, red_delete, _log_deletion.
    destruct (self w); cbn.
    + destruct (_ !! conversation_id); discriminate.
    + destruct (reachable (server w)); cbn; [|now intros [= <-]].
      destruct (negb _); discriminate.
Qed.

Lemma behaves_fetch_call_save conversation_id {A}
  (method : Time -> Q -> A * Q) :
  behaves
    (let* lock := get_lock conversation_id in
     match lock with
     | Some lock =>
         let* (_, lock) := call method lock in
         save_lock lock
     | None => ret tt
     end).
Proof.
  apply behaves_bind; [apply behaves_get_lock|].
  intros [lock|]; [|apply behaves_ret].
  apply behaves_bind; [apply behaves_call|].
  intros [a lock']. apply behaves_save_lock.
Qed.

Lemma behaves_create_lock conversation_id :
  behaves (create_lock conversation_id).
Proof.
  unfold create_lock. apply behaves_bind; [apply behaves_save_lock|].
  intros _. apply behaves_ret.
Qed.

Lemma behaves_get_or_create_lock conversation_id :
  behaves (get_or_create_lock conversation_id).
Proof.
  unfold get_or_create_lock. apply behaves_bind; [apply behaves_get_lock|].
  intros [lock|]; [apply behaves_ret | apply behaves_create_lock].
Qed.

Lemma behaves_issue_ticket conversation_id lifetime_arg :
  behaves (issue_ticket conversation_id lifetime_arg).
Proof.
  unfold issue_ticket.
  apply behaves_bind; [apply behaves_get_or_create_lock|]. intros lock.
  apply behaves_bind.
  { split; [intros w Ha; cbn; eauto | intros w e; discriminate]. }
  intros l. apply behaves_bind; [apply behaves_call|].
  intros [ticket lock']. apply behaves_bind; [apply behaves_save_lock|].
  intros _. apply behaves_ret.
Qed.

Lemma behaves_is_someone_waiting conversation_id :
  behaves (is_someone_waiting conversation_id).
Proof.
  unfold is_someone_waiting. apply behaves_bind; [apply behaves_get_lock|].
  intros [lock|]; [|apply behaves_ret].
  apply behaves_bind; [apply behaves_call|].
  intros [waiting lock']. apply behaves_ret.
Qed.

Lemma behaves_cleanup conversation_id ticket_number :
  behaves (cleanup conversation_id ticket_number).
Proof.
  unfold cleanup.
  apply behaves_bind;
    [unfold finish_serving; apply behaves_fetch_call_save|]. intros _.
  apply behaves_bind; [apply behaves_is_someone_waiting|].
  intros [|]; cbn; [apply behaves_ret | apply behaves_delete_lock].
Qed.

(** ** A backend that cannot be reached *)

Lemma get_lock_unavailable conversation_id (w : W) :
  available w = false ->
  get_lock conversation_id w
  = (Raise ConnectionError,
     after_failed (ev_get_lock conversation_id false) w).
Proof.
  unfold available, get_lock, after_failed, bind, observe, red_get.
  destruct (self w) eqn:Es; cbn; [discriminate|]. intros ->; cbn.
  now rewrite <- Es.
Qed.

Lemma save_lock_unavailable lock (w : W) :
  available w = false ->
  save_lock lock w
  = (Raise ConnectionError,
     after_failed (ev_save_lock (TicketLock.conversation_id lock) false) w).
Proof.
  unfold available, save_lock, after_failed, bind, observe, red_set.
  destruct (self w) eqn:Es; cbn; [discriminate|]. intros ->; cbn.
  now rewrite <- Es.
Qed.

Lemma delete_lock_unavailable conversation_id (w : W) :
  available w = false ->
  delete_lock conversation_id w
  = (Raise ConnectionError,
     after_failed (ev_delete_lock conversation_id false) w).
Proof.
  unfold available, delete_lock, after_failed, bind, observe, red_delete.
  destruct (self w) eqn:Es; cbn; [discriminate|]. intros ->; cbn.
  now rewrite <- Es.
Qed.

(** ** The record of a conversation is only created by [create_lock] and
    only removed by [delete_lock] *)

Lemma fetch_call_save_keeps_record conversation_id {A}
  (method : Time -> Q -> A * Q) (w : W) :
  has_record conversation_id
    ((let* lock := get_lock conversation_id in
      match lock with
      | Some lock =>
          let* (_, lock) := call method lock in
          save_lock lock
      | None => ret tt
      end) w).2
  = has_record conversation_id w.
Proof.
  unfold get_lock, call, save_lock, bind, observe, red_get, red_set, ret,
    has_record.
  destruct w as [[l locks|l red] srv t tr]; cbn.
  - destruct (locks !! conversation_id) as [q|] eqn:El; cbn.
    + destruct (method t q) as [a q']; cbn. rewrite lookup_insert_eq.
      rewrite !bool_decide_eq_true_2; eauto.
    + now rewrite El.
  - destruct (reachable srv) eqn:Er; cbn; [|reflexivity].
    destruct (keys srv !! conversation_id) as [s|] eqn:Ek; cbn;
      [|now rewrite Ek].
    destruct (TicketLock.truthy s); cbn; [|now rewrite Ek].
    destruct (TicketLock.loads s) as [c q]; cbn.
    destruct (method t q) as [a q']; cbn. rewrite Er; cbn.
    rewrite !bool_decide_eq_true_2; eauto.
    destruct (decide (c = conversation_id)) as [->|Hne].
    + rewrite lookup_insert_eq. eauto.
    + rewrite lookup_insert_ne by exact Hne. rewrite Ek. eauto.
Qed.

Lemma is_someone_waiting_keeps_record conversation_id (w : W) :
  has_record conversation_id (is_someone_waiting conversation_id w).2
  = has_record conversation_id w
  /\ server (is_someone_waiting conversation_id w).2 = server w.
Proof.
  unfold is_someone_waiting, get_lock, call, bind, observe, red_get, ret,
    has_record.
  destruct w as [[l locks|l red] srv t tr]; cbn.
  - destruct (locks !! conversation_id) as [q|] eqn:El; cbn.
    + destruct (TicketLock.is_someone_waiting t q) as [b q']; cbn.
      rewrite lookup_alter_eq, El; cbn.
      repeat (rewrite bool_decide_eq_true_2 by eauto). easy.
    + now rewrite El.
  - destruct (reachable srv) eqn:Er; cbn; [|easy].
    destruct (keys srv !! conversation_id) as [s|] eqn:Ek; cbn;
      [|now rewrite Ek].
    destruct (TicketLock.truthy s); cbn; [|now rewrite Ek].
    destruct (TicketLock.loads s) as [c q]; cbn.
    destruct (TicketLock.is_someone_waiting t q) as [b q']; cbn.
    now rewrite Ek.
Qed.

(** X8. [finish_serving], [update_lock] and [is_someone_waiting] neither
    create nor remove the record of the conversation, in any world, whether
    they return or raise: a conversation has a record afterwards exactly
    when it had one before.  In particular [finish_serving] leaves the
    record in place when it removes the last ticket; removing the record is
    left to [cleanup].  Moreover [is_someone_waiting] writes nothing to the
    Redis server. *)
Theorem record_is_neither_created_nor_removed
  conversation_id ticket_number (w : W) :
  has_record conversation_id
    (finish_serving conversation_id ticket_number w).2
  = has_record conversation_id w
  /\ has_record conversation_id (update_lock conversation_id w).2
     = has_record conversation_id w
  /\ has_record conversation_id (is_someone_waiting conversation_id w).2
     = has_record conversation_id w
  /\ server (is_someone_waiting conversation_id w).2 = server w.
Proof.
  split; [apply fetch_call_save_keeps_record|].
  split; [apply fetch_call_save_keeps_record|].
  apply is_someone_waiting_keeps_record.
Qed.

(** X17. The in-memory store shares its lock objects, the Redis store
    hands out copies.  [is_someone_waiting] fetches the lock and asks it,
    and saves nothing (an observer sees the fetch only).  Yet in the
    in-memory store the record is afterwards the queue as the question left
    it (with the expired tickets pruned, if the lock prunes when asked),
    because the lock asked is the very object in the dictionary; on the
    Redis server the record is as it was. *)
Theorem is_someone_waiting_shows_in_the_in_memory_store
  conversation_id found (w w1 : W) :
  get_lock conversation_id w = (Ok (Some found), w1) ->
  exists w',
    is_someone_waiting conversation_id w
    = (Ok (TicketLock.is_someone_waiting (clock w)
             (TicketLock.queue found)).1, w')
    /\ trace w' = trace w ++ [ev_get_lock conversation_id true]
    /\ match self w with
       | InMemoryLockStore _ _ =>
           record conversation_id w'
           = Some (inl (TicketLock.is_someone_waiting (clock w)
                          (TicketLock.queue found)).2)
       | RedisLockStore _ _ =>
           record conversation_id w' = record conversation_id w
       end.
Proof.
  unfold is_someone_waiting, get_lock, call, bind, observe, red_get, ret,
    record.
  destruct w as [[l locks|l red] srv t tr]; cbn.
  - destruct (locks !! conversation_id) as [q|] eqn:El; cbn;
      [|discriminate].
    intros [= <- <-]; cbn.
    destruct (TicketLock.is_someone_waiting t q) as [b q']; cbn.
    eexists. split; [reflexivity|]. cbn. split; [reflexivity|].
    now rewrite lookup_alter_eq, El.
  - destruct (reachable srv) eqn:Er; cbn; [|discriminate].
    destruct (keys srv !! conversation_id) as [s|] eqn:Ek; cbn;
      [|discriminate].
    destruct (TicketLock.truthy s); cbn; [|discriminate].
    destruct (TicketLock.loads s) as [c q]; cbn.
    intros [= <- <-]; cbn.
    destruct (TicketLock.is_someone_waiting t q) as [b q']; cbn.
    eexists. split; [reflexivity|]. cbn. split; [reflexivity|].
    now rewrite Ek.
Qed.

Lemma is_someone_waiting_deletes_nothing conversation_id :
  emits (fun e => negb (is_delete e)) (is_someone_waiting conversation_id).
Proof.
  unfold is_someone_waiting. apply emits_bind; [now apply emits_get_lock|].
  intros [lock|]; [|apply emits_ret].
  apply emits_bind; [apply emits_call|]. intros [waiting _]. apply emits_ret.
Qed.

Lemma is_someone_waiting_true_has_record conversation_id (w w1 : W) :
  is_someone_waiting conversation_id w = (Ok true, w1) ->
  has_record conversation_id w = true.
Proof.
  unfold is_someone_waiting, bind.
  destruct (get_lock conversation_id w) as [[[lock|]|e] w0] eqn:Eg;
    try discriminate.
  intros _. exact (get_lock_Some_has_record _ _ _ _ Eg).
Qed.

(** X9. [cleanup] keeps the record while someone waits.  If, after the
    caller's ticket was removed and the lock saved, [is_someone_waiting]
    says that someone waits, [cleanup] ends there: it returns, the store
    still holds the record of the conversation, and no deletion was
    attempted. *)
Theorem cleanup_with_waiters_keeps_the_record
  conversation_id ticket_number (w w1 w2 : W) :
  finish_serving conversation_id ticket_number w = (Ok tt, w1) ->
  is_someone_waiting conversation_id w1 = (Ok true, w2) ->
  cleanup conversation_id ticket_number w = (Ok tt, w2)
  /\ has_record conversation_id w2 = true
  /\ exists d, trace w2 = trace w ++ d /\ existsb is_delete d = false.
Proof.
  intros Ef Ew. split; [|split].
  - unfold cleanup.
    now rewrite (bind_Ok _ _ _ _ _ Ef), (bind_Ok _ _ _ _ _ Ew).
  - destruct (is_someone_waiting_keeps_record conversation_id w1) as [Eh _].
    rewrite Ew in Eh; cbn in Eh. rewrite Eh.
    exact (is_someone_waiting_true_has_record _ _ _ Ew).
  - destruct (finish_serving_deletes_nothing conversation_id ticket_number w)
      as (d1 & Et1 & Hd1).
    destruct (is_someone_waiting_deletes_nothing conversation_id w1)
      as (d2 & Et2 & Hd2).
    rewrite Ef in Et1. rewrite Ew in Et2. cbn in Et1, Et2.
    exists (d1 ++ d2). split; [now rewrite Et2, Et1, app_assoc|].
    rewrite existsb_app. now rewrite !forallb_negb_existsb.
Qed.

(** ** A conversation without a record *)

Lemma delete_lock_run conversation_id (w : W) :
  available w = true ->
  exists w',
    delete_lock conversation_id w = (Ok tt, w')
    /\ has_record conversation_id w' = false
    /\ clock w' = clock w
    /\ trace w'
       = trace w ++
         [ev_delete_lock conversation_id true;
          ev_debug
            (if has_record conversation_id w
             then "Deleted lock for conversation '" +:+ conversation_id
                  +:+ "'."
             else "Could not delete lock for conversation '"
                  +:+ conversation_id +:+ "'.")].
Proof.
  unfold available, has_record, delete_lock, bind, observe, red_delete,
    _log_deletion.
  destruct w as [[l locks|l red] srv t tr]; cbn.
  - intros _. destruct (locks !! conversation_id) eqn:El; cbn;
      eexists; (split; [reflexivity|]); cbn;
      rewrite lookup_delete_eq, <- app_assoc; repeat split;
      try (rewrite bool_decide_eq_false; now intros [? [=]]).
  - intros ->. cbn. destruct (keys srv !! conversation_id) eqn:El; cbn;
      eexists; (split; [reflexivity|]); cbn;
      rewrite lookup_delete_eq, <- app_assoc; repeat split;
      try (rewrite bool_decide_eq_false; now intros [? [=]]).
Qed.

(** X18. A conversation for which the fetch finds nothing.  [update_lock]
    and [is_someone_waiting] (which answers [False]) return normally and do
    nothing but that fetch; none of them creates a lock.  [cleanup] returns
    normally as well: it fetches twice, finds nobody waiting and calls
    [delete_lock], which removes whatever the storage medium held under the
    key and logs the outcome; afterwards there is no record and a fetch
    still finds nothing. *)
Theorem methods_on_a_missing_record
  conversation_id ticket_number (w w1 : W) :
  get_lock conversation_id w = (Ok None, w1) ->
  update_lock conversation_id w = (Ok tt, w1)
  /\ is_someone_waiting conversation_id w = (Ok false, w1)
  /\ trace w1 = trace w ++ [ev_get_lock conversation_id true]
  /\ exists w',
       cleanup conversation_id ticket_number w = (Ok tt, w')
       /\ has_record conversation_id w' = false
       /\ (get_lock conversation_id w').1 = Ok None
       /\ clock w' = clock w
       /\ trace w'
          = trace w ++
            [ev_get_lock conversation_id true;
             ev_get_lock conversation_id true;
             ev_delete_lock conversation_id true;
             ev_debug
               (if has_record conversation_id w
                then "Deleted lock for conversation '" +:+ conversation_id
                     +:+ "'."
                else "Could not delete lock for conversation '"
                     +:+ conversation_id +:+ "'.")].
Proof.
  intros Eg.
  assert (update_lock conversation_id w = (Ok tt, w1)) as Eu.
  { unfold update_lock. now rewrite (bind_Ok _ _ _ _ _ Eg). }
  assert (is_someone_waiting conversation_id w = (Ok false, w1)) as Ew.
  { unfold is_someone_waiting. now rewrite (bind_Ok _ _ _ _ _ Eg). }
  assert (finish_serving conversation_id ticket_number w = (Ok tt, w1))
    as Ef.
  { unfold finish_serving. now rewrite (bind_Ok _ _ _ _ _ Eg). }
  pose proof (get_lock_None_again _ _ _ Eg) as Eg1.
  destruct (get_lock_Ok_world _ _ _ _ Eg) as [Ha Ew1].
  split; [exact Eu|]. split; [exact Ew|]. split; [now subst w1|].
  destruct (get_lock conversation_id w1) as [r w2] eqn:Eg2. cbn in Eg1.
  subst r.
  destruct (get_lock_Ok_world _ _ _ _ Eg2) as [Ha1 Ew2].
  assert (is_someone_waiting conversation_id w1 = (Ok false, w2)) as Ew'.
  { unfold is_someone_waiting. now rewrite (bind_Ok _ _ _ _ _ Eg2). }
  assert (available w2 = true) as Ha2 by (now subst w2).
  destruct (delete_lock_run conversation_id w2 Ha2)
    as (w' & Ed & Hh & Ek & Et).
  exists w'. split.
  { unfold cleanup.
    rewrite (bind_Ok _ _ _ _ _ Ef), (bind_Ok _ _ _ _ _ Ew'). exact Ed. }
  split; [exact Hh|].
  split; [exact (delete_lock_then_get_lock _ _ _ Ed)|].
  split; [rewrite Ek; now subst w2 w1|].
  rewrite Et. subst w2 w1. cbn. unfold has_record; cbn.
  now rewrite <- !app_assoc.
Qed.

(** X19. [create_lock] does not look for a lock that is there: on a
    backend that can be reached it saves a lock with a fresh queue under
    the conversation id (one save, no fetch) and returns it, and a fetch
    returns that fresh lock afterwards, whatever the store held for the
    conversation before. *)
Theorem create_lock_replaces_the_record conversation_id (w : W) :
  round_trips ->
  available w = true ->
  exists w',
    create_lock conversation_id w
    = (Ok (TicketLock.Build conversation_id TicketLock.fresh), w')
    /\ (get_lock conversation_id w').1
       = Ok (Some (TicketLock.Build conversation_id TicketLock.fresh))
    /\ trace w' = trace w ++ [ev_save_lock conversation_id true]
    /\ (forall k, k <> conversation_id -> record k w' = record k w).
Proof.
  intros Hrt Ha.
  set (new := TicketLock.Build conversation_id TicketLock.fresh).
  destruct (save_lock_when_available new w Ha) as [w' Es].
  destruct (save_lock_stores _ _ _ Hrt Es) as (Eg & Hr & Et & _).
  exists w'. unfold create_lock. fold new.
  rewrite (bind_Ok _ _ _ _ _ Es). repeat split; assumption.
Qed.

(** ** Choosing the store *)

(** X10. [find_lock_store] builds a store exactly for the kinds that its
    error message lists ([ACCEPTED_LOCK_STORES]) and for a configuration
    that is missing or names no kind (the keyword arguments of a
    configuration being, as [EndpointConfig] has them here, parameters of
    [RedisLockStore] and well typed).  For a missing configuration, no kind
    and [in_memory] the store is the in-memory store with the default
    lifetime and no lock in it, whatever else the configuration says (its
    url and keyword arguments, the lifetime among them, are not read); and
    one debug line names the class of the store built. *)
Theorem find_lock_store_accepts_the_listed_types
  (store : option EndpointConfig) :
  ((exists lock_store, (@find_lock_store Q store).1 = Ok lock_store)
   <-> (forall ty,
          match store with Some store => type store | None => None end
          = Some ty ->
          In ty ACCEPTED_LOCK_STORES))
  /\ (forall ty,
        match store with Some store => type store | None => None end = ty ->
        ty = None \/ ty = Some "in_memory" ->
        @find_lock_store Q store
        = (Ok (InMemoryLockStore DEFAULT_LOCK_LIFETIME ∅),
           [ev_debug "Connected to lock store InMemoryLockStore."]))
  /\ (forall lock_store,
        (@find_lock_store Q store).1 = Ok lock_store ->
        (@find_lock_store Q store).2
        = [ev_debug ("Connected to lock store " +:+ class_name lock_store
                     +:+ ".")]).
Proof.
  unfold find_lock_store, ACCEPTED_LOCK_STORES.
  destruct store as [[[ty|] url kw]|]; cbn.
  - destruct (String.eqb ty "in_memory") eqn:Em;
      [|destruct (String.eqb ty "redis") eqn:Er]; cbn.
    + apply String.eqb_eq in Em. subst ty. repeat split.
      * intros _ ty [= <-]. now left.
      * eauto.
      * now intros ? [= <-].
    + apply String.eqb_eq in Er. subst ty. repeat split.
      * intros _ ty [= <-]. right. now left.
      * eauto.
      * intros ty <- [[=]|[=]].
      * now intros ? [= <-].
    + apply String.eqb_neq in Em, Er. repeat split.
      * intros [lock_store [=]].
      * intros Hin. destruct (Hin ty eq_refl) as [<-|[<-|[]]]; congruence.
      * intros ty' <- [[=]|[= ->]]. congruence.
      * intros ? [=].
  - repeat split; eauto; try discriminate. now intros ? [= <-].
  - repeat split; eauto; try discriminate. now intros ? [= <-].
Qed.

End Storage.

(** * Waiting for the turn, and the context manager *)

Section Waiting.

Context {Q Wire : Type} `{!TicketLock.Ops Q Wire}.

Abbreviation W := (World Q Wire).

Variable others : World Q Wire -> gmap Text Q * RedisServer Wire.

Local Abbreviation sound := (sound (Q := Q) (Wire := Wire)).
Local Abbreviation quiet := (quiet (Q := Q) (Wire := Wire)).

(** X11. A backend that cannot be reached fails every method at its first
    call: the method raises [ConnectionError], and nothing but the
    observation of that one call is new (the store, the server and the
    clock are as before).  For [lock] this means that neither the block
    under [async with] nor [cleanup] runs: the ticket is issued before the
    [try]. *)
Theorem unreachable_backend_fails_at_the_first_call
  conversation_id lifetime_arg ticket attempts wait saved (w : W) :
  available w = false ->
  get_lock conversation_id w
  = (Raise ConnectionError,
     after_failed (ev_get_lock conversation_id false) w)
  /\ save_lock saved w
     = (Raise ConnectionError,
        after_failed (ev_save_lock (TicketLock.conversation_id saved) false)
          w)
  /\ delete_lock conversation_id w
     = (Raise ConnectionError,
        after_failed (ev_delete_lock conversation_id false) w)
  /\ create_lock conversation_id w
     = (Raise ConnectionError,
        after_failed (ev_save_lock conversation_id false) w)
  /\ get_or_create_lock conversation_id w
     = (Raise ConnectionError,
        after_failed (ev_get_lock conversation_id false) w)
  /\ issue_ticket conversation_id lifetime_arg w
     = (Raise ConnectionError,
        after_failed (ev_get_lock conversation_id false) w)
  /\ update_lock conversation_id w
     = (Raise ConnectionError,
        after_failed (ev_get_lock conversation_id false) w)
  /\ is_someone_waiting conversation_id w
     = (Raise ConnectionError,
        after_failed (ev_get_lock conversation_id false) w)
  /\ finish_serving conversation_id ticket w
     = (Raise ConnectionError,
        after_failed (ev_get_lock conversation_id false) w)
  /\ cleanup conversation_id ticket w
     = (Raise ConnectionError,
        after_failed (ev_get_lock conversation_id false) w)
  /\ (0 < attempts ->
      _acquire_lock others conversation_id ticket attempts wait w
      = (Raise ConnectionError,
         after_failed (ev_get_lock conversation_id false) w))
  /\ (forall A (body : TicketLock.t Q -> M Q Wire A),
        lock others conversation_id attempts wait body w
        = (Raise ConnectionError,
           after_failed (ev_get_lock conversation_id false) w)).
Proof.
  intros Ha.
  pose proof (get_lock_unavailable conversation_id w Ha) as Eg.
  pose proof (save_lock_unavailable
                (TicketLock.Build conversation_id TicketLock.fresh) w Ha)
    as Es.
  assert (get_or_create_lock conversation_id w
          = (Raise ConnectionError,
             after_failed (ev_get_lock conversation_id false) w)) as Ec.
  { unfold get_or_create_lock. now rewrite (bind_Raise _ _ _ _ _ Eg). }
  assert (issue_ticket conversation_id lifetime_arg w
          = (Raise ConnectionError,
             after_failed (ev_get_lock conversation_id false) w)) as Ei.
  { unfold issue_ticket. now rewrite (bind_Raise _ _ _ _ _ Ec). }
  assert (finish_serving conversation_id ticket w
          = (Raise ConnectionError,
             after_failed (ev_get_lock conversation_id false) w)) as Ef.
  { unfold finish_serving. now rewrite (bind_Raise _ _ _ _ _ Eg). }
  split; [exact Eg|].
  split; [now apply save_lock_unavailable|].
  split; [now apply delete_lock_unavailable|].
  split; [unfold create_lock; now rewrite (bind_Raise _ _ _ _ _ Es)|].
  split; [exact Ec|]. split; [exact Ei|].
  split; [unfold update_lock; now rewrite (bind_Raise _ _ _ _ _ Eg)|].
  split; [unfold is_someone_waiting; now rewrite (bind_Raise _ _ _ _ _ Eg)|].
  split; [exact Ef|].
  split; [unfold cleanup; now rewrite (bind_Raise _ _ _ _ _ Ef)|].
  split.
  - intros Hpos. rewrite _acquire_lock_unfold by exact Hpos.
    now rewrite (bind_Raise _ _ _ _ _ Eg).
  - intros A body. unfold lock.
    assert (issue_ticket conversation_id (Some DEFAULT_LOCK_LIFETIME) w
            = (Raise ConnectionError,
               after_failed (ev_get_lock conversation_id false) w)) as Ei'.
    { unfold issue_ticket. now rewrite (bind_Raise _ _ _ _ _ Ec). }
    now rewrite (bind_Raise _ _ _ _ _ Ei').
Qed.

(** ** The bounds of the waiting loop *)

(** X12. Without attempts there is no acquisition.  For [attempts <= 0]
    the loop of [_acquire_lock] is not entered: it raises [LockError] at
    once and does not even look at the store, so the lock is refused also
    when it is free.  [lock] then never runs the block under [async with]:
    it raises [LockError], or [ConnectionError] when the backend failed
    while the ticket was issued or cleaned up, and the world it leaves does
    not depend on the block. *)
Theorem acquire_without_attempts_fails_untried
  conversation_id ticket attempts wait (w : W) :
  attempts <= 0 ->
  _acquire_lock others conversation_id ticket attempts wait w
  = (Raise (could_not_acquire conversation_id), w)
  /\ (forall A (body : TicketLock.t Q -> M Q Wire A),
        (lock others conversation_id attempts wait body w).1
        = Raise (could_not_acquire conversation_id)
        \/ (lock others conversation_id attempts wait body w).1
           = Raise ConnectionError)
  /\ (forall A B (body : TicketLock.t Q -> M Q Wire A)
             (body' : TicketLock.t Q -> M Q Wire B),
        (lock others conversation_id attempts wait body w).2
        = (lock others conversation_id attempts wait body' w).2).
Proof.
  intros Hle.
  assert (forall t w1,
            _acquire_lock others conversation_id t attempts wait w1
            = (Raise (could_not_acquire conversation_id), w1)) as Ea.
  { intros t w1. unfold _acquire_lock.
    replace (Z.to_nat attempts) with O by lia. reflexivity. }
  split; [apply Ea|].
  assert (forall A (body : TicketLock.t Q -> M Q Wire A),
            lock others conversation_id attempts wait body w
            = match issue_ticket conversation_id (Some DEFAULT_LOCK_LIFETIME)
                      w with
              | (Ok t, w1) =>
                  match cleanup conversation_id t w1 with
                  | (Ok _, w2) =>
                      (Raise (could_not_acquire conversation_id), w2)
                  | (Raise e, w2) => (Raise e, w2)
                  end
              | (Raise e, w1) => (Raise e, w1)
              end) as El.
  { intros A body. unfold lock, bind at 1.
    destruct (issue_ticket _ _ w) as [[t|e] w1]; [|reflexivity].
    unfold try_finally.
    now rewrite (bind_Raise _ _ _ _ _ (Ea t w1)). }
  split.
  - intros A body. rewrite El.
    pose proof (proj2 (behaves_issue_ticket conversation_id
                         (Some DEFAULT_LOCK_LIFETIME)) w) as Hi.
    destruct (issue_ticket _ _ w) as [[t|e] w1]; cbn in *.
    + pose proof (proj2 (behaves_cleanup conversation_id t) w1) as Hc.
      destruct (cleanup conversation_id t w1) as [[u|e] w2]; cbn in *.
      * now left.
      * right. now rewrite (Hc e eq_refl).
    + right. now rewrite (Hi e eq_refl).
  - intros A B body body'. rewrite !El.
    destruct (issue_ticket _ _ w) as [[t|e] w1]; [|reflexivity].
    now destruct (cleanup conversation_id t w1) as [[u|e] w2].
Qed.

Lemma sleeps_app d1 d2 : sleeps (d1 ++ d2) = sleeps d1 ++ sleeps d2.
Proof. unfold sleeps. apply flat_map_app. Qed.

Lemma quiet_ret {A} (a : A) : quiet 0 (ret a).
Proof.
  intros w. split; [reflexivity|]. exists []. cbn. now rewrite app_nil_r.
Qed.

Lemma quiet_bind m n {A B} (c : M Q Wire A) (k : A -> M Q Wire B) :
  quiet m c -> (forall a, quiet n (k a)) -> quiet (m + n) (bind c k).
Proof.
  intros Hc Hk w. destruct (Hc w) as (Ek1 & d1 & Et1 & Hs1 & Hd1 & Hw1).
  unfold bind. destruct (c w) as [[a|e] w1]; cbn in *.
  - destruct (Hk a w1) as (Ek2 & d2 & Et2 & Hs2 & Hd2 & Hw2).
    split; [congruence|]. exists (d1 ++ d2).
    split; [now rewrite Et2, Et1, app_assoc|].
    split; [now rewrite sleeps_app, Hs1, Hs2|].
    split; [now rewrite existsb_app, Hd1, Hd2|].
    rewrite List.filter_app, length_app. lia.
  - split; [exact Ek1|]. exists d1. repeat split; try assumption. lia.
Qed.

Lemma quiet_le m n {A} (c : M Q Wire A) :
  (m <= n)%nat -> quiet m c -> quiet n c.
Proof.
  intros Hle Hc w. destruct (Hc w) as (Ek & d & Et & Hs & Hd & Hw).
  split; [exact Ek|]. exists d. repeat split; try assumption. lia.
Qed.

Lemma quiet_get_lock conversation_id : quiet 0 (get_lock conversation_id).
Proof.
  intros w. destruct (get_lock_frame conversation_id w) as (_ & _ & Ek & Et).
  split; [exact Ek|]. eexists. split; [exact Et|]. cbn. repeat split. lia.
Qed.

Lemma quiet_call {A} (method : Time -> Q -> A * Q) lock :
  quiet 0 (call method lock).
Proof.
  intros w.
  destruct (call_frame method lock w) as (a & q & _ & _ & Et & Ek & _).
  split; [exact Ek|]. exists []. rewrite app_nil_r. cbn. repeat split.
  - exact Et.
  - lia.
Qed.

Lemma quiet_save_lock lock : quiet 1 (save_lock lock).
Proof.
  intros w. unfold save_lock, bind, observe, red_set.
  destruct (self w); cbn.
  - split; [reflexivity|]. eexists [_]. repeat split. cbn. lia.
  - destruct (reachable (server w)); cbn; (split; [reflexivity|]);
      eexists [_]; repeat split; cbn; lia.
Qed.

Lemma quiet_update_lock conversation_id :
  quiet 1 (update_lock conversation_id).
Proof.
  unfold update_lock.
  apply (quiet_bind 0 1); [apply quiet_get_lock|].
  intros [lock|]; [|apply (quiet_le 0); [lia | apply quiet_ret]].
  apply (quiet_bind 0 1); [apply quiet_call|].
  intros [u lock']. apply quiet_save_lock.
Qed.

Ltac clock_arith := rewrite ?Nat2Z.inj_succ; cbn [Z.of_nat]; lia.

Lemma acquire_loop_sleeps k conversation_id ticket wait (w w' : W) r :
  acquire_loop others k conversation_id ticket wait w = (r, w') ->
  exists n d,
    (n <= k)%nat
    /\ trace w' = trace w ++ d
    /\ sleeps d = repeat wait n
    /\ existsb is_delete d = false
    /\ (length (List.filter is_save d) <= n)%nat
    /\ clock w' = clock w + Z.of_nat n * Z.max 0 wait
    /\ (forall granted, r = Ok granted -> (n < k)%nat).
Proof.
  revert w. induction k as [|k IH]; intros w; cbn [acquire_loop].
  - intros [= <- <-]. exists O, []. cbn. rewrite app_nil_r.
    repeat split; try lia. discriminate.
  - destruct (quiet_get_lock conversation_id w)
      as (Ek1 & d1 & Et1 & Hs1 & Hd1 & Hw1).
    unfold bind at 1.
    destruct (get_lock conversation_id w) as [[[found|]|e] w1];
      cbn [fst snd] in *.
    2,3: intros [= <- <-]; exists O, d1; cbn [repeat];
         (split; [lia|]); (split; [exact Et1|]); (split; [exact Hs1|]);
         (split; [exact Hd1|]); (split; [exact Hw1|]);
         (split; [clock_arith | discriminate]).
    destruct (quiet_call (fun now => TicketLock.is_locked now ticket)
                found w1) as (Ek2 & d2 & Et2 & Hs2 & Hd2 & Hw2).
    unfold bind at 1.
    destruct (call _ found w1) as [[[locked granted]|e] w2];
      cbn [fst snd] in *.
    2: { intros [= <- <-]. exists O, (d1 ++ d2). cbn [repeat].
         rewrite sleeps_app, Hs1, Hs2, existsb_app, Hd1, Hd2,
           List.filter_app, length_app.
         split; [lia|]. split; [now rewrite Et2, Et1, app_assoc|].
         split; [reflexivity|]. split; [reflexivity|]. split; [lia|].
         split; [clock_arith | discriminate]. }
    unfold bind at 1. cbn [observe]. destruct locked; cbn [negb].
    + unfold bind at 1.
      match goal with |- context [asyncio_sleep others wait ?w0] =>
        destruct (asyncio_sleep_frame others wait w0) as (Er & Ets & Eks);
        destruct (asyncio_sleep others wait w0) as [r3 w3]
      end.
      cbn [fst snd trace clock] in *. subst r3.
      destruct (quiet_update_lock conversation_id w3)
        as (Ek4 & d4 & Et4 & Hs4 & Hd4 & Hw4).
      unfold bind at 1.
      destruct (update_lock conversation_id w3) as [[[]|e] w4];
        cbn [fst snd] in *.
      * intros E.
        destruct (IH w4 E) as (n & d & Hn & Et & Hs & Hd & Hw & Ek & Hok).
        exists (S n),
          (d1 ++ d2 ++ [ev_is_locked ticket true; ev_sleep wait] ++ d4 ++ d).
        split; [lia|]. split.
        { rewrite Et, Et4, Ets, Et2, Et1. now rewrite <- !app_assoc. }
        split.
        { rewrite !sleeps_app, Hs1, Hs2, Hs4, Hs. reflexivity. }
        split.
        { rewrite !existsb_app, Hd1, Hd2, Hd4, Hd. reflexivity. }
        split.
        { rewrite !List.filter_app, !length_app. cbn [List.filter is_save
            length]. lia. }
        split; [rewrite Ek, Ek4, Eks, Ek2, Ek1; clock_arith|].
        intros granted' Eg. specialize (Hok granted' Eg). lia.
      * intros [= <- <-]. exists 1%nat,
          (d1 ++ d2 ++ [ev_is_locked ticket true; ev_sleep wait] ++ d4).
        split; [lia|]. split.
        { rewrite Et4, Ets, Et2, Et1. now rewrite <- !app_assoc. }
        split.
        { rewrite !sleeps_app, Hs1, Hs2, Hs4. reflexivity. }
        split.
        { rewrite !existsb_app, Hd1, Hd2, Hd4. reflexivity. }
        split.
        { rewrite !List.filter_app, !length_app. cbn [List.filter is_save
            length]. lia. }
        split; [rewrite Ek4, Eks, Ek2, Ek1; clock_arith | discriminate].
    + intros [= <- <-]. exists O, (d1 ++ d2 ++ [ev_is_locked ticket false]).
      cbn [trace clock].
      split; [lia|]. split.
      { rewrite Et2, Et1. now rewrite <- !app_assoc. }
      split.
      { rewrite !sleeps_app, Hs1, Hs2. reflexivity. }
      split.
      { rewrite !existsb_app, Hd1, Hd2. reflexivity. }
      split.
      { rewrite !List.filter_app, !length_app. cbn [List.filter is_save
          length]. lia. }
      split; [rewrite Ek2, Ek1; clock_arith | intros; lia].
Qed.

(** X13. The waiting loop is bounded.  Whatever the store holds and
    whatever the rest of the system does, [_acquire_lock] sleeps at most
    [attempts] times, each time for [wait]; the clock, which only sleeping
    advances, moves by the number of its sleeps times the wait interval
    (not at all for a negative one), so by at most [attempts] times the
    wait interval.  It
    deletes nothing, and it saves at most once for each sleep (the update
    after the sleep).  When it gives the lock, it has slept fewer than
    [attempts] times, since the turn is not checked again after the last
    sleep. *)
Theorem acquire_sleeps_at_most_the_attempts
  conversation_id ticket attempts wait (w : W) :
  exists (n : nat) d,
    Z.of_nat n <= Z.max 0 attempts
    /\ trace (_acquire_lock others conversation_id ticket attempts wait w).2
       = trace w ++ d
    /\ sleeps d = repeat wait n
    /\ existsb is_delete d = false
    /\ (length (List.filter is_save d) <= n)%nat
    /\ clock (_acquire_lock others conversation_id ticket attempts wait w).2
       = clock w + Z.of_nat n * Z.max 0 wait
    /\ (forall granted,
          (_acquire_lock others conversation_id ticket attempts wait w).1
          = Ok granted ->
          Z.of_nat n < attempts).
Proof.
  unfold _acquire_lock.
  destruct (acquire_loop others (Z.to_nat attempts) conversation_id ticket
              wait w) as [r w'] eqn:E.
  destruct (acquire_loop_sleeps _ _ _ _ _ _ _ E)
    as (n & d & Hn & Et & Hs & Hd & Hw & Ek & Hok).
  exists n, d. cbn [fst snd]. split; [lia|]. repeat split; try assumption.
  intros granted Eg. specialize (Hok granted Eg). lia.
Qed.

(** X14. A caller whose ticket is in turn does not wait.  If the fetch
    finds the lock and the turn check says that it is not locked for the
    ticket, [_acquire_lock] returns the lock, as the check left it, at
    once: an observer sees the fetch and the check only, no time passes,
    and nothing is written to the Redis server (the expired tickets that
    the check pruned are pruned in the lock returned, not in the record on
    the server). *)
Theorem acquire_returns_at_once_when_in_turn
  conversation_id ticket attempts wait found granted (w w1 w2 : W) :
  0 < attempts ->
  get_lock conversation_id w = (Ok (Some found), w1) ->
  call (fun now => TicketLock.is_locked now ticket) found w1
  = (Ok (false, granted), w2) ->
  exists w',
    _acquire_lock others conversation_id ticket attempts wait w
    = (Ok granted, w')
    /\ trace w'
       = trace w ++ [ev_get_lock conversation_id true;
                     ev_is_locked ticket false]
    /\ clock w' = clock w
    /\ server w' = server w
    /\ TicketLock.queue granted
       = (TicketLock.is_locked (clock w) ticket (TicketLock.queue found)).2.
Proof.
  intros Hpos Eg Ec.
  rewrite _acquire_lock_unfold by exact Hpos.
  rewrite (bind_Ok _ _ _ _ _ Eg), (bind_Ok _ _ _ _ _ Ec).
  unfold bind; cbn [observe negb ret]. eexists. split; [reflexivity|].
  destruct (call_frame (fun now => TicketLock.is_locked now ticket) found w1)
    as (a & q & Em & Er & Et & Ek & Es).
  rewrite Ec in Er, Et, Ek, Es. cbn [fst snd] in *.
  injection Er as <- ->.
  apply get_lock_Ok_world in Eg as [_ ->]. cbn in *.
  rewrite Et, Ek, Es, Em, <- app_assoc. now cbn.
Qed.

(** ** The context manager *)

Lemma sound_try_finally {A} (body : M Q Wire A) (final : M Q Wire unit) :
  sound body -> sound final -> only_ConnectionError final ->
  sound (try_finally body final).
Proof.
  intros Hb Hf Ho w. destruct (Hb w) as (d1 & E1 & C1). unfold try_finally.
  destruct (body w) as [r w1]; cbn in *.
  destruct (Hf w1) as (d2 & E2 & C2). specialize (Ho w1).
  destruct (final w1) as [[u|e] w2]; cbn in *.
  - exists (d1 ++ d2). split; [now rewrite E2, E1, app_assoc|].
    rewrite existsb_app, C2, orb_false_r. exact C1.
  - rewrite (Ho e eq_refl) in *. exists (d1 ++ d2).
    split; [now rewrite E2, E1, app_assoc|].
    rewrite existsb_app, C2. apply orb_true_r.
Qed.

Lemma sound_lock {A} conversation_id attempts wait
  (body : TicketLock.t Q -> M Q Wire A) :
  (forall l, sound (body l)) ->
  sound (lock others conversation_id attempts wait body).
Proof.
  intros Hb. unfold lock.
  apply sound_bind; [apply sound_issue_ticket|]. intros ticket.
  apply sound_try_finally.
  - apply sound_bind; [apply sound__acquire_lock | exact Hb].
  - apply sound_cleanup.
  - apply behaves_cleanup.
Qed.

(** X15. [lock] reports an unreachable backend as such.  With a block
    under [async with] that does so itself, [lock] as a whole (issuing the
    ticket, waiting for the turn, the block, the cleanup) only adds
    observations, raises [ConnectionError] exactly when one of the calls
    did not reach the backend, and so never turns a failed call into a
    [LockError] or into a normal return. *)
Theorem lock_surfaces_backend_errors {A}
  conversation_id attempts wait (body : TicketLock.t Q -> M Q Wire A)
  (w : W) :
  (forall l, sound (body l)) ->
  exists d,
    trace (lock others conversation_id attempts wait body w).2
    = trace w ++ d
    /\ (existsb backend_failed d = true <->
        (lock others conversation_id attempts wait body w).1
        = Raise ConnectionError).
Proof.
  intros Hb. apply sound_surfaces, sound_lock, Hb.
Qed.

Lemma cleanup_starts_with_the_fetch conversation_id ticket_number (w : W) :
  exists d,
    trace (cleanup conversation_id ticket_number w).2
    = trace w ++ ev_get_lock conversation_id (available w) :: d.
Proof.
  unfold cleanup, finish_serving. rewrite bind_assoc. unfold bind at 1.
  pose proof (get_lock_world conversation_id w) as Ew.
  destruct (get_lock conversation_id w) as [[r|e] w1]; cbn in Ew; subst w1.
  - match goal with |- context [trace (?c ?w0).2] =>
      assert (sound c) as Hs
    end.
    { apply sound_bind.
      - destruct r as [found|]; [|apply sound_ret].
        apply sound_bind; [apply sound_call|].
        intros [u l]. apply sound_save_lock.
      - intros _. apply sound_bind; [apply sound_is_someone_waiting|].
        intros [|]; cbn; [apply sound_ret | apply sound_delete_lock]. }
    match goal with |- context [trace (?c ?w0).2] =>
      destruct (Hs w0) as (d & Et & _)
    end.
    exists d. rewrite Et. cbn. now rewrite <- app_assoc.
  - exists []. reflexivity.
Qed.

(** X16. [lock] cleans up on every way out.  Once the ticket is issued,
    whatever comes of the acquisition and of the block under [async with]
    (the block returns, the block raises, the acquisition raises
    [LockError] or [ConnectionError]), [cleanup] runs for the conversation
    id and the ticket issued, in the world that they left, and [lock] ends
    in the world that [cleanup] leaves.  [lock] ends as the acquisition and
    the block ended, unless [cleanup] itself raises, in which case that
    exception replaces theirs. *)
Theorem lock_cleans_up_on_every_exit {A}
  conversation_id attempts wait (body : TicketLock.t Q -> M Q Wire A)
  ticket r (w w1 w2 : W) :
  issue_ticket conversation_id (Some DEFAULT_LOCK_LIFETIME) w
  = (Ok ticket, w1) ->
  (let* l := _acquire_lock others conversation_id ticket attempts wait in
   body l) w1 = (r, w2) ->
  (lock others conversation_id attempts wait body w).2
  = (cleanup conversation_id ticket w2).2
  /\ (lock others conversation_id attempts wait body w).1
     = match (cleanup conversation_id ticket w2).1 with
       | Ok _ => r
       | Raise e => Raise e
       end
  /\ exists d,
       trace (lock others conversation_id attempts wait body w).2
       = trace w2 ++ ev_get_lock conversation_id (available w2) :: d.
Proof.
  intros Ei Eb.
  assert (lock others conversation_id attempts wait body w
          = match cleanup conversation_id ticket w2 with
            | (Ok _, w3) => (r, w3)
            | (Raise e, w3) => (Raise e, w3)
            end) as El.
  { unfold lock. rewrite (bind_Ok _ _ _ _ _ Ei). unfold try_finally.
    now rewrite Eb. }
  destruct (cleanup_starts_with_the_fetch conversation_id ticket w2)
    as (d & Et).
  rewrite El.
  destruct (cleanup conversation_id ticket w2) as [[u|e] w3]; cbn in *;
    eauto.
Qed.

End Waiting.

(** * The acquisition and the release, on what the store holds *)

Section Protocol.

Context {Q Wire : Type} `{!TicketLock.Ops Q Wire}.

Abbreviation W := (World Q Wire).

Variable others : World Q Wire -> gmap Text Q * RedisServer Wire.

(** A method that fetches a lock, calls a method of it and saves it leaves
    in the store the queue as the method left it. *)
Lemma fetch_call_save_holds conversation_id
  (method : Time -> Q -> unit * Q) found (w w1 w' : W) :
  get_lock conversation_id w = (Ok (Some found), w1) ->
  (let* lock := get_lock conversation_id in
   match lock with
   | Some lock =>
       let* (_, lock) := call method lock in
       save_lock lock
   | None => ret tt
   end) w = (Ok tt, w') ->
  holds (TicketLock.conversation_id found)
    (method (clock w) (TicketLock.queue found)).2 w'.
Proof.
  unfold get_lock, call, save_lock, holds, record, bind, observe, red_get,
    red_set, ret.
  destruct w as [[l locks|l red] srv t tr]; cbn.
  - destruct (locks !! conversation_id) as [q0|]; cbn; [|discriminate].
    intros [= <- <-]; cbn. destruct (method t q0) as [[] q']; cbn.
    intros [= <-]; cbn. now rewrite lookup_insert_eq.
  - destruct (reachable srv) eqn:Er; cbn; [|discriminate].
    destruct (keys srv !! conversation_id) as [s|]; cbn; [|discriminate].
    destruct (TicketLock.truthy s); cbn; [|discriminate].
    destruct (TicketLock.loads s) as [c q0]; cbn.
    intros [= <- <-]; cbn. destruct (method t q0) as [[] q']; cbn.
    rewrite Er; cbn. intros [= <-]; cbn. now rewrite lookup_insert_eq.
Qed.

(** ** C9: an unreachable backend is reported as such *)


(** ** C3: release removes the ticket, saves, and leaves no record behind
    when nobody waits *)

(** C3. Let [cleanup] return for a conversation id, in a store whose lock
    objects answer [is_someone_waiting] the same when asked twice in a
    row.  [first] If then nobody waits ([is_someone_waiting] is false in the
    world [cleanup] leaves), the store holds no record for the id.
    [second] What [cleanup] did is, in this order: [finish_serving], after
    which, if the fetch found a lock, the store holds the queue of that
    lock with the caller's ticket removed ([remove_ticket_for]);
    then [is_someone_waiting]; and then, if nobody waits, [delete_lock],
    after which the storage medium holds nothing under the id.  [third]
    An observer sees first what [finish_serving] does, which deletes
    nothing, and then the check and the deletion, which save nothing. *)
Theorem cleanup_without_waiters_leaves_no_record
  conversation_id ticket_number (w w' : W) :
  (forall now q,
     (TicketLock.is_someone_waiting now
        (TicketLock.is_someone_waiting now q).2).1
     = (TicketLock.is_someone_waiting now q).1) ->
  cleanup conversation_id ticket_number w = (Ok tt, w') ->
  ((is_someone_waiting conversation_id w').1 = Ok false ->
   (get_lock conversation_id w').1 = Ok None)
  /\ (exists w1 waiting w2,
        finish_serving conversation_id ticket_number w = (Ok tt, w1)
        /\ (forall found w0,
              get_lock conversation_id w = (Ok (Some found), w0) ->
              holds (TicketLock.conversation_id found)
                (TicketLock.remove_ticket_for (clock w) ticket_number
                   (TicketLock.queue found)) w1)
        /\ is_someone_waiting conversation_id w1 = (Ok waiting, w2)
        /\ (if waiting then w' = w2
            else delete_lock conversation_id w2 = (Ok tt, w')
                 /\ has_record conversation_id w' = false))
  /\ exists d1 d2,
       trace (finish_serving conversation_id ticket_number w).2
       = trace w ++ d1
       /\ trace w' = trace w ++ d1 ++ d2
       /\ existsb is_delete d1 = false
       /\ existsb is_save d2 = false.
Proof.
  intros Hlaw Ec. unfold cleanup in Ec.
  destruct (finish_serving_deletes_nothing conversation_id ticket_number w)
    as (d1 & Et1 & Hd1).
  destruct (finish_serving conversation_id ticket_number w)
    as [[[]|e] w1] eqn:Ef;
    [rewrite (bind_Ok _ _ _ _ _ Ef) in Ec
    |rewrite (bind_Raise _ _ _ _ _ Ef) in Ec; discriminate].
  destruct (is_someone_waiting_saves_nothing conversation_id w1)
    as (d2 & Et2 & Hd2).
  destruct (is_someone_waiting conversation_id w1) as [[waiting|e] w2] eqn:Ew;
    [rewrite (bind_Ok _ _ _ _ _ Ew) in Ec
    |rewrite (bind_Raise _ _ _ _ _ Ew) in Ec; discriminate].
  cbn in Et1, Et2.
  assert (forall found w0,
            get_lock conversation_id w = (Ok (Some found), w0) ->
            holds (TicketLock.conversation_id found)
              (TicketLock.remove_ticket_for (clock w) ticket_number
                 (TicketLock.queue found)) w1) as Hheld.
  { intros found w0 Eg.
    exact (fetch_call_save_holds conversation_id
             (fun now q =>
                (tt, TicketLock.remove_ticket_for now ticket_number q))
             found w w0 w1 Eg Ef). }
  destruct waiting; cbn in Ec.
  - injection Ec as <-. split; [|split].
    + intros Hw.
      rewrite (is_someone_waiting_stable _ _ _ _ Hlaw Ew) in Hw.
      discriminate.
    + exists w1, true, w2. repeat split; assumption.
    + exists d1, d2. repeat split; auto using forallb_negb_existsb.
      now rewrite Et2, Et1, app_assoc.
  - split; [|split].
    + intros _. eapply delete_lock_then_get_lock, Ec.
    + exists w1, false, w2. repeat split; try assumption.
      destruct (delete_lock_Ok _ _ _ Ec) as (_ & _ & _ & Hr & _).
      unfold has_record. unfold record in Hr.
      destruct (self w'); apply bool_decide_eq_false; intros [x Hx];
        rewrite Hx in Hr; discriminate.
    + destruct (emits_delete_lock (fun e => negb (is_save e))
                  conversation_id (fun _ => eq_refl) (fun _ => eq_refl) w2)
        as (d3 & Et3 & Hd3).
      rewrite Ec in Et3; cbn in Et3.
      exists d1, (d2 ++ d3). repeat split; auto using forallb_negb_existsb.
      * now rewrite Et3, Et2, Et1, !app_assoc.
      * rewrite existsb_app.
        now rewrite !forallb_negb_existsb.
Qed.

(** ** C2: a lock that stays locked exhausts the attempts *)

Lemma acquire_loop_attempts n conversation_id ticket wait (w : W) :
  held_throughout others n conversation_id ticket wait w = true ->
  exists w',
    acquire_loop others n conversation_id ticket wait w
    = (Raise (could_not_acquire conversation_id), w')
    /\ attempts_made others conversation_id ticket wait n w w'.
Proof.
  revert w. induction n as [|n IH]; intros w Hh.
  - exists w. split; [reflexivity | constructor].
  - apply held_throughout_S in Hh.
    destruct Hh as (found & checked & fetched & w1 & w2 & w3 & w4 & w5 &
                    Eg & Ec & Es & Eg' & Eu & Hh).
    destruct (IH _ Hh) as (w' & Er & Hm).
    exists w'. split.
    + cbn [acquire_loop]. rewrite (bind_Ok _ _ _ _ _ Eg).
      rewrite (bind_Ok _ _ _ _ _ Ec). cbn [negb].
      rewrite <- bind_assoc. rewrite (bind_Ok _ _ _ _ _ Es).
      now rewrite (bind_Ok _ _ _ _ _ Eu).
    + apply attempts_made_S with (w1 := w5); [|exact Hm].
      exists found, checked, w1, w2, w3, fetched, w4.
      split; [exact Eg|]. split; [exact Ec|]. split; [exact Es|].
      split; [exact Eg'|]. split; [exact Eu|]. split.
      { exact (fetch_call_save_holds conversation_id
                 (fun now q => (tt, TicketLock.remove_expired_tickets now q))
                 fetched w3 w4 w5 Eg' Eu). }
      destruct (update_lock_found _ _ _ _ _ Eg' Eu) as [Etu Eku].
      unfold bind in Es. cbn [observe] in Es.
      match type of Es with asyncio_sleep _ _ ?w0 = _ =>
        destruct (asyncio_sleep_frame others wait w0) as (_ & Ets & Eks);
        rewrite Es in Ets, Eks
      end.
      destruct (call_frame (fun now => TicketLock.is_locked now ticket)
                  found w1) as (a & q & _ & _ & Etc & Ekc & _).
      rewrite Ec in Etc, Ekc.
      apply get_lock_Ok_world in Eg as [_ ->].
      cbn in Ets, Eks, Etc, Ekc. split.
      * rewrite Etu, Ets, Etc. unfold attempt_events.
        rewrite <- !app_assoc. reflexivity.
      * rewrite Eku, Eks, Ekc. reflexivity.
Qed.

(** C2. For every number of attempts [attempts >= 1] and every wait
    interval, if the record exists and stays locked against the caller's
    ticket in every attempt, [_acquire_lock] raises [LockError] naming the
    conversation id after exactly [attempts] attempts.  Each attempt is
    one fetch, one turn check that says locked, one sleep of the wait
    interval and one update; the update fetches the lock again, removes
    the expired tickets and persists the result, so that after each
    attempt the store holds the queue that the update fetched with the
    tickets that had expired by then removed ([attempts_made]).  What an
    observer sees is [attempts] times these four steps, and the clock has
    advanced by [attempts] sleeps. *)
Theorem acquire_times_out_after_exactly_the_attempts
  conversation_id ticket attempts wait (w : W) :
  1 <= attempts ->
  held_throughout others (Z.to_nat attempts) conversation_id ticket wait w
  = true ->
  exists w' ids,
    _acquire_lock others conversation_id ticket attempts wait w
    = (Raise (could_not_acquire conversation_id), w')
    /\ attempts_made others conversation_id ticket wait (Z.to_nat attempts)
         w w'
    /\ Z.of_nat (length ids) = attempts
    /\ trace w'
       = trace w ++
         concat (map (attempt_events conversation_id ticket wait) ids)
    /\ clock w' = clock w + attempts * Z.max 0 wait.
Proof.
  intros Hpos Hh.
  destruct (acquire_loop_held _ _ _ _ _ _ Hh)
    as (w' & ids & Er & Hl & Et & Ek).
  destruct (acquire_loop_attempts _ _ _ _ _ Hh) as (w'' & Er' & Hm).
  rewrite Er in Er'. injection Er' as <-.
  exists w', ids. unfold _acquire_lock. rewrite Er, Hl, Et, Ek.
  rewrite Z2Nat.id by lia. easy.
Qed.

(** ** C8: what an iteration without the turn does, and in which order *)

(** What the store holds right after the turn check, before the caller
    sleeps: nothing was saved; the Redis server is as it was, and the
    in-memory store, whose lock objects are shared, holds the queue as the
    check left it. *)
Lemma checked_before_sleeping conversation_id ticket found checked locked
  (w w1 w2 : W) :
  get_lock conversation_id w = (Ok (Some found), w1) ->
  call (fun now => TicketLock.is_locked now ticket) found w1
  = (Ok (locked, checked), w2) ->
  trace w2 = trace w ++ [ev_get_lock conversation_id true]
  /\ server w2 = server w
  /\ match self w with
     | InMemoryLockStore _ _ =>
         holds conversation_id (TicketLock.queue checked) w2
     | RedisLockStore _ _ =>
         record conversation_id w2 = record conversation_id w
     end.
Proof.
  unfold get_lock, call, holds, record, bind, observe, red_get, ret.
  destruct w as [[l locks|l red] srv t tr]; cbn.
  - destruct (locks !! conversation_id) as [q0|] eqn:El; cbn;
      [|discriminate].
    intros [= <- <-]; cbn.
    destruct (TicketLock.is_locked t ticket q0) as [b q']; cbn.
    intros [= <- <- <-]; cbn. rewrite lookup_alter_eq, El. cbn. easy.
  - destruct (reachable srv) eqn:Er; cbn; [|discriminate].
    destruct (keys srv !! conversation_id) as [s|] eqn:Ek; cbn;
      [|discriminate].
    destruct (TicketLock.truthy s); cbn; [|discriminate].
    destruct (TicketLock.loads s) as [c q0]; cbn.
    intros [= <- <-]; cbn.
    destruct (TicketLock.is_locked t ticket q0) as [b q']; cbn.
    intros [= <- <- <-]; cbn. now rewrite Ek.
Qed.

(** C8, as the code has it. In an iteration in which the fetch finds the
    record and the ticket is not in turn: [first] when the caller goes to
    sleep, nothing has been saved (an observer has seen the fetch only),
    the Redis server is as it was before the iteration, and the in-memory
    store, whose lock objects are shared, holds the queue as the turn
    check left it; [second] the caller then sleeps the wait interval;
    [third] only then [update_lock] fetches the lock again, removes the
    expired tickets and persists the result: if the record is still there
    and the update goes through, the store holds the queue fetched with the
    tickets that had expired by then removed; [fourth] then the loop goes
    on with one attempt less. *)
Theorem waiting_iteration_sleeps_then_updates
  conversation_id ticket attempts wait found checked (w w1 w2 : W) :
  0 < attempts ->
  get_lock conversation_id w = (Ok (Some found), w1) ->
  call (fun now => TicketLock.is_locked now ticket) found w1
  = (Ok (true, checked), w2) ->
  (trace w2 = trace w ++ [ev_get_lock conversation_id true]
   /\ server w2 = server w
   /\ match self w with
      | InMemoryLockStore _ _ =>
          holds conversation_id (TicketLock.queue checked) w2
      | RedisLockStore _ _ =>
          record conversation_id w2 = record conversation_id w
      end)
  /\ exists w3,
       (let* _ := observe (ev_is_locked ticket true) in
        asyncio_sleep others wait) w2 = (Ok tt, w3)
       /\ trace w3
          = trace w ++ [ev_get_lock conversation_id true;
                        ev_is_locked ticket true; ev_sleep wait]
       /\ clock w3 = clock w + Z.max 0 wait
       /\ _acquire_lock others conversation_id ticket attempts wait w
          = (let* _ := update_lock conversation_id in
             _acquire_lock others conversation_id ticket (attempts - 1) wait)
              w3
       /\ (forall fetched w4 w5,
             get_lock conversation_id w3 = (Ok (Some fetched), w4) ->
             update_lock conversation_id w3 = (Ok tt, w5) ->
             holds (TicketLock.conversation_id fetched)
               (TicketLock.remove_expired_tickets (clock w3)
                  (TicketLock.queue fetched)) w5
             /\ trace w5
                = trace w ++ [ev_get_lock conversation_id true;
                              ev_is_locked ticket true; ev_sleep wait;
                              ev_get_lock conversation_id true;
                              ev_save_lock
                                (TicketLock.conversation_id fetched) true]
             /\ clock w5 = clock w3).
Proof.
  intros Hpos Eg Ec.
  split; [exact (checked_before_sleeping _ _ _ _ _ _ _ _ Eg Ec)|].
  set (w2' := (observe (ev_is_locked ticket true) w2).2).
  destruct (asyncio_sleep_frame others wait w2') as (Er & Ets & Eks).
  exists (asyncio_sleep others wait w2').2.
  assert ((let* _ := observe (ev_is_locked ticket true) in
           asyncio_sleep others wait) w2
          = (Ok tt, (asyncio_sleep others wait w2').2)) as Es.
  { clear Ets Eks. unfold bind, w2' in *; cbn [observe snd] in *.
    destruct (asyncio_sleep others wait _) as [r w3]; cbn in *.
    now subst r. }
  assert (trace (asyncio_sleep others wait w2').2
          = trace w ++ [ev_get_lock conversation_id true;
                        ev_is_locked ticket true; ev_sleep wait]
          /\ clock (asyncio_sleep others wait w2').2
             = clock w + Z.max 0 wait) as [Et Ek].
  { destruct (call_frame (fun now => TicketLock.is_locked now ticket) found
                w1) as (a & q & _ & _ & Etc & Ekc & _).
    rewrite Ec in Etc, Ekc. cbn in Etc, Ekc.
    apply get_lock_Ok_world in Eg as [_ ->]. cbn in Etc, Ekc.
    rewrite Ets, Eks. unfold w2'. cbn. rewrite Etc, Ekc, <- !app_assoc.
    now cbn. }
  split; [exact Es|]. split; [exact Et|]. split; [exact Ek|]. split.
  - rewrite _acquire_lock_unfold by exact Hpos.
    rewrite (bind_Ok _ _ _ _ _ Eg), (bind_Ok _ _ _ _ _ Ec). cbn [negb].
    rewrite <- (bind_Ok _ (fun _ =>
      let* _ := update_lock conversation_id in
      _acquire_lock others conversation_id ticket (attempts - 1) wait)
      _ _ _ Es).
    now rewrite bind_assoc.
  - intros fetched w4 w5 Eg' Eu.
    destruct (update_lock_found _ _ _ _ _ Eg' Eu) as [Etu Eku].
    split.
    { exact (fetch_call_save_holds conversation_id
               (fun now q => (tt, TicketLock.remove_expired_tickets now q))
               fetched _ w4 w5 Eg' Eu). }
    split; [|exact Eku]. rewrite Etu, Et, <- app_assoc. reflexivity.
Qed.

End Protocol.

(** * The callers of one conversation over time *)

Section TurnCheckOfTheLoop.

Context {Q Wire : Type} `{!TicketLock.Ops Q Wire}.

Variable others : World Q Wire -> gmap Text Q * RedisServer Wire.

(** Every iteration of the loop of [_acquire_lock] is a turn check,
    followed, when the lock is locked for the ticket, by the sleep, the
    update and the rest of the loop. *)
Lemma acquire_loop_starts_with_turn_check n conversation_id ticket wait
  (w : World Q Wire) :
  acquire_loop others (S n) conversation_id ticket wait w
  = match turn_check conversation_id ticket w with
    | (Ok None, w1) => (Raise (could_not_acquire conversation_id), w1)
    | (Ok (Some (false, granted)), w1) => (Ok granted, w1)
    | (Ok (Some (true, _)), w1) =>
        (let* _ := asyncio_sleep others wait in
         let* _ := update_lock conversation_id in
         acquire_loop others n conversation_id ticket wait) w1
    | (Raise e, w1) => (Raise e, w1)
    end.
Proof.
  cbn [acquire_loop]. unfold turn_check, bind.
  destruct (get_lock conversation_id w) as [[[found|]|e] w1]; cbn;
    try reflexivity.
  destruct (call _ found w1) as [[[locked checked]|e] w2]; cbn;
    try reflexivity.
  now destruct locked.
Qed.

End TurnCheckOfTheLoop.

Section Turns.

Variable first : Z.

Local Abbreviation spec := (TicketQueue.ops first).

Lemma spec_round_trips : serialisation_round_trips (H := spec).
Proof. intros c q. split; reflexivity. Qed.

(** ** What the methods do to the queue that the store holds *)

Lemma get_lock_spec conversation_id (w : SpecWorld) :
  available w = true ->
  filed (H := spec) conversation_id w = true ->
  get_lock (H := spec) conversation_id w
  = (Ok (TicketLock.Build conversation_id <$> queue_of conversation_id w),
     {| self := self w; server := server w; clock := clock w;
        trace := trace w ++ [ev_get_lock conversation_id true] |}).
Proof.
  unfold get_lock, available, filed, queue_of, record, bind, observe,
    red_get, ret.
  destruct w as [[l locks|l red] srv t tr]; cbn.
  - intros _ _. now destruct (locks !! conversation_id).
  - intros ->; cbn.
    destruct (keys srv !! conversation_id) as [[c q]|]; cbn; [|reflexivity].
    now intros ->%String.eqb_eq.
Qed.

Lemma prune_fresh now q :
  (forall t, In t (TicketQueue.tickets q) ->
             TicketQueue.has_expired now t = false) ->
  TicketQueue.remove_expired_tickets now q = q.
Proof.
  destruct q as [ts n]. unfold TicketQueue.remove_expired_tickets; cbn.
  intros Hf. f_equal. induction ts as [|t ts IH]; cbn; [reflexivity|].
  rewrite (Hf t) by now left. cbn. f_equal. apply IH.
  intros t' Ht'. apply Hf. now right.
Qed.

Lemma tickets_of_Some conversation_id (w : SpecWorld) q :
  queue_of conversation_id w = Some q ->
  tickets_of conversation_id w = TicketQueue.tickets q.
Proof. unfold tickets_of. now intros ->. Qed.

Lemma tickets_of_None conversation_id (w : SpecWorld) :
  queue_of conversation_id w = None -> tickets_of conversation_id w = [].
Proof. unfold tickets_of. now intros ->. Qed.

(** [fresh_at w]: no ticket in the queue that the store holds has
    expired. *)
Local Abbreviation fresh_at conversation_id w :=
  (forall t, In t (tickets_of conversation_id w) ->
             TicketQueue.has_expired (clock w) t = false).

Lemma issue_effect conversation_id (w : SpecWorld) :
  available w = true ->
  filed (H := spec) conversation_id w = true ->
  let q0 :=
    default {| TicketQueue.tickets := [];
               TicketQueue.next_ticket_number := first |}
            (queue_of conversation_id w) in
  exists w',
    issue_ticket (H := spec) conversation_id (Some DEFAULT_LOCK_LIFETIME) w
    = (Ok (TicketQueue.next_ticket_number q0), w')
    /\ available w' = true
    /\ filed (H := spec) conversation_id w' = true
    /\ clock w' = clock w
    /\ queue_of conversation_id w'
       = Some {| TicketQueue.tickets :=
                   TicketQueue.tickets q0
                   ++ [{| TicketQueue.number :=
                            TicketQueue.next_ticket_number q0;
                          TicketQueue.expires :=
                            clock w + DEFAULT_LOCK_LIFETIME |}];
                 TicketQueue.next_ticket_number :=
                   TicketQueue.next_ticket_number q0 + 1 |}.
Proof.
  intros Ha Hf q0.
  pose proof (get_lock_spec conversation_id w Ha Hf) as Eg.
  destruct (issue_ticket_run (H := spec) conversation_id
              (Some DEFAULT_LOCK_LIFETIME) _ w _ spec_round_trips Eg)
    as (w' & Ei & Eg' & _ & Ek & _).
  destruct (proj1 (behaves_issue_ticket (H := spec) conversation_id
                     (Some DEFAULT_LOCK_LIFETIME)) w Ha) as [Ha' _].
  destruct (touches_only_issue_ticket (H := spec) conversation_id
              (Some DEFAULT_LOCK_LIFETIME) spec_round_trips w Hf)
    as ([Hf' _] & _).
  rewrite Ei in Ha', Hf'. cbn [snd] in Ha', Hf'.
  exists w'.
  assert (default (TicketLock.Build conversation_id
                     (TicketLock.fresh (Ops := spec)))
                  (TicketLock.Build conversation_id
                     <$> queue_of conversation_id w)
          = TicketLock.Build conversation_id q0) as El.
  { unfold q0. now destruct (queue_of conversation_id w). }
  rewrite El in Ei, Eg'. cbn in Ei, Eg'.
  split; [exact Ei|]. split; [exact Ha'|]. split; [exact Hf'|].
  split; [exact Ek|].
  rewrite (get_lock_spec conversation_id w' Ha' Hf') in Eg'. cbn in Eg'.
  destruct (queue_of conversation_id w') as [q'|]; cbn in Eg';
    [|discriminate].
  now injection Eg' as ->.
Qed.

Lemma check_effect conversation_id n (w : SpecWorld) :
  available w = true ->
  filed (H := spec) conversation_id w = true ->
  fresh_at conversation_id w ->
  exists r w',
    turn_check (H := spec) conversation_id n w = (Ok r, w')
    /\ available w' = true
    /\ filed (H := spec) conversation_id w' = true
    /\ clock w' = clock w
    /\ queue_of conversation_id w' = queue_of conversation_id w
    /\ match queue_of conversation_id w with
       | None => r = None
       | Some q =>
           exists l,
             r = Some (negb (TicketQueue.is_in_turn (clock w) n q).1, l)
       end.
Proof.
  unfold turn_check, get_lock, call, available, filed, tickets_of, queue_of,
    record, bind, observe, red_get, ret.
  destruct w as [[l locks|l red] srv t tr]; cbn -[TicketQueue.is_locked].
  - intros _ _ Hfresh.
    destruct (locks !! conversation_id) as [q|] eqn:El;
      cbn -[TicketQueue.is_locked] in *.
    + rewrite is_locked_spec. cbn. eexists _, _. split; [reflexivity|].
      cbn. rewrite lookup_alter_eq, El; cbn.
      rewrite (prune_fresh t q Hfresh). repeat split. eauto.
    + eexists _, _. split; [reflexivity|]. cbn. rewrite El. easy.
  - intros Er Hf Hfresh. rewrite Er; cbn -[TicketQueue.is_locked] in *.
    destruct (keys srv !! conversation_id) as [[c q]|] eqn:Ek;
      cbn -[TicketQueue.is_locked] in *.
    + rewrite is_locked_spec. cbn. eexists _, _. split; [reflexivity|].
      cbn. rewrite Ek; cbn. repeat split; eauto.
    + eexists _, _. split; [reflexivity|]. cbn. rewrite Ek. easy.
Qed.

Lemma update_effect conversation_id (w : SpecWorld) :
  available w = true ->
  filed (H := spec) conversation_id w = true ->
  fresh_at conversation_id w ->
  available (update_lock (H := spec) conversation_id w).2 = true
  /\ filed (H := spec) conversation_id
       (update_lock (H := spec) conversation_id w).2 = true
  /\ clock (update_lock (H := spec) conversation_id w).2 = clock w
  /\ queue_of conversation_id (update_lock (H := spec) conversation_id w).2
     = queue_of conversation_id w.
Proof.
  unfold update_lock, get_lock, call, save_lock, available, filed,
    tickets_of, queue_of, record, bind, observe, red_get, red_set, ret.
  destruct w as [[l locks|l red] srv t tr];
    cbn -[TicketQueue.remove_expired_tickets].
  - intros _ _ Hfresh.
    destruct (locks !! conversation_id) as [q|] eqn:El;
      cbn -[TicketQueue.remove_expired_tickets] in *.
    + rewrite lookup_insert_eq. rewrite (prune_fresh t q Hfresh). easy.
    + rewrite El. easy.
  - intros Er Hf Hfresh. rewrite Er;
      cbn -[TicketQueue.remove_expired_tickets] in *.
    destruct (keys srv !! conversation_id) as [[c q]|] eqn:Ek;
      cbn -[TicketQueue.remove_expired_tickets] in *.
    + apply String.eqb_eq in Hf. subst c. rewrite Er.
      cbn -[TicketQueue.remove_expired_tickets].
      rewrite lookup_insert_eq. cbn -[TicketQueue.remove_expired_tickets].
      rewrite String.eqb_refl, (prune_fresh t q Hfresh). easy.
    + rewrite Ek, Er. easy.
Qed.

Lemma remove_ticket_for_In now n q t :
  In t (TicketQueue.tickets (TicketQueue.remove_ticket_for now n q)) <->
  In t (TicketQueue.tickets q) /\ TicketQueue.number t <> n.
Proof.
  unfold TicketQueue.remove_ticket_for; cbn. rewrite filter_In.
  rewrite negb_true_iff, Z.eqb_neq. tauto.
Qed.

Lemma cleanup_effect conversation_id n (w : SpecWorld) :
  available w = true ->
  filed (H := spec) conversation_id w = true ->
  fresh_at conversation_id w ->
  available (cleanup (H := spec) conversation_id n w).2 = true
  /\ filed (H := spec) conversation_id
       (cleanup (H := spec) conversation_id n w).2 = true
  /\ clock (cleanup (H := spec) conversation_id n w).2 = clock w
  /\ queue_of conversation_id (cleanup (H := spec) conversation_id n w).2
     = match queue_of conversation_id w with
       | None => None
       | Some q =>
           match TicketQueue.tickets
                   (TicketQueue.remove_ticket_for (clock w) n q) with
           | [] => None
           | _ :: _ => Some (TicketQueue.remove_ticket_for (clock w) n q)
           end
       end.
Proof.
  intros Ha Hf Hfresh.
  split; [apply (proj1 (behaves_cleanup (H := spec) conversation_id n) w Ha)|].
  split;
    [apply (touches_only_cleanup (H := spec) conversation_id n
              spec_round_trips w Hf)|].
  revert Ha Hf Hfresh.
  unfold cleanup, finish_serving, is_someone_waiting, delete_lock,
    _log_deletion, get_lock, call, save_lock, available, filed, tickets_of,
    queue_of, record, bind, observe, red_get, red_set, red_delete, ret.
  destruct w as [[l locks|l red] srv t tr];
    cbn -[TicketQueue.remove_expired_tickets TicketQueue.remove_ticket_for].
  - intros _ _ Hfresh.
    destruct (locks !! conversation_id) as [q|] eqn:El;
      cbn -[TicketQueue.remove_expired_tickets
            TicketQueue.remove_ticket_for] in *.
    + rewrite lookup_insert_eq.
      cbn -[TicketQueue.remove_expired_tickets
            TicketQueue.remove_ticket_for].
      rewrite (prune_fresh t (TicketQueue.remove_ticket_for t n q)).
      2: { intros t' [Ht' _]%remove_ticket_for_In. now apply Hfresh. }
      destruct (TicketQueue.tickets (TicketQueue.remove_ticket_for t n q))
        eqn:Et;
        cbn -[TicketQueue.remove_expired_tickets
              TicketQueue.remove_ticket_for].
      * rewrite lookup_alter_eq, lookup_insert_eq.
        cbn. now rewrite lookup_delete_eq.
      * now rewrite lookup_alter_eq, lookup_insert_eq.
    + rewrite El. cbn. rewrite El. cbn. now rewrite lookup_delete_eq.
  - intros Er Hf Hfresh. rewrite Er;
      cbn -[TicketQueue.remove_expired_tickets
            TicketQueue.remove_ticket_for] in *.
    destruct (keys srv !! conversation_id) as [[c q]|] eqn:Ek;
      cbn -[TicketQueue.remove_expired_tickets
            TicketQueue.remove_ticket_for] in *.
    + apply String.eqb_eq in Hf. subst c. rewrite Er.
      cbn -[TicketQueue.remove_expired_tickets
            TicketQueue.remove_ticket_for].
      rewrite lookup_insert_eq.
      cbn -[TicketQueue.remove_expired_tickets
            TicketQueue.remove_ticket_for].
      rewrite (prune_fresh t (TicketQueue.remove_ticket_for t n q)).
      2: { intros t' [Ht' _]%remove_ticket_for_In. now apply Hfresh. }
      destruct (TicketQueue.tickets (TicketQueue.remove_ticket_for t n q))
        eqn:Et;
        cbn -[TicketQueue.remove_expired_tickets
              TicketQueue.remove_ticket_for].
      * rewrite lookup_insert_eq. cbn. now rewrite lookup_delete_eq.
      * now rewrite lookup_insert_eq.
    + repeat (first [rewrite Ek | rewrite Er]; cbn).
      now rewrite lookup_delete_eq.
Qed.

(** ** What holds throughout a run without expiry *)

Lemma consistent_fresh conversation_id s :
  consistent first conversation_id s ->
  timely_now s = true ->
  fresh_at conversation_id (world s).
Proof.
  intros (_ & _ & _ & Hown & _) Ht t Hin.
  destruct (Hown t Hin) as (c & caller & Hc & <-).
  apply bool_decide_eq_true in Ht. specialize (Ht c caller Hc). cbn in Ht.
  unfold TicketQueue.has_expired, ticket_of; cbn. apply Z.leb_gt. lia.
Qed.

(** A step that changes neither the queue nor the callers. *)
Lemma consistent_world conversation_id s (w' : SpecWorld) :
  consistent first conversation_id s ->
  available w' = true ->
  filed (H := spec) conversation_id w' = true ->
  queue_of conversation_id w' = queue_of conversation_id (world s) ->
  consistent first conversation_id {| world := w'; callers := callers s |}.
Proof.
  intros (_ & _ & Hin & Hown & Hlt & Hdist & Hleast) Ha Hf Eq.
  unfold consistent, distinct_tickets, least_holds, tickets_of in *.
  cbn [world callers].
  rewrite Eq. repeat split; assumption.
Qed.

(** A caller is given the turn. *)
Lemma consistent_grant conversation_id s c caller :
  consistent first conversation_id s ->
  callers s !! c = Some caller ->
  (forall c2 caller2,
     callers s !! c2 = Some caller2 ->
     caller_ticket caller <= caller_ticket caller2) ->
  consistent first conversation_id
    {| world := world s;
       callers :=
         <[c := {| caller_ticket := caller_ticket caller;
                   caller_expires := caller_expires caller;
                   caller_holds := true |}]> (callers s) |}.
Proof.
  intros (Ha & Hf & Hin & Hown & Hlt & Hdist & Hleast) Hc Hmin.
  unfold consistent, distinct_tickets, least_holds. cbn [world callers].
  split; [exact Ha|]. split; [exact Hf|]. split; [|split; [|split; [|split]]].
  - intros c' caller' [[<- <-]|[Hne Hc']]%lookup_insert_Some.
    + exact (Hin c caller Hc).
    + exact (Hin c' caller' Hc').
  - intros t Ht. destruct (Hown t Ht) as (c' & caller' & Hc' & Et).
    destruct (decide (c' = c)) as [->|Hne].
    + rewrite Hc in Hc'. injection Hc' as <-.
      eexists c, _. rewrite lookup_insert_eq. split; [reflexivity|].
      exact Et.
    + exists c', caller'. now rewrite lookup_insert_ne by congruence.
  - exact Hlt.
  - intros c1 c2 caller1 caller2
      [[<- <-]|[Hne1 Hc1]]%lookup_insert_Some
      [[<- <-]|[Hne2 Hc2]]%lookup_insert_Some; cbn; intros En.
    + reflexivity.
    + exact (Hdist c c2 caller caller2 Hc Hc2 En).
    + exact (Hdist c1 c caller1 caller Hc1 Hc En).
    + exact (Hdist c1 c2 caller1 caller2 Hc1 Hc2 En).
  - intros c1 c2 caller1 caller2
      [[<- <-]|[Hne1 Hc1]]%lookup_insert_Some
      [[<- <-]|[Hne2 Hc2]]%lookup_insert_Some; cbn; intros Eh.
    + lia.
    + exact (Hmin c2 caller2 Hc2).
    + exact (Hleast c1 c caller1 caller Hc1 Hc Eh).
    + exact (Hleast c1 c2 caller1 caller2 Hc1 Hc2 Eh).
Qed.

Lemma issue_consistent conversation_id c s :
  consistent first conversation_id s ->
  consistent first conversation_id (step first conversation_id (act_issue c) s).
Proof.
  intros Hinv. unfold step.
  destruct (callers s !! c) eqn:Ec; [exact Hinv|].
  destruct Hinv as (Ha & Hf & Hin & Hown & Hlt & Hdist & Hleast).
  destruct (issue_effect conversation_id (world s) Ha Hf)
    as (w' & Ei & Ha' & Hf' & Ek & Eq).
  rewrite Ei. clear Ei.
  set (q0 := default {| TicketQueue.tickets := [];
                        TicketQueue.next_ticket_number := first |}
                     (queue_of conversation_id (world s))) in *.
  assert (tickets_of conversation_id (world s) = TicketQueue.tickets q0)
    as ET.
  { unfold tickets_of, q0.
    now destruct (queue_of conversation_id (world s)). }
  assert (forall t, In t (TicketQueue.tickets q0) ->
                    TicketQueue.number t < TicketQueue.next_ticket_number q0)
    as Hlt0.
  { unfold q0. destruct (queue_of conversation_id (world s)) as [q|] eqn:E;
      cbn; [|easy]. intros t. now apply Hlt. }
  rewrite ET in Hin, Hown.
  assert (forall c' caller',
            callers s !! c' = Some caller' ->
            caller_ticket caller' < TicketQueue.next_ticket_number q0)
    as Hbelow.
  { intros c' caller' Hc'. exact (Hlt0 _ (Hin c' caller' Hc')). }
  unfold consistent, distinct_tickets, least_holds, tickets_of.
  cbn [world callers]. rewrite Eq.
  cbn [TicketQueue.tickets].
  split; [exact Ha'|]. split; [exact Hf'|]. split; [|split; [|split; [|split]]].
  - intros c' caller' [[<- <-]|[Hne Hc']]%lookup_insert_Some.
    + apply in_or_app. right. now left.
    + apply in_or_app. left. exact (Hin c' caller' Hc').
  - intros t [Ht|[<-|[]]]%in_app_or.
    + destruct (Hown t Ht) as (c' & caller' & Hc' & Et).
      exists c', caller'. split; [|exact Et].
      rewrite lookup_insert_ne; [exact Hc'|]. intros ->. congruence.
    + eexists c, _. rewrite lookup_insert_eq. split; reflexivity.
  - intros q t [= <-]; cbn. intros [Ht|[<-|[]]]%in_app_or; cbn.
    + specialize (Hlt0 t Ht). lia.
    + lia.
  - intros c1 c2 caller1 caller2
      [[<- <-]|[Hne1 Hc1]]%lookup_insert_Some
      [[<- <-]|[Hne2 Hc2]]%lookup_insert_Some; cbn; intros En.
    + reflexivity.
    + specialize (Hbelow c2 caller2 Hc2). lia.
    + specialize (Hbelow c1 caller1 Hc1). lia.
    + exact (Hdist c1 c2 caller1 caller2 Hc1 Hc2 En).
  - intros c1 c2 caller1 caller2
      [[<- <-]|[Hne1 Hc1]]%lookup_insert_Some
      [[<- <-]|[Hne2 Hc2]]%lookup_insert_Some; cbn; intros Eh;
      try discriminate.
    + specialize (Hbelow c1 caller1 Hc1). lia.
    + exact (Hleast c1 c2 caller1 caller2 Hc1 Hc2 Eh).
Qed.

Lemma check_consistent conversation_id c s :
  consistent first conversation_id s ->
  timely_now s = true ->
  consistent first conversation_id (step first conversation_id (act_check c) s).
Proof.
  intros Hinv Ht. unfold step.
  destruct (callers s !! c) as [caller|] eqn:Ec; [|exact Hinv].
  destruct (caller_holds caller) eqn:Eh; [exact Hinv|].
  pose proof (consistent_fresh _ _ Hinv Ht) as Hfresh.
  pose proof Hinv as (Ha & Hf & Hin & Hown & Hlt & Hdist & Hleast).
  destruct (check_effect conversation_id (caller_ticket caller) (world s)
              Ha Hf Hfresh) as (r & w' & Et & Ha' & Hf' & Ek & Eq & Hr).
  rewrite Et. clear Et.
  pose proof (consistent_world _ _ w' Hinv Ha' Hf' Eq) as Hinv'.
  destruct r as [[[|] l]|]; try exact Hinv'.
  apply (consistent_grant conversation_id
           {| world := w'; callers := callers s |} c caller Hinv' Ec).
  intros c2 caller2 Hc2. cbn [callers] in Hc2.
  destruct (queue_of conversation_id (world s)) as [q|] eqn:Eqs;
    [|discriminate].
  destruct Hr as [l' [= Hturn _]]. symmetry in Hturn.
  apply negb_false_iff in Hturn.
  apply (in_turn_least (clock (world s)) _ _ q Hturn).
  exists (ticket_of caller2). split; [|split; [reflexivity|]].
  - rewrite <- (tickets_of_Some _ _ _ Eqs). exact (Hin c2 caller2 Hc2).
  - apply Hfresh. exact (Hin c2 caller2 Hc2).
Qed.

Lemma update_consistent conversation_id c s :
  consistent first conversation_id s ->
  timely_now s = true ->
  consistent first conversation_id
    (step first conversation_id (act_update c) s).
Proof.
  intros Hinv Ht. unfold step.
  destruct (callers s !! c) as [caller|] eqn:Ec; [|exact Hinv].
  pose proof (consistent_fresh _ _ Hinv Ht) as Hfresh.
  pose proof Hinv as (Ha & Hf & _).
  destruct (update_effect conversation_id (world s) Ha Hf Hfresh)
    as (Ha' & Hf' & _ & Eq).
  exact (consistent_world _ _ _ Hinv Ha' Hf' Eq).
Qed.

Lemma release_consistent conversation_id c s :
  consistent first conversation_id s ->
  timely_now s = true ->
  consistent first conversation_id
    (step first conversation_id (act_release c) s).
Proof.
  intros Hinv Ht. unfold step.
  destruct (callers s !! c) as [caller|] eqn:Ec; [|exact Hinv].
  pose proof (consistent_fresh _ _ Hinv Ht) as Hfresh.
  destruct Hinv as (Ha & Hf & Hin & Hown & Hlt & Hdist & Hleast).
  destruct (cleanup_effect conversation_id (caller_ticket caller) (world s)
              Ha Hf Hfresh) as (Ha' & Hf' & _ & Eq).
  set (w' := (cleanup (H := spec) conversation_id (caller_ticket caller)
                (world s)).2) in *.
  destruct (queue_of conversation_id (world s)) as [q|] eqn:Eqs.
  2: { pose proof (Hin c caller Ec) as Hc.
       rewrite (tickets_of_None _ _ Eqs) in Hc. destruct Hc. }
  rewrite (tickets_of_Some _ _ _ Eqs) in Hin, Hown.
  set (q1 := TicketQueue.remove_ticket_for (clock (world s))
               (caller_ticket caller) q) in *.
  assert (tickets_of conversation_id w' = TicketQueue.tickets q1) as ET.
  { unfold tickets_of. rewrite Eq.
    now destruct (TicketQueue.tickets q1) eqn:E1. }
  unfold consistent, distinct_tickets, least_holds.
  cbn [world callers]. rewrite ET.
  split; [exact Ha'|]. split; [exact Hf'|]. split; [|split; [|split; [|split]]].
  - intros c' caller' [Hne Hc']%lookup_delete_Some.
    apply remove_ticket_for_In. split; [exact (Hin c' caller' Hc')|].
    cbn. intros En. apply Hne. symmetry.
    exact (Hdist c' c caller' caller Hc' Ec En).
  - intros t [Hq Hn]%remove_ticket_for_In.
    destruct (Hown t Hq) as (c' & caller' & Hc' & Et).
    exists c', caller'. split; [|exact Et].
    apply lookup_delete_Some. split; [|exact Hc'].
    intros <-. rewrite Ec in Hc'. injection Hc' as <-.
    apply Hn. now rewrite <- Et.
  - intros q' t Eq' Hq. rewrite Eq in Eq'.
    destruct (TicketQueue.tickets q1) eqn:E1; [discriminate|].
    injection Eq' as <-.
    apply remove_ticket_for_In in Hq as [Hq _].
    exact (Hlt q t eq_refl Hq).
  - intros c1 c2 caller1 caller2 [_ Hc1]%lookup_delete_Some
      [_ Hc2]%lookup_delete_Some.
    exact (Hdist c1 c2 caller1 caller2 Hc1 Hc2).
  - intros c1 c2 caller1 caller2 [_ Hc1]%lookup_delete_Some
      [_ Hc2]%lookup_delete_Some.
    exact (Hleast c1 c2 caller1 caller2 Hc1 Hc2).
Qed.

Lemma pass_consistent conversation_id seconds s :
  consistent first conversation_id s ->
  consistent first conversation_id
    (step first conversation_id (act_pass seconds) s).
Proof.
  intros Hinv. pose proof Hinv as (Ha & Hf & _).
  apply (consistent_world conversation_id s); assumption || reflexivity.
Qed.

Lemma step_consistent conversation_id a s :
  consistent first conversation_id s ->
  timely_now s = true ->
  consistent first conversation_id (step first conversation_id a s).
Proof.
  intros Hinv Ht. destruct a.
  - now apply issue_consistent.
  - now apply check_consistent.
  - now apply update_consistent.
  - now apply release_consistent.
  - now apply pass_consistent.
Qed.

Lemma run_consistent conversation_id schedule s :
  consistent first conversation_id s ->
  timely first conversation_id schedule s = true ->
  consistent first conversation_id (run first conversation_id schedule s).
Proof.
  revert s. induction schedule as [|a schedule IH]; intros s Hinv Ht.
  - exact Hinv.
  - cbn in Ht. apply andb_prop in Ht as [Hnow Hrest].
    cbn. apply IH; [|exact Hrest]. now apply step_consistent.
Qed.

Lemma consistent_at_first conversation_id (w : SpecWorld) :
  available w = true ->
  record conversation_id w = None ->
  consistent first conversation_id {| world := w; callers := ∅ |}.
Proof.
  intros Ha Er.
  unfold consistent, distinct_tickets, least_holds, tickets_of, queue_of.
  cbn [world callers]. rewrite Er.
  split; [exact Ha|]. split.
  { revert Er. unfold filed, record. destruct (self w); [reflexivity|].
    now destruct (keys (server w) !! conversation_id). }
  repeat split; try easy; intros until 0; now rewrite ?lookup_empty.
Qed.

Lemma consistent_one_holder conversation_id s :
  consistent first conversation_id s -> one_holder s.
Proof.
  intros (_ & _ & _ & _ & _ & Hdist & Hleast)
    c1 c2 caller1 caller2 Hc1 Hc2 Eh1 Eh2 _ _.
  apply (Hdist c1 c2 caller1 caller2 Hc1 Hc2).
  pose proof (Hleast c1 c2 caller1 caller2 Hc1 Hc2 Eh1).
  pose proof (Hleast c2 c1 caller2 caller1 Hc2 Hc1 Eh2). lia.
Qed.


End Turns.

(** * Scenarios *)

(** ** C5: the lifetime of the ticket that [lock] issues *)

(** C5, the code at the failing input. A store configured with a lifetime of
    5, at time 100; a caller takes the lock without giving a lifetime.  The
    ticket it is issued expires at 100 + [DEFAULT_LOCK_LIFETIME], not at
    100 + 5: [lock] calls [issue_ticket] without a lifetime, the default of
    the signature is not [None], and [self.lifetime] is never read. *)
Example lock_ignores_the_configured_lifetime :
  (lock (H := TicketQueue.ops 1) nobody "c" 1 1 ret (in_memory 5 ∅ 100)).1
  = Ok (TicketLock.Build "c"
          {| TicketQueue.tickets :=
               [ {| TicketQueue.number := 1;
                    TicketQueue.expires := 100 + DEFAULT_LOCK_LIFETIME |} ];
             TicketQueue.next_ticket_number := 2 |})
  /\ 100 + DEFAULT_LOCK_LIFETIME <> 100 + 5.
Proof. split; [vm_compute; reflexivity | discriminate]. Qed.


(** ** Witnesses and counterexamples *)

#[local] Existing Instance scenario_ops.

(** C4 at work: three attempts allowed, no record. *)
Lemma acquire_without_record_fails_at_once :
  _acquire_lock nobody "c" 1 3 1 no_record
  = (Raise (could_not_acquire "c"),
     {| self := self no_record; server := server no_record; clock := 0;
        trace := [ev_get_lock "c" true] |}).
Proof.
  refine (proj1 (acquire_fails_at_once_when_record_absent
                   nobody "c" 1 3 1 no_record _
                   _ _)).
  - lia.
  - vm_compute. reflexivity.
Defined.


(** C6 at work. *)
Lemma delete_lock_of_a_record :
  exists w',
    delete_lock "c" last_caller = (Ok tt, w')
    /\ has_record "c" w' = false.
Proof.
  destruct (delete_lock_returns_nothing_and_logs_existence "c" last_caller)
    as (w' & E & Hr & _).
  - reflexivity.
  - exists w'. now split.
Defined.

(** C6 as stated fails: [delete_lock] returns the same ([None]) for a
    conversation with a record and for one without. *)
Lemma delete_lock_return_does_not_tell_existence :
  ~ exists reads, return_tells_existence reads.
Proof.
  intros [reads Hr].
  pose proof (Hr "c" last_caller) as H1.
  pose proof (Hr "c" no_record) as H2.
  vm_compute in H1, H2. congruence.
Qed.

(** C7 at work. *)
Lemma mongodb_is_refused :
  exists message,
    @find_lock_store TicketQueue.t
      (Some {| type := Some "mongodb"; url := Some "localhost";
               kwargs := {| kw_port := None; kw_db := None;
                            kw_password := None; kw_lifetime := None |} |})
    = (Raise (ValueError message), []).
Proof.
  eexists.
  refine (proj1 (unknown_store_type_is_refused_at_construction
                   nobody _ "mongodb" _ _ _)).
  - reflexivity.
  - discriminate.
  - discriminate.
Defined.

(** ** The acquisition and the release at work *)


(** C3 at work, on a Redis store: the last caller releases; its ticket is
    removed from the record and the record saved, then the record goes. *)
Lemma release_of_the_last_caller_removes_the_record :
  (get_lock "c" (cleanup "c" 1 last_caller_in_redis).2).1 = Ok None
  /\ has_record "c" (cleanup "c" 1 last_caller_in_redis).2 = false
  /\ exists w1,
       finish_serving "c" 1 last_caller_in_redis = (Ok tt, w1)
       /\ holds "c"
            {| TicketQueue.tickets := [];
               TicketQueue.next_ticket_number := 2 |} w1.
Proof.
  destruct (cleanup_without_waiters_leaves_no_record
              "c" 1 last_caller_in_redis
              (cleanup "c" 1 last_caller_in_redis).2)
    as (Hnone & (w1 & waiting & w2 & Ef & Hheld & Ew & Hd) & _).
  - exact is_someone_waiting_twice.
  - vm_compute. reflexivity.
  - split; [apply Hnone; vm_compute; reflexivity|]. split.
    + vm_compute. reflexivity.
    + exists w1. split; [exact Ef|].
      apply (Hheld (TicketLock.Build "c" one_ticket)
                   (get_lock "c" last_caller_in_redis).2).
      vm_compute. reflexivity.
Defined.

(** C2 at work, on a Redis store: the caller with ticket 3 waits behind
    ticket 2, which is never released, while the record still holds ticket
    1, which has expired.  After two attempts [LockError], and the
    updates have dropped the expired ticket from the record. *)
Lemma the_waiter_times_out_after_two_attempts :
  exists w',
    _acquire_lock nobody "c" 3 2 1 waiting_in_redis
    = (Raise (could_not_acquire "c"), w')
    /\ attempts_made nobody "c" 3 1 2 waiting_in_redis w'
    /\ trace w' = attempt_events "c" 3 1 "c" ++ attempt_events "c" 3 1 "c"
    /\ holds "c"
         {| TicketQueue.tickets :=
              [ {| TicketQueue.number := 2; TicketQueue.expires := 160 |};
                {| TicketQueue.number := 3; TicketQueue.expires := 160 |} ];
            TicketQueue.next_ticket_number := 4 |} w'.
Proof.
  destruct (acquire_times_out_after_exactly_the_attempts
              nobody "c" 3 2 1 waiting_in_redis)
    as (w' & ids & Er & Hm & Hl & Et & Ek).
  - lia.
  - vm_compute. reflexivity.
  - exists w'. split; [exact Er|]. split; [exact Hm|].
    vm_compute in Er. injection Er as <-. split; reflexivity.
Defined.

(** C8 as stated fails: on a Redis store, when the caller with ticket 3
    goes to sleep, the record on the server still holds the expired ticket
    1; the pruned queue has not been persisted. *)
Lemma the_pruned_queue_is_not_persisted_before_the_sleep :
  ~ persisted_before_sleeping.
Proof.
  intros Hc.
  assert (get_lock "c" waiting_in_redis
          = (Ok (Some (TicketLock.Build "c" three_tickets)),
             (get_lock "c" waiting_in_redis).2)) as E1
    by (vm_compute; reflexivity).
  assert (call (fun now => TicketLock.is_locked now 3)
               (TicketLock.Build "c" three_tickets)
               (get_lock "c" waiting_in_redis).2
          = (Ok (true,
                 TicketLock.Build "c"
                   (TicketQueue.remove_expired_tickets 100 three_tickets)),
             (get_lock "c" waiting_in_redis).2)) as E2
    by (vm_compute; reflexivity).
  specialize (Hc "c" 3 _ _ _ _ _ E1 E2).
  vm_compute in Hc. discriminate Hc.
Qed.

(** C8 at work, on the same run: the caller sleeps, and only the update
    after the sleep drops the expired ticket from the record. *)
Lemma the_waiter_in_redis_sleeps_then_updates :
  record "c" (get_lock "c" waiting_in_redis).2
  = record "c" waiting_in_redis
  /\ exists w3 w5,
       trace w3 = [ev_get_lock "c" true; ev_is_locked 3 true; ev_sleep 1]
       /\ clock w3 = 101
       /\ update_lock "c" w3 = (Ok tt, w5)
       /\ holds "c"
            {| TicketQueue.tickets :=
                 [ {| TicketQueue.number := 2; TicketQueue.expires := 160 |};
                   {| TicketQueue.number := 3;
                      TicketQueue.expires := 160 |} ];
               TicketQueue.next_ticket_number := 4 |} w5.
Proof.
  destruct (waiting_iteration_sleeps_then_updates
              nobody "c" 3 1 1
              (TicketLock.Build "c" three_tickets)
              (TicketLock.Build "c"
                 (TicketQueue.remove_expired_tickets 100 three_tickets))
              waiting_in_redis
              (get_lock "c" waiting_in_redis).2
              (get_lock "c" waiting_in_redis).2)
    as ((_ & _ & Hb) & w3 & Es & Et & Ek & _ & Hu).
  - lia.
  - vm_compute. reflexivity.
  - vm_compute. reflexivity.
  - split; [exact Hb|].
    vm_compute in Es. injection Es as <-.
    match type of Et with trace ?w = _ =>
      exists w, (update_lock "c" w).2;
      pose proof (Hu (TicketLock.Build "c" three_tickets)
                     (get_lock "c" w).2 (update_lock "c" w).2) as Hu'
    end.
    split; [reflexivity|]. split; [reflexivity|].
    split; [vm_compute; reflexivity|].
    refine (proj1 (Hu' _ _)).
    + vm_compute. reflexivity.
    + vm_compute. reflexivity.
Defined.



(** ** The further properties at work *)

Lemma the_spec_queue_round_trips :
  serialisation_round_trips (H := scenario_ops).
Proof. intros c q. split; reflexivity. Qed.

(** X1 at work, on a Redis store. *)
Lemma a_saved_lock_is_fetched :
  (get_lock "c"
     (save_lock (TicketLock.Build "c" one_ticket) (in_redis 60 ∅ 0)).2).1
  = Ok (Some (TicketLock.Build "c" one_ticket)).
Proof.
  refine (proj1 (save_lock_then_get_lock_returns_the_lock
                   (TicketLock.Build "c" one_ticket) (in_redis 60 ∅ 0) _
                   the_spec_queue_round_trips _)).
  vm_compute. reflexivity.
Defined.

(** X2 at work: a conversation without a record gets one. *)
Lemma a_missing_lock_is_created :
  has_record "c" (get_or_create_lock "c" no_record).2 = true.
Proof.
  refine (proj2 (get_or_create_lock_creates_only_when_missing
                   "c" None no_record (get_lock "c" no_record).2
                   the_spec_queue_round_trips _)).
  vm_compute. reflexivity.
Defined.

(** X3 at work: with [None] for the lifetime, the ticket gets the lifetime
    of the store (5, at time 100). *)
Lemma a_ticket_with_the_lifetime_of_the_store :
  exists w',
    issue_ticket "c" None (in_memory 5 ∅ 100) = (Ok 1, w')
    /\ (get_lock "c" w').1
       = Ok (Some (TicketLock.Build "c"
               {| TicketQueue.tickets :=
                    [ {| TicketQueue.number := 1;
                         TicketQueue.expires := 105 |} ];
                  TicketQueue.next_ticket_number := 2 |})).
Proof.
  destruct (issue_ticket_issues_on_the_stored_queue
              "c" None None (in_memory 5 ∅ 100)
              (get_lock "c" (in_memory 5 ∅ 100)).2
              the_spec_queue_round_trips)
    as (w' & Ei & Eg & _).
  - vm_compute. reflexivity.
  - exists w'. split; [exact Ei | exact Eg].
Defined.

(** X4 at work: ticket 1 is handed out again after the record went. *)
Lemma ticket_1_is_issued_again :
  (issue_ticket "c" None (delete_lock "c" last_caller).2).1 = Ok 1.
Proof.
  refine (issue_ticket_after_delete_lock_starts_afresh
            "c" None last_caller (delete_lock "c" last_caller).2
            the_spec_queue_round_trips _).
  vm_compute. reflexivity.
Defined.

(** X5 at work: [update_lock] drops the expired ticket 1 from the record
    on the server. *)
Lemma the_expired_ticket_is_dropped :
  exists w',
    update_lock "c" waiting_in_redis = (Ok tt, w')
    /\ (get_lock "c" w').1
       = Ok (Some (TicketLock.Build "c"
               {| TicketQueue.tickets :=
                    [ {| TicketQueue.number := 2;
                         TicketQueue.expires := 160 |};
                      {| TicketQueue.number := 3;
                         TicketQueue.expires := 160 |} ];
                  TicketQueue.next_ticket_number := 4 |})).
Proof.
  destruct (finish_serving_and_update_lock_persist_the_change
              "c" 1 (TicketLock.Build "c" three_tickets)
              waiting_in_redis (get_lock "c" waiting_in_redis).2
              the_spec_queue_round_trips)
    as (_ & w' & Eu & Eg & _).
  - vm_compute. reflexivity.
  - exists w'. split; [exact Eu | exact Eg].
Defined.

(** X6 at work: releasing in conversation c leaves the record of
    conversation d alone. *)
Lemma the_other_conversation_is_untouched :
  record "d" (cleanup "c" 1 two_conversations).2
  = record "d" two_conversations.
Proof.
  destruct (other_conversations_are_untouched
              "c" None 1 two_conversations the_spec_queue_round_trips)
    as (_ & _ & _ & _ & _ & _ & [_ Hc] & _).
  - vm_compute. reflexivity.
  - apply Hc. discriminate.
Defined.

(** X9 at work: ticket 1 is released while ticket 2 waits. *)
Lemma the_record_stays_for_the_waiter :
  has_record "c" (cleanup "c" 1 scenario_D).2 = true.
Proof.
  destruct (cleanup_with_waiters_keeps_the_record
              "c" 1 scenario_D
              (finish_serving "c" 1 scenario_D).2
              (is_someone_waiting "c" (finish_serving "c" 1 scenario_D).2).2)
    as (Ec & Hh & _).
  - vm_compute. reflexivity.
  - vm_compute. reflexivity.
  - rewrite Ec. exact Hh.
Defined.

(** X11 at work: the block is not run when the server is down. *)
Lemma nothing_runs_while_redis_is_down :
  lock nobody "c" 3 1 ret redis_down
  = (Raise ConnectionError, after_failed (ev_get_lock "c" false) redis_down).
Proof.
  destruct (unreachable_backend_fails_at_the_first_call
              nobody "c" None 1 3 1 (TicketLock.Build "c" one_ticket)
              redis_down)
    as (_ & _ & _ & _ & _ & _ & _ & _ & _ & _ & _ & Hl).
  - reflexivity.
  - apply Hl.
Defined.

(** X12 at work: the lock of the last caller is free for ticket 1, and yet
    it is refused when no attempt is allowed. *)
Lemma a_free_lock_is_refused_without_attempts :
  _acquire_lock nobody "c" 1 0 1 last_caller
  = (Raise (could_not_acquire "c"), last_caller).
Proof.
  refine (proj1 (acquire_without_attempts_fails_untried
                   nobody "c" 1 0 1 last_caller _)).
  lia.
Defined.

(** X14 at work: in scenario D the caller with ticket 1 does not wait. *)
Lemma ticket_1_does_not_wait :
  exists w',
    _acquire_lock nobody "c" 1 2 1 scenario_D
    = (Ok (TicketLock.Build "c" two_tickets), w')
    /\ trace w' = [ev_get_lock "c" true; ev_is_locked 1 false]
    /\ clock w' = 100.
Proof.
  destruct (acquire_returns_at_once_when_in_turn
              nobody "c" 1 2 1
              (TicketLock.Build "c" two_tickets)
              (TicketLock.Build "c" two_tickets)
              scenario_D
              (get_lock "c" scenario_D).2
              (get_lock "c" scenario_D).2)
    as (w' & Ea & Et & Ek & _).
  - lia.
  - vm_compute. reflexivity.
  - vm_compute. reflexivity.
  - exists w'. repeat split; assumption.
Defined.

(** X15 at work, with a block that returns the lock. *)
Lemma lock_in_scenario_D_reports_no_failure :
  exists d,
    trace (lock nobody "c" 2 1 ret scenario_D).2 = trace scenario_D ++ d
    /\ (existsb backend_failed d = true <->
        (lock nobody "c" 2 1 ret scenario_D).1 = Raise ConnectionError).
Proof.
  apply (lock_surfaces_backend_errors nobody "c" 2 1 ret scenario_D).
  intros l. apply sound_ret.
Defined.

(** X16 at work: the block raises, and the record of the only caller is
    removed all the same. *)
Lemma a_failing_block_is_cleaned_up_after :
  (lock nobody "c" 1 1 (fun _ => raise (A := unit) (ValueError "boom"))
     no_record).1
  = Raise (ValueError "boom")
  /\ has_record "c"
       (lock nobody "c" 1 1 (fun _ => raise (A := unit) (ValueError "boom"))
          no_record).2
     = false.
Proof.
  destruct (lock_cleans_up_on_every_exit
              nobody "c" 1 1
              (fun _ => raise (A := unit) (ValueError "boom"))
              1 (Raise (ValueError "boom")) no_record
              (issue_ticket "c" (Some DEFAULT_LOCK_LIFETIME) no_record).2
              ((let* l := _acquire_lock nobody "c" 1 1 1 in
                raise (A := unit) (ValueError "boom"))
                 (issue_ticket "c" (Some DEFAULT_LOCK_LIFETIME)
                    no_record).2).2)
    as (E2 & E1 & _).
  - vm_compute. reflexivity.
  - vm_compute. reflexivity.
  - split.
    + rewrite E1. vm_compute. reflexivity.
    + rewrite E2. vm_compute. reflexivity.
Defined.

(** X17 at work: asking whether someone waits drops the expired ticket 1
    from the record of an in-memory store, though nothing is saved. *)
Lemma asking_prunes_the_in_memory_record :
  exists w',
    is_someone_waiting "c" (in_memory 60 {[ "c" := three_tickets ]} 100)
    = (Ok true, w')
    /\ trace w' = [ev_get_lock "c" true]
    /\ record "c" w'
       = Some (inl {| TicketQueue.tickets :=
                        [ {| TicketQueue.number := 2;
                             TicketQueue.expires := 160 |};
                          {| TicketQueue.number := 3;
                             TicketQueue.expires := 160 |} ];
                      TicketQueue.next_ticket_number := 4 |}).
Proof.
  destruct (is_someone_waiting_shows_in_the_in_memory_store
              "c" (TicketLock.Build "c" three_tickets)
              (in_memory 60 {[ "c" := three_tickets ]} 100)
              (get_lock "c" (in_memory 60 {[ "c" := three_tickets ]} 100)).2)
    as (w' & Ew & Et & Er).
  - vm_compute. reflexivity.
  - exists w'. split; [exact Ew|]. split; [exact Et | exact Er].
Defined.

(** X18 at work: releasing once more after the record went. *)
Lemma a_second_cleanup_finds_nothing_to_delete :
  exists w',
    cleanup "c" 1 no_record = (Ok tt, w')
    /\ trace w'
       = [ev_get_lock "c" true; ev_get_lock "c" true;
          ev_delete_lock "c" true;
          ev_debug "Could not delete lock for conversation 'c'."].
Proof.
  destruct (methods_on_a_missing_record
              "c" 1 no_record (get_lock "c" no_record).2)
    as (_ & _ & _ & w' & Ec & _ & _ & _ & Et).
  - vm_compute. reflexivity.
  - exists w'. split; [exact Ec | exact Et].
Defined.

(** X19 at work: the record of the last caller is replaced by a fresh
    one. *)
Lemma a_created_lock_replaces_the_old_one :
  exists w',
    create_lock "c" last_caller
    = (Ok (TicketLock.Build "c" TicketLock.fresh), w')
    /\ (get_lock "c" w').1
       = Ok (Some (TicketLock.Build "c" TicketLock.fresh)).
Proof.
  destruct (create_lock_replaces_the_record
              "c" last_caller the_spec_queue_round_trips)
    as (w' & Ec & Eg & _).
  - reflexivity.
  - exists w'. split; [exact Ec | exact Eg].
Defined.
